(** * Dependency gathering of Vortex's mod management, embedded in Rocq

    Source: [src/extensions/mod_management/util/dependencies.ts].

    The embedding follows the TypeScript function by function.  Objects
    are records, optional properties are [option]s, a synchronous [throw]
    is the [Throw] constructor of [result], and a bluebird promise is a
    computation over a small world (the event trace and the allocator of
    object identities) that either settles (fulfilled or rejected) or,
    when the recursion it starts is unbounded, never does.

    The npm packages [semver] and [minimatch], and the repository's
    [testModReference], are not part of the file; they are the fields of
    the class [Imports], and every statement holds for all instances
    unless it lists what it needs from them. *)

From Stdlib Require Import ZArith Lia Ascii Sorted.
From stdpp Require Import base option list strings gmap numbers.

Local Open Scope string_scope.
Local Open Scope list_scope.
Local Open Scope Z_scope.

(** ** JavaScript values used by the file *)

(** An [Error] object; only [message] is ever read ([err.message]). *)
Record Error := MkError { message : string }.

(** Outcome of synchronous code: a value, or a thrown error. *)
Inductive result (A : Type) : Type :=
| Ok (a : A)
| Throw (e : Error).
Arguments Ok {A} a.
Arguments Throw {A} e.

Definition result_bind {A B} (r : result A) (k : A -> result B) : result B :=
  match r with
  | Ok a => k a
  | Throw e => Throw e
  end.

Declare Scope result_scope.
Delimit Scope result_scope with result.
Notation "'let?' x ':=' r 'in' k" := (result_bind r (fun x => k))
  (at level 10, x pattern, r at level 100, k at level 200) : result_scope.
Local Open Scope result_scope.

(** [a && b] where evaluating an operand may throw: [b] only counts when
    [a] evaluated to [true]. *)
Definition and_then (a b : result bool) : result bool :=
  match a with
  | Ok true => b
  | other => other
  end.
Infix "&&?" := and_then (at level 40, left associativity) : result_scope.

(** [Array.prototype.filter] and [map] with a callback that may throw:
    elements are visited from index 0 on and the first throw aborts. *)
Fixpoint filter_result {A} (p : A -> result bool) (l : list A) : result (list A) :=
  match l with
  | [] => Ok []
  | x :: l' =>
      let? b := p x in
      let? r := filter_result p l' in
      Ok (if b then x :: r else r)
  end.

Fixpoint map_result {A B} (f : A -> result B) (l : list A) : result (list B) :=
  match l with
  | [] => Ok []
  | x :: l' =>
      let? y := f x in
      let? r := map_result f l' in
      Ok (y :: r)
  end.

(** [Array.prototype.sort(cmp)]: the array ordered so that [a] precedes
    [b] when [cmp a b < 0], elements that compare equal keeping their
    relative order (the sort is stable).  For a comparator that is a
    consistent ordering this result is unique; it is computed here by
    insertion from the right. *)
Fixpoint sort_insert {A} (cmp : A -> A -> Z) (x : A) (l : list A) : list A :=
  match l with
  | [] => [x]
  | y :: l' => if cmp x y <=? 0 then x :: y :: l' else y :: sort_insert cmp x l'
  end.

Definition Array_sort {A} (cmp : A -> A -> Z) (l : list A) : list A :=
  foldr (sort_insert cmp) [] l.

(** The property-access failure of V8, [undefined.x]. *)
Definition TypeError_undefined : Error :=
  MkError "Cannot read property of undefined".

(** [Object.values(undefined)]. *)
Definition TypeError_convert : Error :=
  MkError "Cannot convert undefined or null to object".

(** ** Data model (modmeta-db and Vortex types) *)

(** [IReference]: every property is optional. *)
Record IReference := MkReference {
  ref_fileMD5 : option string;
  ref_fileSize : option Z;
  ref_gameId : option string;
  ref_versionMatch : option string;
  ref_logicalFileName : option string;
  ref_fileExpression : option string;
}.

Inductive RuleType :=
| before | after | requires | conflicts | recommends | provides.

Global Instance RuleType_eq_dec : EqDecision RuleType.
Proof. solve_decision. Defined.

Record IRule := MkRule {
  rule_type : RuleType;
  rule_reference : IReference;
}.

(** [IModInfo], the [value] of a lookup result. *)
Record IModInfo := MkModInfo {
  val_gameId : string;
  val_fileMD5 : string;
  val_fileSizeBytes : Z;
  val_logicalFileName : option string;
  val_fileName : string;
  val_fileVersion : string;
  val_rules : option (list IRule);
}.

(** [ILookupResult]; the code tests [details[0].value === undefined], so
    [value] may be missing. *)
Record ILookupResult := MkLookupResult {
  lr_key : string;
  lr_value : option IModInfo;
}.

(** [IDependency].  [dep_addr] is not a property: it is the identity of
    the object, which is what [!==] compares. *)
Record IDependency := MkDependency {
  dep_addr : nat;
  dep_download : option string;
  dep_reference : IReference;
  dep_lookupResults : list ILookupResult;
}.

(** The [modInfo] attached to a download, as far as it is read. *)
Record DownloadModInfo := MkDownloadModInfo {
  mi_version : option string;
  mi_name : option string;
}.

Record IDownload := MkDownload {
  dl_fileMD5 : option string;
  dl_localPath : option string;
  dl_size : Z;
  dl_modInfo : option DownloadModInfo;
  dl_fileTime : Z;
}.

Record IModLookupInfo := MkModLookupInfo {
  li_fileMD5 : option string;
  li_fileName : option string;
  li_fileSizeBytes : Z;
  li_version : option string;
  li_logicalFileName : option string;
}.

Global Instance IReference_eq_dec : EqDecision IReference.
Proof. solve_decision. Defined.

(** Modelled from the spec: [truthy] of [util/util] is not in the sources
    at hand; [isFuzzy] "returns false for an absent/empty string", so on
    an optional string it holds exactly for a non-empty one. *)
Definition truthy (val : option string) : bool :=
  match val with
  | Some (String _ _) => true
  | _ => false
  end.

(** Modelled from the spec: [getSafe] of [util/storeHelper] is not in the
    sources at hand; it reads the "attached version" and "attached logical
    name" of a download and yields the default, [undefined], when a step
    of the path is missing. *)
Definition getSafe_modInfo_version (download : IDownload) : option string :=
  dl_modInfo download ≫= mi_version.

Definition getSafe_modInfo_name (download : IDownload) : option string :=
  dl_modInfo download ≫= mi_name.

(** [parseInt(c, 16)] of a one-character string: the value of the
    hexadecimal digit, [None] standing for [NaN]. *)
Definition parseInt16 (c : Ascii.ascii) : option N :=
  let n := N_of_ascii c in
  if ((48 <=? n) && (n <=? 57))%N then Some (n - 48)%N
  else if ((97 <=? n) && (n <=? 102))%N then Some (n - 87)%N
  else if ((65 <=? n) && (n <=? 70))%N then Some (n - 55)%N
  else None.

Definition isNaN (x : option N) : bool :=
  match x with
  | None => true
  | Some _ => false
  end.

(** [_.omit(reference, ['fileMD5'])]: a copy without that property. *)
Definition omit_fileMD5 (reference : IReference) : IReference :=
  {| ref_fileMD5 := None;
     ref_fileSize := ref_fileSize reference;
     ref_gameId := ref_gameId reference;
     ref_versionMatch := ref_versionMatch reference;
     ref_logicalFileName := ref_logicalFileName reference;
     ref_fileExpression := ref_fileExpression reference |}.

(** [x !== undefined]. *)
Definition defined {A} (x : option A) : bool :=
  match x with
  | Some _ => true
  | None => false
  end.

(** ** Promises

    A promise is run against the world it acts on.  Its run ends with the
    promise fulfilled or rejected, or does not end at all ([None]): the
    promise never settles. *)

Inductive Event :=
| EvLookup (reference : IReference)
| EvLog (level text detail : string).

Record World := MkWorld {
  next_addr : nat;
  events : list Event;
}.

(** The reason of a rejection is an [Error] object ([err.message] is read
    from it). *)
Inductive settled (A : Type) : Type :=
| Fulfilled (a : A)
| Rejected (e : Error).
Arguments Fulfilled {A} a.
Arguments Rejected {A} e.

Definition Promise (A : Type) : Type := World -> option (settled A * World).

Definition resolve {A} (a : A) : Promise A := fun w => Some (Fulfilled a, w).
Definition reject {A} (e : Error) : Promise A := fun w => Some (Rejected e, w).
Definition never {A} : Promise A := fun _ => None.

(** [p.then(k)]. *)
Definition then_ {A B} (p : Promise A) (k : A -> Promise B) : Promise B :=
  fun w =>
    match p w with
    | None => None
    | Some (Fulfilled a, w') => k a w'
    | Some (Rejected e, w') => Some (Rejected e, w')
    end.

(** [p.catch(h)]. *)
Definition catch_ {A} (p : Promise A) (h : Error -> Promise A) : Promise A :=
  fun w =>
    match p w with
    | None => None
    | Some (Fulfilled a, w') => Some (Fulfilled a, w')
    | Some (Rejected e, w') => h e w'
    end.

(** Synchronous code run inside a handler: a throw rejects the promise. *)
Definition of_result {A} (r : result A) : Promise A :=
  match r with
  | Ok a => resolve a
  | Throw e => reject e
  end.

Definition emit (ev : Event) : Promise unit :=
  fun w => Some (Fulfilled tt,
                 {| next_addr := next_addr w; events := events w ++ [ev] |}).

(** The identity of a newly created object. *)
Definition new_addr : Promise nat :=
  fun w => Some (Fulfilled (next_addr w),
                 {| next_addr := S (next_addr w); events := events w |}).

(** [log(level, text, detail)]. *)
Definition log (level text detail : string) : Promise unit :=
  emit (EvLog level text detail).

(** bluebird's [Promise.reduce(array, reducer, initial)]: the reducer is
    applied to one element after the other, each call waiting for the
    promise of the previous one; a rejection ends the reduction. *)
Fixpoint Promise_reduce {A B} (l : list A) (reducer : B -> A -> Promise B)
    (total : B) : Promise B :=
  match l with
  | [] => resolve total
  | x :: l' => then_ (reducer total x) (fun total' => Promise_reduce l' reducer total')
  end.

(** ** What the file imports

    [semver.validRange] (the canonical form of a range, [None] for
    [null]), [semver.satisfies(version, range)], [semver.coerce] (whose
    argument may be [undefined]) and [semver.compare] on parsed versions,
    [minimatch(path, pattern)], and [testModReference], which accepts an
    installed mod or a lookup shape. *)

Inductive Matchable (IMod : Type) : Type :=
| OfMod (m : IMod)
| OfLookup (l : IModLookupInfo).
Arguments OfMod {IMod} m.
Arguments OfLookup {IMod} l.

Class Imports := {
  validRange : string -> option string;
  satisfies : string -> string -> bool;
  SemVer : Type;
  coerce : option string -> option SemVer;
  compare : SemVer -> SemVer -> Z;
  minimatch : string -> string -> bool;
  IMod : Type;
  testModReference : Matchable IMod -> IReference -> bool;
}.

Section Dependencies.

Context `{Imports}.

(** [IState] as far as it is read: the value of the selector
    [activeGameId(state)] (as a property key), [state.persistent.mods]
    (per game, the mods in enumeration order) and
    [state.persistent.downloads.files] (in enumeration order). *)
Record IState := MkState {
  st_activeGameId : string;
  st_mods : gmap string (list (string * IMod));
  st_downloads : list (string * IDownload);
}.

(** Modelled from the spec: the selector [activeGameId] of
    [util/selectors] is not in the sources at hand; it names "the active
    game" whose installed-content collection is searched. *)
Definition activeGameId (state : IState) : string := st_activeGameId state.

(** *** isFuzzyVersion (lines 18-26) *)

Definition isFuzzyVersion (versionMatch : option string) : bool :=
  if negb (truthy versionMatch) then false
  else
    match versionMatch with
    | Some (String c0 _ as s) =>
        isNaN (parseInt16 c0) || negb (bool_decide (validRange s = Some s))
    | _ => false
    end.

(** *** findModByRef (lines 28-42) *)

(** The rebinding of [reference] at lines 32-38. *)
Definition findModByRef_reference (reference : IReference) : IReference :=
  if defined (ref_versionMatch reference)
     && isFuzzyVersion (ref_versionMatch reference)
     && defined (ref_fileMD5 reference)
     && (defined (ref_logicalFileName reference)
         || defined (ref_fileExpression reference))
  then omit_fileMD5 reference
  else reference.

Definition findModByRef (reference : IReference) (state : IState)
  : result (option IMod) :=
  let gameMode := activeGameId state in
  match st_mods state !! gameMode with
  | None => Throw TypeError_convert
  | Some mods =>
      let reference := findModByRef_reference reference in
      Ok (List.find (fun m => testModReference (OfMod m) reference)
                    (map snd mods))
  end.

(** *** newerSort (lines 44-53) *)

Definition newerSort (lhs rhs : IDownload) : Z :=
  let lVersion := coerce (getSafe_modInfo_version lhs) in
  let rVersion := coerce (getSafe_modInfo_version rhs) in
  match lVersion, rVersion with
  | Some lv, Some rv => compare rv lv
  | _, _ => dl_fileTime rhs - dl_fileTime lhs
  end.

(** *** findDownloadByRef (lines 55-80) *)

(** The rebinding of [reference] at lines 58-63. *)
Definition findDownloadByRef_reference (reference : IReference) : IReference :=
  if isFuzzyVersion (ref_versionMatch reference)
     && defined (ref_fileMD5 reference)
     && (defined (ref_logicalFileName reference)
         || defined (ref_fileExpression reference))
  then omit_fileMD5 reference
  else reference.

Definition download_lookup (download : IDownload) : IModLookupInfo :=
  {| li_fileMD5 := dl_fileMD5 download;
     li_fileName := dl_localPath download;
     li_fileSizeBytes := dl_size download;
     li_version := getSafe_modInfo_version download;
     li_logicalFileName := getSafe_modInfo_name download |}.

(** The entries of [downloads] stand for its keys: [downloads[dlId]] is
    the second component of the entry whose key is [dlId]. *)
Definition download_matches (reference : IReference)
    (entry : string * IDownload) : bool :=
  testModReference (OfLookup (download_lookup (snd entry))) reference.

Definition findDownloadByRef_existing (reference : IReference) (state : IState)
  : list (string * IDownload) :=
  let downloads := st_downloads state in
  let reference := findDownloadByRef_reference reference in
  Array_sort (fun lhs rhs => newerSort (snd lhs) (snd rhs))
             (List.filter (download_matches reference) downloads).

Definition findDownloadByRef (reference : IReference) (state : IState)
  : option string :=
  fst <$> head (findDownloadByRef_existing reference state).

(** *** lookupFulfills (lines 82-93) *)

(** One conjunct [(f === undefined) || test(f, value)]: reading a
    property of [value] throws when [value] is [undefined]. *)
Definition conjunct {A} (f : option A) (value : option IModInfo)
    (test : A -> IModInfo -> bool) : result bool :=
  match f with
  | None => Ok true
  | Some x =>
      match value with
      | None => Throw TypeError_undefined
      | Some v => Ok (test x v)
      end
  end.

Definition lookupFulfills (lookup : option ILookupResult)
    (reference : IReference) : result bool :=
  match lookup with
  | None => Throw TypeError_undefined
  | Some lookup =>
      let value := lr_value lookup in
      conjunct (ref_gameId reference) value
        (fun gameId v => bool_decide (gameId = val_gameId v))
      &&? conjunct (ref_fileMD5 reference) value
        (fun fileMD5 v => bool_decide (fileMD5 = val_fileMD5 v))
      &&? conjunct (ref_fileSize reference) value
        (fun fileSize v => bool_decide (fileSize = val_fileSizeBytes v))
      &&? conjunct (ref_logicalFileName reference) value
        (fun logicalFileName v =>
           bool_decide (Some logicalFileName = val_logicalFileName v))
      &&? conjunct (ref_fileExpression reference) value
        (fun fileExpression v => minimatch (val_fileName v) fileExpression)
      &&? conjunct (ref_versionMatch reference) value
        (fun versionMatch v => satisfies (val_fileVersion v) versionMatch)
  end.

(** *** removeDuplicates (lines 95-126) *)

Record Entry := MkEntry {
  dep : IDependency;
  collateral : list nat;
}.

(** [inner.item !== dep && lookupFulfills(dep.lookupResults[0], ...)]. *)
Definition is_collateral (d : IDependency) (inner : IDependency * nat)
  : result bool :=
  if bool_decide (dep_addr (fst inner) ≠ dep_addr d)
  then lookupFulfills (head (dep_lookupResults d)) (dep_reference (fst inner))
  else Ok false.

Definition collateral_of (input : list IDependency) (d : IDependency)
  : result (list nat) :=
  let? kept := filter_result (is_collateral d)
                 (imap (fun idx item => (item, idx)) input) in
  Ok (map snd kept).

Definition by_collateral (lhs rhs : Entry) : Z :=
  Z.of_nat (length (collateral rhs)) - Z.of_nat (length (collateral lhs)).

Definition removeDuplicates_temp (input : list IDependency)
  : result (list Entry) :=
  let? temp := map_result
                 (fun d => let? c := collateral_of input d in
                           Ok {| dep := d; collateral := c |})
                 input in
  Ok (Array_sort by_collateral temp).

(** One round of the [for] loop; [None] is [null]. *)
Definition strike (temp : list (option Entry)) (i : nat)
  : list (option Entry) :=
  match temp !! i with
  | Some (Some e) => foldl (fun t idx => <[idx := None]> t) temp (collateral e)
  | _ => temp
  end.

Definition removeDuplicates (input : list IDependency)
  : result (list IDependency) :=
  let? temp := removeDuplicates_temp input in
  let temp := foldl strike (map Some temp) (seq 0 (length temp)) in
  Ok (map dep (omap id temp)).

(** *** gatherDependencies (lines 128-170) *)

(** [IExtensionApi] as far as it is used: [api.store.getState()] and
    [api.lookupModReference], whose promise is fulfilled with the
    candidates or rejected. *)
Record IExtensionApi := MkApi {
  store_getState : IState;
  lookupModReference_reply : IReference -> settled (list ILookupResult);
}.

Definition lookupModReference (api : IExtensionApi) (reference : IReference)
  : Promise (list ILookupResult) :=
  then_ (emit (EvLookup reference))
        (fun _ w => Some (lookupModReference_reply api reference, w)).

(** ['reference not found: ' + rule.reference]: an object concatenated
    to a string reads [[object Object]]. *)
Definition reference_not_found : Error :=
  MkError "reference not found: [object Object]".

Definition requirements_of (rules : option (list IRule)) : list IRule :=
  match rules with
  | None => []
  | Some rules =>
      List.filter (fun rule => bool_decide (rule_type rule = requires)) rules
  end.

(** The reducer of lines 137-168; [recurse] is the recursive call. *)
Definition gather_step
    (recurse : option (list IRule) -> Promise (list IDependency))
    (api : IExtensionApi) (state : IState)
    (total : list IDependency) (rule : IRule) : Promise (list IDependency) :=
  then_ (of_result (findModByRef (rule_reference rule) state)) (fun found =>
    if defined found then resolve total
    else
      catch_
        (then_
           (then_ (lookupModReference api (rule_reference rule))
              (fun details =>
                 match details with
                 | [] => reject reference_not_found
                 | d0 :: _ =>
                     match lr_value d0 with
                     | None => reject reference_not_found
                     | Some v =>
                         then_ (recurse (val_rules v))
                               (fun dependencies => resolve (details, dependencies))
                     end
                 end))
           (fun '(lookupDetails, dependencies) =>
              then_ new_addr (fun addr =>
                resolve (total ++ dependencies ++
                  [ {| dep_addr := addr;
                       dep_download := findDownloadByRef (rule_reference rule) state;
                       dep_reference := rule_reference rule;
                       dep_lookupResults := lookupDetails |} ]))))
        (fun err =>
           then_ (log "error" "failed to look up" (message err))
                 (fun _ => resolve total))).

(** [fuel] bounds the nesting of the recursive calls; a call that needs
    more than [fuel] levels has not settled. *)
Fixpoint gatherDependencies (fuel : nat) (rules : option (list IRule))
    (api : IExtensionApi) : Promise (list IDependency) :=
  match fuel with
  | O => never
  | S fuel' =>
      let state := store_getState api in
      let requirements := requirements_of rules in
      then_ (Promise_reduce requirements
               (gather_step (fun rules' => gatherDependencies fuel' rules' api)
                            api state)
               [])
            (fun input => of_result (removeDuplicates input))
  end.

End Dependencies.


(** ** The specification's words *)

Section Specification.

Context `{Imports}.

(** §4.1 (a): "the first character is not a hexadecimal digit". *)
Definition hex_digits : list Ascii.ascii :=
  String.list_ascii_of_string "0123456789abcdefABCDEF".

Definition is_hex_digit (c : Ascii.ascii) : bool :=
  bool_decide (c ∈ hex_digits).

(** §4.2, [relax]: "If versionMatch is fuzzy AND fileMD5 is present AND
    (logicalFileName present OR fileExpression present), produce a copy
    of the reference with fileMD5 removed; otherwise return the reference
    unchanged." *)
Definition relaxes (reference : IReference) : Prop :=
  isFuzzyVersion (ref_versionMatch reference) = true
  /\ ref_fileMD5 reference <> None
  /\ (ref_logicalFileName reference <> None
      \/ ref_fileExpression reference <> None).

Global Instance relaxes_dec reference : Decision (relaxes reference).
Proof. unfold relaxes. apply _. Defined.

Definition relax (reference : IReference) : IReference :=
  if decide (relaxes reference) then omit_fileMD5 reference else reference.

(** §4.5 in the specification's words: every reference field that is
    present matches the corresponding field of the value. *)
Definition fulfils_value (v : IModInfo) (reference : IReference) : Prop :=
  (forall x, ref_gameId reference = Some x -> x = val_gameId v)
  /\ (forall x, ref_fileMD5 reference = Some x -> x = val_fileMD5 v)
  /\ (forall x, ref_fileSize reference = Some x -> x = val_fileSizeBytes v)
  /\ (forall x, ref_logicalFileName reference = Some x ->
                Some x = val_logicalFileName v)
  /\ (forall x, ref_fileExpression reference = Some x ->
                minimatch (val_fileName v) x = true)
  /\ (forall x, ref_versionMatch reference = Some x ->
                satisfies (val_fileVersion v) x = true).

End Specification.

(** A reference with no property set. *)
Definition empty_reference : IReference :=
  MkReference None None None None None None.

(** ** A stand-in for the imported packages

    Small executable versions of the imported functions, used to run the
    code on concrete inputs.  They agree with the packages on the inputs
    of the examples below: versions are triples, compared component by
    component; [coerce] reads the first run of digits and up to two
    dotted components after it; a range is an exact version or [>=]
    followed by one; a glob is a literal name or [*]. *)

Module Sample.

Definition is_digit (c : Ascii.ascii) : bool :=
  ((48 <=? N_of_ascii c) && (N_of_ascii c <=? 57))%N.

Fixpoint read_digits (s : string) : list N * string :=
  match s with
  | String c s' =>
      if is_digit c
      then let '(ds, rest) := read_digits s' in ((N_of_ascii c - 48)%N :: ds, rest)
      else ([], s)
  | EmptyString => ([], s)
  end.

Definition number_of (ds : list N) : N :=
  foldl (fun acc d => (10 * acc + d)%N) 0%N ds.

Fixpoint skip_to_digit (s : string) : string :=
  match s with
  | String c s' => if is_digit c then s else skip_to_digit s'
  | EmptyString => s
  end.

Definition Version : Type := N * N * N.

(** An optional [.digits] component. *)
Definition read_component (s : string) : option (list N) * string :=
  match s with
  | String "." s' =>
      match read_digits s' with
      | ([], _) => (None, s)
      | (ds, rest) => (Some ds, rest)
      end
  | _ => (None, s)
  end.

Definition coerce_version (version : option string) : option Version :=
  match version with
  | None => None
  | Some s =>
      match read_digits (skip_to_digit s) with
      | ([], _) => None
      | (major, rest) =>
          let '(minor, rest) := read_component rest in
          let '(patch, _) := read_component rest in
          Some (number_of major,
                number_of (default [] minor),
                number_of (default [] patch))
      end
  end.

Definition compare_version (a b : Version) : Z :=
  let '(a1, a2, a3) := a in
  let '(b1, b2, b3) := b in
  match (a1 ?= b1)%N, (a2 ?= b2)%N, (a3 ?= b3)%N with
  | Lt, _, _ => -1
  | Gt, _, _ => 1
  | Eq, Lt, _ => -1
  | Eq, Gt, _ => 1
  | Eq, Eq, Lt => -1
  | Eq, Eq, Gt => 1
  | Eq, Eq, Eq => 0
  end.

Definition plain (ds : list N) : bool :=
  match ds with
  | [] => false
  | [_] => true
  | d :: _ => negb (d =? 0)%N
  end.

(** A full version [x.y.z] without leading zeros, and nothing else. *)
Definition exact_version (s : string) : option Version :=
  match read_digits s with
  | (major, String "." rest) =>
      match read_digits rest with
      | (minor, String "." rest) =>
          match read_digits rest with
          | (patch, EmptyString) =>
              if plain major && plain minor && plain patch
              then Some (number_of major, number_of minor, number_of patch)
              else None
          | _ => None
          end
      | _ => None
      end
  | _ => None
  end.

Definition valid_range (range : string) : option string :=
  match range with
  | String ">" (String "=" v) =>
      if exact_version v is Some _ then Some range else None
  | _ => if exact_version range is Some _ then Some range else None
  end.

Definition satisfies_range (version range : string) : bool :=
  match exact_version version with
  | None => false
  | Some v =>
      match range with
      | String ">" (String "=" r) =>
          if exact_version r is Some r' then 0 <=? compare_version v r' else false
      | _ =>
          if exact_version range is Some r' then compare_version v r' =? 0 else false
      end
  end.

Definition glob_matches (path pattern : string) : bool :=
  bool_decide (pattern = "*") || bool_decide (path = pattern).

Definition holds {A} (f : option A) (test : A -> bool) : bool :=
  match f with
  | None => true
  | Some x => test x
  end.

(** An installed mod is described by the same attributes as a lookup. *)
Definition test_reference (m : Matchable IModLookupInfo)
    (reference : IReference) : bool :=
  let info := match m with OfMod i => i | OfLookup i => i end in
  holds (ref_fileMD5 reference) (fun x => bool_decide (li_fileMD5 info = Some x))
  && holds (ref_logicalFileName reference)
       (fun x => bool_decide (li_logicalFileName info = Some x))
  && holds (ref_fileExpression reference)
       (fun x => if li_fileName info is Some f then glob_matches f x else false)
  && holds (ref_versionMatch reference)
       (fun x => if li_version info is Some v
                 then satisfies_range v x || bool_decide (v = x)
                 else false).

Definition imports : Imports :=
  {| validRange := valid_range;
     satisfies := satisfies_range;
     SemVer := Version;
     coerce := coerce_version;
     compare := compare_version;
     minimatch := glob_matches;
     IMod := IModLookupInfo;
     testModReference := test_reference |}.

End Sample.

(** ** Concrete inputs

    Three pending dependencies of one game.  [dep_core] was required by
    logical name and its candidate is the file with hash [m1];
    [dep_core_hash] was required by that hash, its candidate carrying no
    logical name; [dep_other] is an unrelated file. *)

Module Scenario.

Definition value_core : IModInfo :=
  MkModInfo "skyrim" "m1" 100 (Some "Core Lib") "core.zip" "1.2.0" None.

Definition value_core_hash : IModInfo :=
  MkModInfo "skyrim" "m1" 100 None "core.zip" "1.2.0" None.

Definition value_other : IModInfo :=
  MkModInfo "skyrim" "m2" 50 None "other.zip" "1.0.0" None.

Definition ref_core : IReference :=
  MkReference None None None None (Some "Core Lib") None.

Definition ref_core_hash : IReference :=
  MkReference (Some "m1") None None None None None.

Definition ref_other : IReference :=
  MkReference (Some "m2") None None None None None.

Definition dep_other : IDependency :=
  MkDependency 0 None ref_other [MkLookupResult "other" (Some value_other)].

Definition dep_core_hash : IDependency :=
  MkDependency 1 None ref_core_hash
    [MkLookupResult "core" (Some value_core_hash)].

Definition dep_core : IDependency :=
  MkDependency 2 None ref_core [MkLookupResult "core" (Some value_core)].

End Scenario.

(** ** Invariants of the running list *)

(** The first lookup candidate of a dependency exists and has a value:
    what [gatherDependencies] checks before it creates an entry. *)
Definition has_candidate (d : IDependency) : Prop :=
  exists d0 rest v, dep_lookupResults d = d0 :: rest /\ lr_value d0 = Some v.

(** [temp'] is [temp] with some entries overwritten by [null]. *)
Definition struck_from {A} (temp temp' : list (option A)) : Prop :=
  Forall2 (fun a b => b = None \/ b = a) temp temp'.

(** §3, the invariant of the Deduplicator in the specification's words:
    "no entry whose resolution is already implied by another surviving
    entry".  [redundant output] says that it is broken: two distinct
    entries of [output], the first one's primary candidate fulfilling the
    reference of the second. *)
Definition redundant `{Imports} (output : list IDependency) : Prop :=
  exists d e,
    d ∈ output /\ e ∈ output /\ dep_addr d <> dep_addr e
    /\ lookupFulfills (head (dep_lookupResults d)) (dep_reference e) = Ok true.

(** The three requirements of [Scenario] as rules, with the remote lookup
    that answers them, no mod installed and nothing downloaded. *)
Module Gathering.

Import Scenario.

Definition rules : list IRule :=
  [MkRule requires ref_other; MkRule requires ref_core_hash;
   MkRule requires ref_core].

Definition reply (reference : IReference) : settled (list ILookupResult) :=
  if decide (reference = ref_other)
  then Fulfilled [MkLookupResult "other" (Some value_other)]
  else if decide (reference = ref_core_hash)
  then Fulfilled [MkLookupResult "core" (Some value_core_hash)]
  else if decide (reference = ref_core)
  then Fulfilled [MkLookupResult "core" (Some value_core)]
  else Rejected (MkError "no such file").

Definition state : @IState Sample.imports :=
  @MkState Sample.imports "skyrim" {[ "skyrim" := [] ]} [].

Definition api : @IExtensionApi Sample.imports :=
  @MkApi Sample.imports state reply.

Definition world : World := MkWorld 0 [].

End Gathering.

(** Three dependencies where one candidate covers the two others:
    [dep_a] was required by hash, [dep_b] by logical name (its candidate an
    older file), [dep_c] by file name. *)
Module Cover.

Definition value_a : IModInfo :=
  MkModInfo "skyrim" "m1" 100 (Some "Core Lib") "core.zip" "1.2.0" None.

Definition value_b : IModInfo :=
  MkModInfo "skyrim" "m0" 90 (Some "Core Lib") "core-old.zip" "1.0.0" None.

Definition value_c : IModInfo :=
  MkModInfo "skyrim" "m9" 100 None "core.zip" "1.2.0" None.

Definition dep_a : IDependency :=
  MkDependency 10 None (MkReference (Some "m1") None None None None None)
    [MkLookupResult "a" (Some value_a)].

Definition dep_b : IDependency :=
  MkDependency 11 None (MkReference None None None None (Some "Core Lib") None)
    [MkLookupResult "b" (Some value_b)].

Definition dep_c : IDependency :=
  MkDependency 12 None (MkReference None None None None None (Some "core.zip"))
    [MkLookupResult "c" (Some value_c)].

End Cover.

(** ** The runs of the gatherer *)

Section Runs.

Context `{Imports}.

Definition add_event (w : World) (ev : Event) : World :=
  {| next_addr := next_addr w; events := events w ++ [ev] |}.

Definition failed_to_look_up (err : Error) : Event :=
  EvLog "error" "failed to look up" (message err).

(** What one call of the reducer can do, case by case. *)
Inductive step_outcome
    (recurse : option (list IRule) -> Promise (list IDependency))
    (api : IExtensionApi) (state : IState)
    (total : list IDependency) (rule : IRule) (w : World)
  : settled (list IDependency) -> World -> Prop :=
| step_throws e :
    findModByRef (rule_reference rule) state = Throw e ->
    step_outcome recurse api state total rule w (Rejected e) w
| step_installed m :
    findModByRef (rule_reference rule) state = Ok (Some m) ->
    step_outcome recurse api state total rule w (Fulfilled total) w
| step_lookup_rejected e :
    findModByRef (rule_reference rule) state = Ok None ->
    lookupModReference_reply api (rule_reference rule) = Rejected e ->
    step_outcome recurse api state total rule w (Fulfilled total)
      (add_event (add_event w (EvLookup (rule_reference rule)))
                 (failed_to_look_up e))
| step_not_found details :
    findModByRef (rule_reference rule) state = Ok None ->
    lookupModReference_reply api (rule_reference rule) = Fulfilled details ->
    head details ≫= lr_value = None ->
    step_outcome recurse api state total rule w (Fulfilled total)
      (add_event (add_event w (EvLookup (rule_reference rule)))
                 (failed_to_look_up reference_not_found))
| step_nested_rejected details v e w2 :
    findModByRef (rule_reference rule) state = Ok None ->
    lookupModReference_reply api (rule_reference rule) = Fulfilled details ->
    head details ≫= lr_value = Some v ->
    recurse (val_rules v) (add_event w (EvLookup (rule_reference rule)))
      = Some (Rejected e, w2) ->
    step_outcome recurse api state total rule w (Fulfilled total)
      (add_event w2 (failed_to_look_up e))
| step_resolved details v dependencies w2 :
    findModByRef (rule_reference rule) state = Ok None ->
    lookupModReference_reply api (rule_reference rule) = Fulfilled details ->
    head details ≫= lr_value = Some v ->
    recurse (val_rules v) (add_event w (EvLookup (rule_reference rule)))
      = Some (Fulfilled dependencies, w2) ->
    step_outcome recurse api state total rule w
      (Fulfilled
         (total ++ dependencies ++
            [ {| dep_addr := next_addr w2;
                 dep_download := findDownloadByRef (rule_reference rule) state;
                 dep_reference := rule_reference rule;
                 dep_lookupResults := details |} ]))
      {| next_addr := S (next_addr w2); events := events w2 |}.

(** The error of a lookup that gives no usable candidate: the rejection
    of the lookup itself, or "reference not found" for an empty reply
    or a first candidate without value. *)
Definition lookup_failure (api : IExtensionApi) (reference : IReference)
  : option Error :=
  match lookupModReference_reply api reference with
  | Rejected e => Some e
  | Fulfilled details =>
      match head details ≫= lr_value with
      | None => Some reference_not_found
      | Some _ => None
      end
  end.

(** The nesting below [rules] is at most [n] calls deep: a requirement
    that no installed mod matches leads to the rules of the first
    candidate of its lookup, and so on, fewer than [n] times. *)
Inductive depth_bounded (api : IExtensionApi)
  : nat -> option (list IRule) -> Prop :=
| depth_bounded_S n rules :
    (forall rule details v,
        rule ∈ requirements_of rules ->
        findModByRef (rule_reference rule) (store_getState api) = Ok None ->
        lookupModReference_reply api (rule_reference rule) = Fulfilled details ->
        head details ≫= lr_value = Some v ->
        depth_bounded api n (val_rules v)) ->
    depth_bounded api (S n) rules.

(** The requirements the gatherer can come across, starting from
    [rules]. *)
Inductive reachable (api : IExtensionApi) (rules : option (list IRule))
  : IRule -> Prop :=
| reachable_top rule :
    rule ∈ requirements_of rules -> reachable api rules rule
| reachable_nested parent details v rule :
    reachable api rules parent ->
    lookupModReference_reply api (rule_reference parent) = Fulfilled details ->
    head details ≫= lr_value = Some v ->
    rule ∈ requirements_of (val_rules v) ->
    reachable api rules rule.

(** [d] is the entry made for [rule]: the rule's own reference, the
    download found for it and the reply of the lookup, no installed mod
    having matched. *)
Definition created_for (api : IExtensionApi) (rule : IRule) (d : IDependency)
  : Prop :=
  dep_reference d = rule_reference rule
  /\ dep_download d = findDownloadByRef (rule_reference rule) (store_getState api)
  /\ lookupModReference_reply api (rule_reference rule)
     = Fulfilled (dep_lookupResults d)
  /\ findModByRef (rule_reference rule) (store_getState api) = Ok None.

(** Every lookup made between [w] and [w'] was for a reference that no
    installed mod matches. *)
Definition lookups_missed (state : IState) (w w' : World) : Prop :=
  forall reference,
    EvLookup reference ∈ events w' ->
    EvLookup reference ∈ events w
    \/ findModByRef reference state = Ok None.

(** What holds of a settled call of [gatherDependencies]: it is
    fulfilled, every entry has a primary candidate with a value and was
    made for a requirement reachable from [rules], and lookups were only
    made for references that no installed mod matches. *)
Definition gathered (api : IExtensionApi) (rules : option (list IRule))
    (w : World) (res : settled (list IDependency)) (w' : World) : Prop :=
  exists output,
    res = Fulfilled output
    /\ Forall has_candidate output
    /\ Forall (fun d => exists rule,
                 reachable api rules rule /\ created_for api rule d) output
    /\ lookups_missed (store_getState api) w w'.

End Runs.

(** A candidate that requires itself: the lookup of [rule] answers with a
    file whose own rules are [rule] again. *)
Module Cycle.

Definition reference : IReference :=
  MkReference None None None None (Some "Core Lib") None.

Definition rule : IRule := MkRule requires reference.

Definition value : IModInfo :=
  MkModInfo "skyrim" "m1" 100 (Some "Core Lib") "core.zip" "1.2.0"
    (Some [rule]).

Definition api : @IExtensionApi Sample.imports :=
  @MkApi Sample.imports
    (@MkState Sample.imports "skyrim" {[ "skyrim" := [] ]} [])
    (fun _ => Fulfilled [MkLookupResult "core" (Some value)]).

End Cycle.

(** A requirement with a hash, a logical name and a free-form version
    label, and a download of that name whose hash is another one. *)
Module Relaxed.

Definition reference : IReference :=
  MkReference (Some "abc") None None (Some "v1.2") (Some "Core Lib") None.

Definition rule : IRule := MkRule requires reference.

Definition value : IModInfo :=
  MkModInfo "skyrim" "abc" 100 (Some "Core Lib") "core.zip" "1.2.0" None.

Definition download : IDownload :=
  MkDownload (Some "zzz") (Some "core.zip") 100
    (Some (MkDownloadModInfo (Some "v1.2") (Some "Core Lib"))) 1.

Definition api : @IExtensionApi Sample.imports :=
  @MkApi Sample.imports
    (@MkState Sample.imports "skyrim" {[ "skyrim" := [] ]} [("dl1", download)])
    (fun _ => Fulfilled [MkLookupResult "core" (Some value)]).

Definition created : IDependency :=
  MkDependency 0 (Some "dl1") reference [MkLookupResult "core" (Some value)].

End Relaxed.

(** A game for which no mod was ever installed: [state.persistent.mods]
    has no entry for it. *)
Module NoMods.

Definition api : @IExtensionApi Sample.imports :=
  @MkApi Sample.imports (@MkState Sample.imports "skyrim" ∅ [])
    (fun _ => Fulfilled []).

End NoMods.

(** A remote lookup that rejects every request. *)
Module NoLookup.

Definition api : @IExtensionApi Sample.imports :=
  @MkApi Sample.imports
    (@MkState Sample.imports "skyrim" {[ "skyrim" := [] ]} [])
    (fun _ => Rejected (MkError "connect ECONNREFUSED")).

End NoLookup.

(** The required file is installed already. *)
Module Installed.

Definition core : IModLookupInfo :=
  MkModLookupInfo (Some "m1") (Some "core.zip") 100 (Some "1.2.0")
    (Some "Core Lib").

Definition rule : IRule :=
  MkRule requires
    (MkReference None None None (Some ">=1.0.0") (Some "Core Lib") None).

Definition api : @IExtensionApi Sample.imports :=
  @MkApi Sample.imports
    (@MkState Sample.imports "skyrim" {[ "skyrim" := [("core", core)] ]} [])
    (fun _ => Rejected (MkError "the lookup must not be called")).

End Installed.

(** ** The newest download, in the specification's words *)

Section Newest.

Context `{Imports}.

(** §4.4: "if both sides expose a version string coercible to a semantic
    version, compare those [...]; otherwise (or if either side fails to
    coerce) compare completion timestamps": [x] wins over [y]. *)
Definition newer (x y : IDownload) : bool :=
  match coerce (getSafe_modInfo_version x), coerce (getSafe_modInfo_version y) with
  | Some vx, Some vy => 0 <? compare vx vy
  | _, _ => dl_fileTime y <? dl_fileTime x
  end.

(** "all known downloads [...] whose derived lookup-shape [...] satisfies
    the match predicate against the relaxed reference". *)
Definition matching_downloads (reference : IReference) (state : IState)
  : list (string * IDownload) :=
  List.filter (download_matches (relax reference)) (st_downloads state).

(** C6 as it is stated: the resolver returns a matching download over
    which no matching download wins, and none when nothing matches. *)
Definition newest_returned (reference : IReference) (state : IState) : Prop :=
  match findDownloadByRef reference state with
  | None => matching_downloads reference state = []
  | Some dlId =>
      exists download,
        (dlId, download) ∈ matching_downloads reference state
        /\ forall entry, entry ∈ matching_downloads reference state ->
                         newer (snd entry) download = false
  end.

(** [semver.compare] is an ordering of the versions. *)
Definition semver_ordered : Prop :=
  (forall a b, compare b a = - compare a b)
  /\ (forall a b c, compare a b <= 0 -> compare b c <= 0 -> compare a c <= 0).

(** Either every download of the list has a coercible version, or none
    has. *)
Definition uniform (l : list (string * IDownload)) : Prop :=
  (forall entry, entry ∈ l ->
                 is_Some (coerce (getSafe_modInfo_version (snd entry))))
  \/ (forall entry, entry ∈ l ->
                    coerce (getSafe_modInfo_version (snd entry)) = None).

End Newest.

(** Downloads of one logical file: two with versions, and one without
    version that was completed between them. *)
Module Mixed.

Definition versioned (version : string) (time : Z) : IDownload :=
  MkDownload (Some "m1") (Some "core.zip") 100
    (Some (MkDownloadModInfo (Some version) (Some "Core Lib"))) time.

Definition unversioned (time : Z) : IDownload :=
  MkDownload (Some "m1") (Some "core.zip") 100
    (Some (MkDownloadModInfo None (Some "Core Lib"))) time.

Definition reference : IReference :=
  MkReference None None None None (Some "Core Lib") None.

Definition downloads : list (string * IDownload) :=
  [("a", versioned "1.0.0" 10); ("b", unversioned 5); ("c", versioned "2.0.0" 1)].

Definition state : @IState Sample.imports :=
  @MkState Sample.imports "skyrim" ∅ downloads.

(** The two versioned downloads alone; the older version was downloaded
    last. *)
Definition two : list (string * IDownload) :=
  [("old", versioned "1.0.0" 20); ("new", versioned "2.0.0" 10)].

Definition state_two : @IState Sample.imports :=
  @MkState Sample.imports "skyrim" ∅ two.

(** The newest version was completed after the unversioned download. *)
Definition dominant : list (string * IDownload) :=
  [("a", versioned "1.0.0" 10); ("b", unversioned 5); ("c", versioned "2.0.0" 7)].

Definition state_dominant : @IState Sample.imports :=
  @MkState Sample.imports "skyrim" ∅ dominant.

End Mixed.

(** §8, end to end: one requirement by logical name and version range,
    nothing installed, nothing downloaded, one candidate without rules. *)
Module EndToEnd.

Definition reference : IReference :=
  MkReference None None None (Some ">=1.0.0") (Some "Core Lib") None.

Definition candidate : ILookupResult :=
  MkLookupResult "core"
    (Some (MkModInfo "skyrim" "m1" 100 (Some "Core Lib") "core.zip" "1.2.0"
             (Some []))).

Definition api : @IExtensionApi Sample.imports :=
  @MkApi Sample.imports
    (@MkState Sample.imports "skyrim" {[ "skyrim" := [] ]} [])
    (fun _ => Fulfilled [candidate]).

End EndToEnd.

(** The number of collaterals of an entry of [input]: what the sort of
    [removeDuplicates] compares. *)
Definition collateral_count `{Imports} (input : list IDependency)
    (d : IDependency) : nat :=
  match collateral_of input d with
  | Ok c => length c
  | Throw _ => 0
  end.

(** ** Counting the events of a run *)

Definition is_lookup (ev : Event) : bool :=
  match ev with
  | EvLookup _ => true
  | EvLog _ _ _ => false
  end.

Definition lookups (evs : list Event) : nat := length (List.filter is_lookup evs).

Definition logs (evs : list Event) : nat :=
  length (List.filter (fun ev => negb (is_lookup ev)) evs).

(** A rule that the gatherer passes over: it is not a requirement, or an
    installed mod matches its reference. *)
Definition passed_over `{Imports} (state : IState) (rule : IRule) : bool :=
  negb (bool_decide (rule_type rule = requires))
  || match findModByRef (rule_reference rule) state with
     | Ok (Some _) => true
     | _ => false
     end.

(** The entries of [total] are distinct objects, created between [w] and
    [w']. *)
Definition fresh_entries (w : World) (total : list IDependency) (w' : World)
  : Prop :=
  (next_addr w <= next_addr w')%nat
  /\ NoDup (map dep_addr total)
  /\ forall d, d ∈ total -> (next_addr w <= dep_addr d < next_addr w')%nat.

(** Between [w] and [w'] events were only added, and there is a lookup of
    its own for every entry of [total] and for every log. *)
Definition events_account (w : World) (total : list IDependency) (w' : World)
  : Prop :=
  exists new,
    events w' = events w ++ new
    /\ (length total + logs new <= lookups new)%nat.

(** What stands behind an event of the trace: a lookup is made for a
    reference that no installed mod matches, and a log entry reports, as
    an error, the failure of the lookup of such a reference. *)
Definition explained `{Imports} (api : IExtensionApi) (ev : Event) : Prop :=
  match ev with
  | EvLookup reference => findModByRef reference (store_getState api) = Ok None
  | EvLog level text detail =>
      level = "error" /\ text = "failed to look up"
      /\ exists reference err,
           findModByRef reference (store_getState api) = Ok None
           /\ lookup_failure api reference = Some err
           /\ detail = message err
  end.

(** ** References as objects

    Above, a reference is passed by value.  Here the reference objects
    live in a store and a variable that holds a reference holds its
    address, so that what the code does to the objects themselves can be
    stated: [_.omit] makes a new object, the object literal of
    [gatherDependencies] stores the address it was given, and nothing in
    the file assigns to a property of a reference.  [Supplied] objects
    come with a rule (from the caller, or with a lookup result); [Copied]
    objects are made by [_.omit].  The imported functions
    ([testModReference], [api.lookupModReference]) are given the content
    of an object: they are taken not to assign to the objects they are
    handed.  The reference objects of the rules of a lookup result enter
    the store when these rules are handed to the nested call. *)

Inductive Origin := Supplied | Copied.

Record Cell := MkCell {
  cell_origin : Origin;
  cell_value : IReference;
}.

(** The address of an object is its index. *)
Definition Store : Type := list Cell.

(** [IRule] and [IDependency] with the address of the reference. *)
Record IRuleObj := MkRuleObj {
  robj_type : RuleType;
  robj_reference : nat;
}.

Record IDependencyObj := MkDependencyObj {
  dobj_addr : nat;
  dobj_download : option string;
  dobj_reference : nat;
  dobj_lookupResults : list ILookupResult;
}.

(** Synchronous code that works on the store. *)
Definition Obj (A : Type) : Type := Store -> result A * Store.

Definition obj_ret {A} (a : A) : Obj A := fun st => (Ok a, st).

Definition obj_throw {A} (e : Error) : Obj A := fun st => (Throw e, st).

Definition obj_bind {A B} (o : Obj A) (k : A -> Obj B) : Obj B :=
  fun st =>
    match o st with
    | (Ok a, st') => k a st'
    | (Throw e, st') => (Throw e, st')
    end.

Notation "'let!' x ':=' o 'in' k" := (obj_bind o (fun x => k))
  (at level 10, x pattern, o at level 100, k at level 200) : result_scope.

(** Reading the properties of the object at [reference]; an address
    without object stands for [undefined]. *)
Definition read (reference : nat) : Obj IReference :=
  fun st =>
    match st !! reference with
    | Some c => (Ok (cell_value c), st)
    | None => (Throw TypeError_undefined, st)
    end.

Definition allocate (origin : Origin) (r : IReference) : Obj nat :=
  fun st => (Ok (length st), st ++ [MkCell origin r]).

(** [_.omit(reference, ['fileMD5'])] on objects. *)
Definition omit_fileMD5_obj (reference : nat) : Obj nat :=
  let! r := read reference in
  allocate Copied (omit_fileMD5 r).

(** The objects that come with the rules of a lookup result. *)
Fixpoint materialize_list (rules : list IRule) : Obj (list IRuleObj) :=
  match rules with
  | [] => obj_ret []
  | rule :: rest =>
      let! reference := allocate Supplied (rule_reference rule) in
      let! rest' := materialize_list rest in
      obj_ret (MkRuleObj (rule_type rule) reference :: rest')
  end.

Definition materialize (rules : option (list IRule))
  : Obj (option (list IRuleObj)) :=
  match rules with
  | None => obj_ret None
  | Some rules =>
      let! objs := materialize_list rules in
      obj_ret (Some objs)
  end.

(** Promises that act on the store and on the world. *)
Record Machine := MkMachine {
  m_store : Store;
  m_world : World;
}.

Definition OPromise (A : Type) : Type := Machine -> option (settled A * Machine).

Definition oresolve {A} (a : A) : OPromise A := fun m => Some (Fulfilled a, m).
Definition oreject {A} (e : Error) : OPromise A := fun m => Some (Rejected e, m).
Definition onever {A} : OPromise A := fun _ => None.

Definition othen {A B} (p : OPromise A) (k : A -> OPromise B) : OPromise B :=
  fun m =>
    match p m with
    | None => None
    | Some (Fulfilled a, m') => k a m'
    | Some (Rejected e, m') => Some (Rejected e, m')
    end.

Definition ocatch {A} (p : OPromise A) (h : Error -> OPromise A) : OPromise A :=
  fun m =>
    match p m with
    | None => None
    | Some (Fulfilled a, m') => Some (Fulfilled a, m')
    | Some (Rejected e, m') => h e m'
    end.

Definition of_world {A} (p : Promise A) : OPromise A :=
  fun m =>
    match p (m_world m) with
    | None => None
    | Some (r, w') => Some (r, {| m_store := m_store m; m_world := w' |})
    end.

(** Synchronous code in a handler: a throw rejects the promise. *)
Definition of_obj {A} (o : Obj A) : OPromise A :=
  fun m =>
    match o (m_store m) with
    | (Ok a, st') => Some (Fulfilled a, {| m_store := st'; m_world := m_world m |})
    | (Throw e, st') => Some (Rejected e, {| m_store := st'; m_world := m_world m |})
    end.

Fixpoint OPromise_reduce {A B} (l : list A) (reducer : B -> A -> OPromise B)
    (total : B) : OPromise B :=
  match l with
  | [] => oresolve total
  | x :: l' =>
      othen (reducer total x) (fun total' => OPromise_reduce l' reducer total')
  end.

Section Objects.

Context `{Imports}.

(** [findModByRef] (lines 28-42) on objects: the parameter [reference]
    is rebound to the copy; the object it was called with is only read. *)
Definition findModByRef_obj (reference : nat) (state : IState)
  : Obj (option IMod) :=
  let gameMode := activeGameId state in
  let mods := st_mods state !! gameMode in
  let! r := read reference in
  let! reference :=
    (if defined (ref_versionMatch r)
        && isFuzzyVersion (ref_versionMatch r)
        && defined (ref_fileMD5 r)
        && (defined (ref_logicalFileName r) || defined (ref_fileExpression r))
     then omit_fileMD5_obj reference
     else obj_ret reference) in
  match mods with
  | None => obj_throw TypeError_convert
  | Some mods =>
      let! r := read reference in
      obj_ret (List.find (fun m => testModReference (OfMod m) r) (map snd mods))
  end.

(** [findDownloadByRef] (lines 55-80) on objects. *)
Definition findDownloadByRef_obj (reference : nat) (state : IState)
  : Obj (option string) :=
  let downloads := st_downloads state in
  let! r := read reference in
  let! reference :=
    (if isFuzzyVersion (ref_versionMatch r)
        && defined (ref_fileMD5 r)
        && (defined (ref_logicalFileName r) || defined (ref_fileExpression r))
     then omit_fileMD5_obj reference
     else obj_ret reference) in
  let! r := read reference in
  obj_ret
    (fst <$> head
       (Array_sort (fun lhs rhs => newerSort (snd lhs) (snd rhs))
          (List.filter (download_matches r) downloads))).

(** [removeDuplicates] (lines 95-126) on objects; it reads the store. *)
Record EntryObj := MkEntryObj {
  edep : IDependencyObj;
  ecollateral : list nat;
}.

Definition is_collateral_obj (st : Store) (d : IDependencyObj)
    (inner : IDependencyObj * nat) : result bool :=
  if bool_decide (dobj_addr (fst inner) ≠ dobj_addr d)
  then
    match st !! dobj_reference (fst inner) with
    | Some c => lookupFulfills (head (dobj_lookupResults d)) (cell_value c)
    | None => Throw TypeError_undefined
    end
  else Ok false.

Definition collateral_of_obj (st : Store) (input : list IDependencyObj)
    (d : IDependencyObj) : result (list nat) :=
  let? kept := filter_result (is_collateral_obj st d)
                 (imap (fun idx item => (item, idx)) input) in
  Ok (map snd kept).

Definition by_collateral_obj (lhs rhs : EntryObj) : Z :=
  Z.of_nat (length (ecollateral rhs)) - Z.of_nat (length (ecollateral lhs)).

Definition strike_obj (temp : list (option EntryObj)) (i : nat)
  : list (option EntryObj) :=
  match temp !! i with
  | Some (Some e) => foldl (fun t idx => <[idx := None]> t) temp (ecollateral e)
  | _ => temp
  end.

Definition removeDuplicates_obj (st : Store) (input : list IDependencyObj)
  : result (list IDependencyObj) :=
  let? temp := map_result
                 (fun d => let? c := collateral_of_obj st input d in
                           Ok {| edep := d; ecollateral := c |})
                 input in
  let temp := Array_sort by_collateral_obj temp in
  let temp := foldl strike_obj (map Some temp) (seq 0 (length temp)) in
  Ok (map edep (omap id temp)).

(** [gatherDependencies] (lines 128-170) on objects. *)
Definition requirements_obj (rules : option (list IRuleObj)) : list IRuleObj :=
  match rules with
  | None => []
  | Some rules =>
      List.filter (fun rule => bool_decide (robj_type rule = requires)) rules
  end.

Definition lookupModReference_obj (api : IExtensionApi) (reference : nat)
  : OPromise (list ILookupResult) :=
  othen (of_obj (read reference))
        (fun r => of_world (lookupModReference api r)).

Definition gather_step_obj
    (recurse : option (list IRuleObj) -> OPromise (list IDependencyObj))
    (api : IExtensionApi) (state : IState)
    (total : list IDependencyObj) (rule : IRuleObj)
  : OPromise (list IDependencyObj) :=
  othen (of_obj (findModByRef_obj (robj_reference rule) state)) (fun found =>
    if defined found then oresolve total
    else
      ocatch
        (othen
           (othen (lookupModReference_obj api (robj_reference rule))
              (fun details =>
                 match details with
                 | [] => oreject reference_not_found
                 | d0 :: _ =>
                     match lr_value d0 with
                     | None => oreject reference_not_found
                     | Some v =>
                         othen (of_obj (materialize (val_rules v))) (fun rules' =>
                         othen (recurse rules')
                               (fun dependencies =>
                                  oresolve (details, dependencies)))
                     end
                 end))
           (fun '(lookupDetails, dependencies) =>
              othen (of_obj (findDownloadByRef_obj (robj_reference rule) state))
                (fun download =>
              othen (of_world new_addr) (fun addr =>
                oresolve (total ++ dependencies ++
                  [ {| dobj_addr := addr;
                       dobj_download := download;
                       dobj_reference := robj_reference rule;
                       dobj_lookupResults := lookupDetails |} ])))))
        (fun err =>
           othen (of_world (log "error" "failed to look up" (message err)))
                 (fun _ => oresolve total))).

Fixpoint gatherDependencies_obj (fuel : nat) (rules : option (list IRuleObj))
    (api : IExtensionApi) : OPromise (list IDependencyObj) :=
  match fuel with
  | O => onever
  | S fuel' =>
      let state := store_getState api in
      let requirements := requirements_obj rules in
      othen (OPromise_reduce requirements
               (gather_step_obj
                  (fun rules' => gatherDependencies_obj fuel' rules' api)
                  api state)
               [])
            (fun input m =>
               of_obj (fun st => (removeDuplicates_obj st input, st)) m)
  end.

(** What the finders allocate for a reference with content [r]. *)
Definition relaxed_copy (r : IReference) : Store :=
  if decide (relaxes r) then [MkCell Copied (omit_fileMD5 r)] else [].

(** What holds of a dependency [d] returned by a call that was started
    with the rules [rules] in the store [st] and ended in the store [st']:
    it points to the reference object of one of these rules, as it was in
    [st], or to an object that came with a lookup result during the call;
    its download is the one found for that reference and its lookup
    results are the reply to it. *)
Definition carries_reference (api : IExtensionApi)
    (rules : option (list IRuleObj)) (st st' : Store) (d : IDependencyObj)
  : Prop :=
  exists c,
    st' !! dobj_reference d = Some c
    /\ ((exists rule, rule ∈ requirements_obj rules
                      /\ robj_reference rule = dobj_reference d
                      /\ st !! robj_reference rule = Some c)
        \/ (length st <= dobj_reference d /\ cell_origin c = Supplied)%nat)
    /\ dobj_download d = findDownloadByRef (cell_value c) (store_getState api)
    /\ lookupModReference_reply api (cell_value c)
       = Fulfilled (dobj_lookupResults d).

End Objects.

(** The requirement of [Relaxed] as an object at address 0. *)
Module RelaxedObjects.

Definition store : Store := [MkCell Supplied Relaxed.reference].

Definition rule : IRuleObj := MkRuleObj requires 0.

Definition machine : Machine := MkMachine store (MkWorld 0 []).

Definition created : IDependencyObj :=
  MkDependencyObj 0 (Some "dl1") 0 [MkLookupResult "core" (Some Relaxed.value)].

End RelaxedObjects.

(** [extends o]: running [o] leaves every object of the store as it is
    and at most adds objects. *)
Definition extends {A} (o : Obj A) : Prop :=
  forall st r st', o st = (r, st') -> st `prefix_of` st'.

(** The same for a promise, whatever its outcome. *)
Definition oextends {A} (p : OPromise A) : Prop :=
  forall m res m', p m = Some (res, m') -> m_store m `prefix_of` m_store m'.

(** The rules of a call refer to objects of the store. *)
Definition allocated (st : Store) (rules : option (list IRuleObj)) : Prop :=
  forall rule, rule ∈ requirements_obj rules -> is_Some (st !! robj_reference rule).

Section Content.

Context `{Imports}.

(** The content of the object at an address; an address without object
    has no property. *)
Definition content (st : Store) (reference : nat) : IReference :=
  match st !! reference with
  | Some c => cell_value c
  | None => MkReference None None None None None None
  end.

(** A rule, a dependency and an outcome with the content of the reference
    object in place of its address. *)
Definition rule_of (st : Store) (o : IRuleObj) : IRule :=
  MkRule (robj_type o) (content st (robj_reference o)).

Definition rules_of (st : Store) (rules : option (list IRuleObj))
  : option (list IRule) :=
  map (rule_of st) <$> rules.

Definition dependency_of (st : Store) (d : IDependencyObj) : IDependency :=
  {| dep_addr := dobj_addr d;
     dep_download := dobj_download d;
     dep_reference := content st (dobj_reference d);
     dep_lookupResults := dobj_lookupResults d |}.

Definition settled_of (st : Store) (res : settled (list IDependencyObj))
  : settled (list IDependency) :=
  match res with
  | Fulfilled output => Fulfilled (map (dependency_of st) output)
  | Rejected e => Rejected e
  end.

Definition entry_of (st : Store) (e : EntryObj) : Entry :=
  {| dep := dependency_of st (edep e); collateral := ecollateral e |}.

(** The dependencies refer to objects of the store. *)
Definition present (st : Store) (deps : list IDependencyObj) : Prop :=
  Forall (fun d => is_Some (st !! dobj_reference d)) deps.

End Content.


(* ================================================================= *)
(** * Properties *)

(** ** isFuzzyVersion *)

Lemma parseInt16_hex (c : Ascii.ascii) :
  isNaN (parseInt16 c) = negb (is_hex_digit c).
Proof.
  destruct c as [[] [] [] [] [] [] [] []]; vm_compute; reflexivity.
Qed.

Example coerce_1_2 : Sample.coerce_version (Some "v1.2") = Some (1, 2, 0)%N.
Proof. reflexivity. Qed.

Example validRange_exact : Sample.valid_range "1.2.3" = Some "1.2.3".
Proof. reflexivity. Qed.

Example validRange_label : Sample.valid_range "latest" = None.
Proof. reflexivity. Qed.

Section Facts.

Context `{Imports}.

Lemma isFuzzyVersion_nonempty c s :
  isFuzzyVersion (Some (String c s)) = true
  <-> (is_hex_digit c = false \/ validRange (String c s) <> Some (String c s)).
Proof.
  unfold isFuzzyVersion. simpl.
  rewrite parseInt16_hex, orb_true_iff, !negb_true_iff, bool_decide_eq_false.
  reflexivity.
Qed.

Lemma findDownloadByRef_reference_relax reference :
  findDownloadByRef_reference reference = relax reference.
Proof.
  unfold findDownloadByRef_reference, relax, relaxes.
  destruct reference as [md5 sz gid vm lfn fe]; simpl.
  case_decide as Hd.
  - destruct Hd as (-> & Hm & Hl). destruct md5; [|done].
    destruct lfn, fe; simpl; try reflexivity. destruct Hl; done.
  - destruct (isFuzzyVersion vm), md5, lfn, fe; simpl; try reflexivity;
      exfalso; apply Hd; repeat split; try done; (left + right); done.
Qed.

(** The guard [reference.versionMatch !== undefined] of [findModByRef]
    is implied by [isFuzzyVersion]. *)
Lemma findModByRef_reference_download reference :
  findModByRef_reference reference = findDownloadByRef_reference reference.
Proof.
  unfold findModByRef_reference, findDownloadByRef_reference.
  destruct (ref_versionMatch reference) as [vm|]; simpl; reflexivity.
Qed.

End Facts.

(** C7. [isFuzzyVersion] is false for an undefined or empty [versionMatch];
    for a non-empty string it is true exactly when the first character is
    not a hexadecimal digit or the string differs from what
    [semver.validRange] returns for it.  It is true for ["latest"], and
    false for ["1.2.3"], which [semver.validRange] returns unchanged. *)
Theorem isFuzzyVersion_spec `{Imports} :
  isFuzzyVersion None = false
  /\ isFuzzyVersion (Some "") = false
  /\ (forall c s,
        isFuzzyVersion (Some (String c s)) = true
        <-> (is_hex_digit c = false
             \/ validRange (String c s) <> Some (String c s)))
  /\ isFuzzyVersion (Some "latest") = true
  /\ (validRange "1.2.3" = Some "1.2.3" ->
      isFuzzyVersion (Some "1.2.3") = false).
Proof.
  split; [reflexivity|]. split; [reflexivity|].
  split; [exact isFuzzyVersion_nonempty|]. split.
  - apply isFuzzyVersion_nonempty. left. reflexivity.
  - intros Hcanon. apply not_true_is_false. intros Hfuzzy.
    apply isFuzzyVersion_nonempty in Hfuzzy. destruct Hfuzzy as [Hhex | Hne].
    + discriminate Hhex.
    + exact (Hne Hcanon).
Qed.

Lemma isFuzzyVersion_spec_witness :
  @isFuzzyVersion Sample.imports (Some "1.2.3") = false.
Proof.
  apply (@isFuzzyVersion_spec Sample.imports). reflexivity.
Defined.

(** ** Relaxation of the reference *)

(** C4. [findModByRef] and [findDownloadByRef] match against the same
    relaxed reference: the copy without [fileMD5] exactly when
    [versionMatch] is fuzzy, [fileMD5] is present and one of
    [logicalFileName], [fileExpression] is present, and the reference
    itself in every other case. *)
Theorem relaxation_identical `{Imports} (reference : IReference) (state : IState) :
  findModByRef_reference reference = findDownloadByRef_reference reference
  /\ findModByRef reference state
     = match st_mods state !! activeGameId state with
       | None => Throw TypeError_convert
       | Some mods =>
           Ok (List.find (fun m => testModReference (OfMod m) (relax reference))
                         (map snd mods))
       end
  /\ findDownloadByRef reference state
     = fst <$> head
         (Array_sort (fun lhs rhs => newerSort (snd lhs) (snd rhs))
            (List.filter
               (fun entry =>
                  testModReference (OfLookup (download_lookup (snd entry)))
                                   (relax reference))
               (st_downloads state)))
  /\ (relaxes reference -> relax reference = omit_fileMD5 reference)
  /\ (~ relaxes reference -> relax reference = reference)
  /\ ref_fileMD5 (omit_fileMD5 reference) = None
  /\ ref_fileSize (omit_fileMD5 reference) = ref_fileSize reference
  /\ ref_gameId (omit_fileMD5 reference) = ref_gameId reference
  /\ ref_versionMatch (omit_fileMD5 reference) = ref_versionMatch reference
  /\ ref_logicalFileName (omit_fileMD5 reference) = ref_logicalFileName reference
  /\ ref_fileExpression (omit_fileMD5 reference) = ref_fileExpression reference.
Proof.
  split; [apply findModByRef_reference_download|].
  split.
  { unfold findModByRef.
    rewrite findModByRef_reference_download, findDownloadByRef_reference_relax.
    reflexivity. }
  split.
  { unfold findDownloadByRef, findDownloadByRef_existing, download_matches.
    rewrite findDownloadByRef_reference_relax. reflexivity. }
  split; [intros Hr; unfold relax; rewrite decide_True by exact Hr; reflexivity|].
  split; [intros Hr; unfold relax; rewrite decide_False by exact Hr; reflexivity|].
  repeat split.
Qed.

Lemma relaxation_identical_witness :
  let reference :=
    MkReference (Some "abc") None None (Some "v1.2") (Some "Core Lib") None in
  @relax Sample.imports reference = omit_fileMD5 reference
  /\ @relax Sample.imports empty_reference = empty_reference.
Proof.
  intros reference. split.
  - apply (@relaxation_identical Sample.imports reference
             (@MkState Sample.imports "" ∅ [])).
    repeat split; try discriminate. left. discriminate.
  - apply (@relaxation_identical Sample.imports empty_reference
             (@MkState Sample.imports "" ∅ [])).
    intros (_ & Hm & _). apply Hm. reflexivity.
Defined.

(** ** lookupFulfills *)

Section Fulfilment.

Context `{Imports}.

Lemma conjunct_value {A} (f : option A) v test :
  conjunct f (Some v) test = Ok (from_option (fun x => test x v) true f).
Proof. destruct f; reflexivity. Qed.

Lemma and_then_Ok a b : Ok a &&? Ok b = Ok (a && b).
Proof. destruct a; reflexivity. Qed.

(** With a value at hand no property access fails. *)
Lemma lookupFulfills_value key v reference :
  lookupFulfills (Some (MkLookupResult key (Some v))) reference
  = Ok (from_option (fun x => bool_decide (x = val_gameId v)) true
          (ref_gameId reference)
        && from_option (fun x => bool_decide (x = val_fileMD5 v)) true
             (ref_fileMD5 reference)
        && from_option (fun x => bool_decide (x = val_fileSizeBytes v)) true
             (ref_fileSize reference)
        && from_option (fun x => bool_decide (Some x = val_logicalFileName v)) true
             (ref_logicalFileName reference)
        && from_option (fun x => minimatch (val_fileName v) x) true
             (ref_fileExpression reference)
        && from_option (fun x => satisfies (val_fileVersion v) x) true
             (ref_versionMatch reference)).
Proof.
  unfold lookupFulfills. simpl.
  rewrite !conjunct_value, !and_then_Ok. reflexivity.
Qed.

Lemma from_option_true {A} (p : A -> bool) (f : option A) :
  from_option p true f = true <-> (forall x, f = Some x -> p x = true).
Proof.
  destruct f as [a|]; simpl; split; intros Hp.
  - intros x [= <-]. exact Hp.
  - apply Hp. reflexivity.
  - intros x [=].
  - reflexivity.
Qed.

Lemma lookupFulfills_true key v reference :
  lookupFulfills (Some (MkLookupResult key (Some v))) reference = Ok true
  <-> fulfils_value v reference.
Proof.
  rewrite lookupFulfills_value. unfold fulfils_value.
  split.
  - intros [= Hb]. rewrite !andb_true_iff, !from_option_true in Hb.
    destruct Hb as (((((Hg & Hm) & Hs) & Hl) & He) & Hv).
    repeat split; intros x Hx;
      first [ apply He, Hx | apply Hv, Hx
            | eapply bool_decide_eq_true_1; eauto ].
  - intros (Hg & Hm & Hs & Hl & He & Hv). f_equal.
    rewrite !andb_true_iff, !from_option_true.
    repeat split; intros x Hx;
      first [ apply He, Hx | apply Hv, Hx
            | apply bool_decide_eq_true_2; eauto ].
Qed.

End Fulfilment.

(** C8. On a lookup result with a value, [lookupFulfills] is the
    conjunction over the reference fields that are present of: [gameId],
    [fileMD5] and [logicalFileName] equal, [fileSize] equal to
    [fileSizeBytes], [fileExpression] glob-matching [fileName] and
    [versionMatch] satisfied by [fileVersion].  A reference with no field
    is fulfilled by every lookup result, and the reference is never
    relaxed: a present [fileMD5] that differs is a mismatch, also for a
    reference that [findModByRef] and [findDownloadByRef] would relax. *)
Theorem lookupFulfills_conjunction `{Imports}
    (key : string) (v : IModInfo) (reference : IReference) :
  let lookup := Some (MkLookupResult key (Some v)) in
  (exists b, lookupFulfills lookup reference = Ok b)
  /\ (lookupFulfills lookup reference = Ok true <-> fulfils_value v reference)
  /\ (forall l : ILookupResult, lookupFulfills (Some l) empty_reference = Ok true)
  /\ (forall x, ref_fileMD5 reference = Some x -> x <> val_fileMD5 v ->
        lookupFulfills lookup reference = Ok false).
Proof.
  intros lookup. split; [|split; [|split]].
  - eexists. apply lookupFulfills_value.
  - apply lookupFulfills_true.
  - intros l. reflexivity.
  - intros x Hx Hne.
    destruct (lookupFulfills lookup reference) as [[]|e] eqn:Hb.
    + apply lookupFulfills_true in Hb. destruct Hb as (_ & Hm & _).
      exfalso. apply Hne, Hm, Hx.
    + reflexivity.
    + unfold lookup in Hb. rewrite lookupFulfills_value in Hb. discriminate Hb.
Qed.

Lemma lookupFulfills_conjunction_witness :
  let v := MkModInfo "skyrim" "def" 10 None "core.zip" "1.2.0" None in
  let reference :=
    MkReference (Some "abc") None None (Some "v1.2") (Some "Core Lib") None in
  @relax Sample.imports reference = omit_fileMD5 reference
  /\ @lookupFulfills Sample.imports (Some (MkLookupResult "k" (Some v))) reference
     = Ok false.
Proof.
  intros v reference. split; [vm_compute; reflexivity|].
  apply (@lookupFulfills_conjunction Sample.imports "k" v reference) with "abc".
  - reflexivity.
  - discriminate.
Defined.

(** ** removeDuplicates *)

Section Sorting.

Context {A : Type} (cmp : A -> A -> Z).

Lemma sort_insert_perm x l : sort_insert cmp x l ≡ₚ x :: l.
Proof.
  induction l as [|y l IH]; simpl; [reflexivity|].
  destruct (cmp x y <=? 0); [reflexivity|].
  rewrite IH. apply Permutation_swap.
Qed.

Lemma Array_sort_perm l : Array_sort cmp l ≡ₚ l.
Proof.
  unfold Array_sort. induction l as [|x l IH]; simpl; [reflexivity|].
  rewrite sort_insert_perm, IH. reflexivity.
Qed.

Lemma Array_sort_length l : length (Array_sort cmp l) = length l.
Proof. apply Permutation_length, Array_sort_perm. Qed.

End Sorting.

Section Marking.

Context {A : Type}.
Implicit Types temp : list (option A).

Lemma struck_from_refl temp : struck_from temp temp.
Proof. apply Forall_Forall2_diag, Forall_forall. intros; right; reflexivity. Qed.

Lemma struck_from_null temp temp' idx :
  struck_from temp temp' -> struck_from temp (<[idx := None]> temp').
Proof.
  unfold struck_from. intros Hs.
  destruct (decide (idx < length temp)%nat) as [Hlt|Hge].
  - destruct (lookup_lt_is_Some_2 temp idx Hlt) as [a Ha].
    rewrite <- (list_insert_id temp idx a Ha).
    apply Forall2_insert; [exact Hs|]. left; reflexivity.
  - rewrite list_insert_ge; [exact Hs|].
    apply Forall2_length in Hs. lia.
Qed.

Lemma struck_from_nulls temp temp' (idxs : list nat) :
  struck_from temp temp' ->
  struck_from temp (foldl (fun t idx => <[idx := None]> t) temp' idxs).
Proof.
  revert temp'. induction idxs as [|idx idxs IH]; simpl; intros temp' Hs.
  - exact Hs.
  - apply IH, struck_from_null, Hs.
Qed.

Lemma struck_from_sublist temp temp' :
  struck_from temp temp' -> sublist (omap id temp') (omap id temp).
Proof.
  induction 1 as [|a b temp temp' Hab _ IH]; simpl; [constructor|].
  destruct Hab as [-> | ->].
  - destruct a; simpl; [apply sublist_cons|]; exact IH.
  - destruct a; simpl; [apply sublist_skip|]; exact IH.
Qed.

Lemma omap_id_Some (l : list A) : omap id (map Some l) = l.
Proof. induction l as [|x l IH]; simpl; [reflexivity|f_equal; exact IH]. Qed.

End Marking.

Section Deduplication.

Context `{Imports}.

Lemma strike_struck temp temp' i :
  struck_from temp temp' -> struck_from temp (strike temp' i).
Proof.
  intros Hs. unfold strike.
  destruct (temp' !! i) as [[e|]|]; try exact Hs.
  apply struck_from_nulls, Hs.
Qed.

Lemma strikes_struck temp temp' (rounds : list nat) :
  struck_from temp temp' -> struck_from temp (foldl strike temp' rounds).
Proof.
  revert temp'. induction rounds as [|i rounds IH]; simpl; intros temp' Hs.
  - exact Hs.
  - apply IH, strike_struck, Hs.
Qed.

Lemma map_result_Ok {X Y} (f : X -> result Y) l r :
  map_result f l = Ok r -> Forall2 (fun x y => f x = Ok y) l r.
Proof.
  revert r. induction l as [|x l IH]; simpl; intros r Hr.
  - injection Hr as <-. constructor.
  - destruct (f x) as [y|e] eqn:Hx; simpl in Hr; [|discriminate Hr].
    destruct (map_result f l) as [r'|e]; simpl in Hr; [|discriminate Hr].
    injection Hr as <-. constructor; [exact Hx|]. apply IH. reflexivity.
Qed.

Lemma map_result_total {X Y} (f : X -> result Y) l :
  Forall (fun x => exists y, f x = Ok y) l -> exists r, map_result f l = Ok r.
Proof.
  induction 1 as [|x l [y Hy] _ [r Hr]]; simpl.
  - eexists; reflexivity.
  - rewrite Hy, Hr. simpl. eexists; reflexivity.
Qed.

Lemma filter_result_total {X} (p : X -> result bool) l :
  Forall (fun x => exists b, p x = Ok b) l -> exists r, filter_result p l = Ok r.
Proof.
  induction 1 as [|x l [b Hb] _ [r Hr]]; simpl.
  - eexists; reflexivity.
  - rewrite Hb, Hr. simpl. eexists; reflexivity.
Qed.

Lemma map_result_section {X Y} (f : X -> result Y) (g : Y -> X) l r :
  (forall x y, f x = Ok y -> g y = x) -> map_result f l = Ok r -> map g r = l.
Proof.
  intros Hfg Hm. apply map_result_Ok in Hm.
  induction Hm as [|x y l r Hxy _ IH]; simpl; [reflexivity|].
  rewrite IH, (Hfg _ _ Hxy). reflexivity.
Qed.

Lemma entry_dep input d e :
  (let? c := collateral_of input d in Ok {| dep := d; collateral := c |}) = Ok e ->
  dep e = d.
Proof.
  destruct (collateral_of input d); simpl; intros He; [|discriminate He].
  injection He as <-. reflexivity.
Qed.

(** The entries of [temp] are the dependencies of [input], reordered. *)
Lemma removeDuplicates_temp_perm input temp :
  removeDuplicates_temp input = Ok temp -> map dep temp ≡ₚ input.
Proof.
  unfold removeDuplicates_temp. intros Ht.
  destruct (map_result _ input) as [temp0|e] eqn:Hm; simpl in Ht;
    [|discriminate Ht].
  injection Ht as <-. rewrite Array_sort_perm.
  rewrite (map_result_section _ dep _ _ (entry_dep input) Hm). reflexivity.
Qed.

Lemma removeDuplicates_submseteq input output :
  removeDuplicates input = Ok output -> output ⊆+ input.
Proof.
  unfold removeDuplicates. intros Hr.
  destruct (removeDuplicates_temp input) as [temp|e] eqn:Ht; simpl in Hr;
    [|discriminate Hr].
  injection Hr as <-.
  rewrite <- (removeDuplicates_temp_perm _ _ Ht).
  apply sublist_submseteq, (fmap_sublist dep).
  pose proof (struck_from_sublist (map Some temp)
                (foldl strike (map Some temp) (seq 0 (length temp)))
                (strikes_struck _ _ _ (struck_from_refl _))) as Hsub.
  rewrite omap_id_Some in Hsub. exact Hsub.
Qed.

(** With a first candidate that has a value, comparing never throws. *)
Lemma lookupFulfills_candidate d reference :
  has_candidate d ->
  exists b, lookupFulfills (head (dep_lookupResults d)) reference = Ok b.
Proof.
  intros ([key value] & rest & v & -> & Hv). simpl in Hv. subst value.
  simpl. eexists. apply (lookupFulfills_value key v reference).
Qed.

Lemma removeDuplicates_total input :
  Forall has_candidate input -> exists output, removeDuplicates input = Ok output.
Proof.
  intros Hwf. unfold removeDuplicates, removeDuplicates_temp.
  destruct (map_result_total
              (fun d => let? c := collateral_of input d in
                        Ok {| dep := d; collateral := c |}) input) as [temp Ht].
  - apply Forall_forall. intros d Hd.
    rewrite Forall_forall in Hwf. apply Hwf in Hd. simpl.
    unfold collateral_of.
    destruct (filter_result_total (is_collateral d)
                (imap (fun idx item => (item, idx)) input)) as [kept Hk].
    + apply Forall_forall. intros inner _. unfold is_collateral.
      case_bool_decide; [|eexists; reflexivity].
      apply lookupFulfills_candidate, Hd.
    + rewrite Hk. simpl. eexists; reflexivity.
  - rewrite Ht. simpl. eexists; reflexivity.
Qed.

End Deduplication.

(** C10. Every element of the output of [removeDuplicates] is one of the
    input's records, unchanged (the output is a sub-multiset of the
    input), so the output is at most as long as the input; the empty input
    gives the empty output.  An output exists whenever every entry has a
    primary candidate with a value, as the entries of the gatherer do. *)
Theorem removeDuplicates_keeps_input `{Imports} (input : list IDependency) :
  (forall output,
      removeDuplicates input = Ok output ->
      output ⊆+ input
      /\ (forall d, d ∈ output -> d ∈ input)
      /\ (length output <= length input)%nat)
  /\ (Forall has_candidate input ->
      exists output, removeDuplicates input = Ok output)
  /\ removeDuplicates [] = Ok [].
Proof.
  split; [|split].
  - intros output Hr. pose proof (removeDuplicates_submseteq _ _ Hr) as Hsub.
    split; [exact Hsub|]. split.
    + intros d Hd. eapply elem_of_submseteq; eassumption.
    + apply submseteq_length, Hsub.
  - apply removeDuplicates_total.
  - reflexivity.
Qed.

Lemma removeDuplicates_keeps_input_witness :
  let input := [Scenario.dep_core_hash; Scenario.dep_core] in
  let output := [Scenario.dep_core_hash] in
  @removeDuplicates Sample.imports input = Ok output
  /\ output ⊆+ input
  /\ (length output <= length input)%nat.
Proof.
  intros input output.
  destruct (@removeDuplicates_keeps_input Sample.imports input)
    as (Hkeeps & Htotal & _).
  destruct Htotal as [output' Hrun].
  { repeat constructor; do 3 eexists; split; reflexivity. }
  assert (Hout : output' = output).
  { assert (Hcomputed : @removeDuplicates Sample.imports input = Ok output)
      by (vm_compute; reflexivity).
    rewrite Hcomputed in Hrun. injection Hrun as <-. reflexivity. }
  subst output'. split; [exact Hrun|].
  destruct (Hkeeps output Hrun) as (Hsub & _ & Hlen).
  split; [exact Hsub | exact Hlen].
Defined.

(** C2. Three distinct dependencies [a], [b], [c] in this order, where the
    primary candidate of [a] fulfils the references of [b] and of [c] and
    no other of the six comparisons holds: the output is [[a]]. *)
Theorem removeDuplicates_three `{Imports} (a b c : IDependency) :
  dep_addr a <> dep_addr b ->
  dep_addr a <> dep_addr c ->
  dep_addr b <> dep_addr c ->
  lookupFulfills (head (dep_lookupResults a)) (dep_reference b) = Ok true ->
  lookupFulfills (head (dep_lookupResults a)) (dep_reference c) = Ok true ->
  lookupFulfills (head (dep_lookupResults b)) (dep_reference a) = Ok false ->
  lookupFulfills (head (dep_lookupResults b)) (dep_reference c) = Ok false ->
  lookupFulfills (head (dep_lookupResults c)) (dep_reference a) = Ok false ->
  lookupFulfills (head (dep_lookupResults c)) (dep_reference b) = Ok false ->
  removeDuplicates [a; b; c] = Ok [a].
Proof.
  intros Hab Hac Hbc Fab Fac Fba Fbc Fca Fcb.
  assert (Hba : dep_addr b <> dep_addr a) by congruence.
  assert (Hca : dep_addr c <> dep_addr a) by congruence.
  assert (Hcb : dep_addr c <> dep_addr b) by congruence.
  assert (Ca : collateral_of [a; b; c] a = Ok [1; 2]%nat).
  { unfold collateral_of, is_collateral; simpl.
    rewrite (bool_decide_eq_false_2 (dep_addr a <> dep_addr a)) by tauto.
    rewrite (bool_decide_eq_true_2 _ Hba), (bool_decide_eq_true_2 _ Hca).
    rewrite Fab, Fac. reflexivity. }
  assert (Cb : collateral_of [a; b; c] b = Ok []).
  { unfold collateral_of, is_collateral; simpl.
    rewrite (bool_decide_eq_false_2 (dep_addr b <> dep_addr b)) by tauto.
    rewrite (bool_decide_eq_true_2 _ Hab), (bool_decide_eq_true_2 _ Hcb).
    rewrite Fba, Fbc. reflexivity. }
  assert (Cc : collateral_of [a; b; c] c = Ok []).
  { unfold collateral_of, is_collateral; simpl.
    rewrite (bool_decide_eq_false_2 (dep_addr c <> dep_addr c)) by tauto.
    rewrite (bool_decide_eq_true_2 _ Hac), (bool_decide_eq_true_2 _ Hbc).
    rewrite Fca, Fcb. reflexivity. }
  unfold removeDuplicates, removeDuplicates_temp. simpl map_result.
  rewrite Ca, Cb, Cc. reflexivity.
Qed.

Lemma removeDuplicates_three_witness :
  @removeDuplicates Sample.imports [Cover.dep_a; Cover.dep_b; Cover.dep_c]
  = Ok [Cover.dep_a].
Proof.
  apply (@removeDuplicates_three Sample.imports);
    solve [ vm_compute; reflexivity | vm_compute; discriminate ].
Defined.

(** C1, on the code.  The collateral indices are positions in [input],
    but the loop applies them to [temp] after it was sorted.  For the
    input [[dep_other; dep_core_hash; dep_core]] the sort moves [dep_core]
    to the front with collateral [[1]], which now is the place of
    [dep_other]: the unrelated [dep_other] is dropped, and [dep_core_hash],
    whose reference the candidate of [dep_core] fulfils, survives next to
    [dep_core]. *)
Theorem removeDuplicates_leaves_redundant `{Imports} :
  let input := [Scenario.dep_other; Scenario.dep_core_hash; Scenario.dep_core] in
  let output := [Scenario.dep_core; Scenario.dep_core_hash] in
  removeDuplicates_temp input
  = Ok [MkEntry Scenario.dep_core [1%nat]; MkEntry Scenario.dep_other [];
        MkEntry Scenario.dep_core_hash []]
  /\ removeDuplicates input = Ok output
  /\ redundant output
  /\ Scenario.dep_other ∉ output.
Proof.
  intros input output. split; [vm_compute; reflexivity|].
  split; [vm_compute; reflexivity|]. split.
  - exists Scenario.dep_core, Scenario.dep_core_hash.
    split; [set_solver|]. split; [set_solver|].
    split; [discriminate|]. vm_compute. reflexivity.
  - unfold output. rewrite !not_elem_of_cons.
    split; [discriminate|]. split; [discriminate|]. apply not_elem_of_nil.
Qed.

(** The same input built by [gatherDependencies] itself, from three
    [requires] rules. *)
Lemma gatherDependencies_leaves_redundant :
  exists w',
    @gatherDependencies Sample.imports 2 (Some Gathering.rules) Gathering.api
      Gathering.world
    = Some (Fulfilled [Scenario.dep_core; Scenario.dep_core_hash], w').
Proof. eexists. vm_compute. reflexivity. Qed.

(** ** gatherDependencies *)

Section Gatherer.

Context `{Imports}.

Variable api : IExtensionApi.
Let state : IState := store_getState api.

Lemma gather_step_outcome recurse total rule w res w' :
  gather_step recurse api state total rule w = Some (res, w')
  <-> step_outcome recurse api state total rule w res w'.
Proof.
  split.
  - unfold gather_step, then_, catch_, of_result, lookupModReference, emit,
      log, new_addr, resolve, reject.
    destruct (findModByRef (rule_reference rule) state) as [[m|]|e] eqn:Hfind;
      simpl.
    + intros [= <- <-]. eapply step_installed, Hfind.
    + destruct (lookupModReference_reply api (rule_reference rule))
        as [details|e] eqn:Hreply; simpl.
      * destruct details as [|d0 rest] eqn:Hdetails; simpl.
        { intros [= <- <-]. eapply step_not_found; eauto. }
        destruct (lr_value d0) as [v|] eqn:Hvalue; simpl.
        2:{ intros [= <- <-]. eapply step_not_found; eauto. }
        fold (add_event w (EvLookup (rule_reference rule))).
        destruct (recurse (val_rules v) _) as [[[deps|e] w2]|] eqn:Hrec; simpl.
        { intros [= <- <-]. eapply step_resolved; eauto. }
        { intros [= <- <-]. eapply step_nested_rejected; eauto. }
        { discriminate. }
      * intros [= <- <-]. eapply step_lookup_rejected; eauto.
    + intros [= <- <-]. apply step_throws, Hfind.
  - unfold gather_step, then_, catch_, of_result, lookupModReference, emit,
      log, new_addr, resolve, reject.
    intros [e Hfind | m Hfind | e Hfind Hreply | details Hfind Hreply Hnone
           | details v e w2 Hfind Hreply Hsome Hrec
           | details v deps w2 Hfind Hreply Hsome Hrec];
      rewrite Hfind; simpl; try reflexivity; rewrite Hreply; simpl;
      try reflexivity.
    + destruct details as [|d0 rest]; simpl in *; [reflexivity|].
      rewrite Hnone. reflexivity.
    + destruct details as [|d0 rest]; simpl in *; [discriminate Hsome|].
      rewrite Hsome. unfold add_event in Hrec. simpl in Hrec.
      rewrite Hrec. reflexivity.
    + destruct details as [|d0 rest]; simpl in *; [discriminate Hsome|].
      rewrite Hsome. unfold add_event in Hrec. simpl in Hrec.
      rewrite Hrec. reflexivity.
Qed.

(** *** Reading a run backwards *)

Lemma then_Some {A B} (p : Promise A) (k : A -> Promise B) w res w' :
  then_ p k w = Some (res, w')
  <-> (exists e, p w = Some (Rejected e, w') /\ res = Rejected e)
      \/ (exists a w1, p w = Some (Fulfilled a, w1) /\ k a w1 = Some (res, w')).
Proof.
  unfold then_. destruct (p w) as [[[a|e] w1]|]; split.
  - intros Hk. right. eauto.
  - intros [(e & [=] & _) | (a' & w1' & [= <- <-] & Hk)]. exact Hk.
  - intros [= <- <-]. left. eauto.
  - intros [(e' & [= <- <-] & ->) | (a' & w1' & [=] & _)]. reflexivity.
  - discriminate.
  - intros [(e & [=] & _) | (a' & w1' & [=] & _)].
Qed.

Lemma of_result_Some {A} (r : result A) w res w' :
  of_result r w = Some (res, w')
  <-> w' = w /\ res = match r with Ok a => Fulfilled a | Throw e => Rejected e end.
Proof.
  destruct r; simpl; unfold resolve, reject; split.
  - intros [= <- <-]. split; reflexivity.
  - intros [-> ->]. reflexivity.
  - intros [= <- <-]. split; reflexivity.
  - intros [-> ->]. reflexivity.
Qed.

(** A reducer that never rejects and keeps [I] makes a reduction that
    never rejects and keeps [I]. *)
Lemma Promise_reduce_post {A B} (I : B -> World -> Prop)
    (l : list A) (reducer : B -> A -> Promise B) :
  (forall x total w res w',
      x ∈ l -> I total w -> reducer total x w = Some (res, w') ->
      exists total', res = Fulfilled total' /\ I total' w') ->
  forall total w res w',
    I total w -> Promise_reduce l reducer total w = Some (res, w') ->
    exists total', res = Fulfilled total' /\ I total' w'.
Proof.
  induction l as [|x l IH]; intros Hstep total w res w' HI Hrun.
  - injection Hrun as <- <-. eauto.
  - simpl in Hrun. apply then_Some in Hrun.
    destruct Hrun as [(e & Hx & ->) | (total1 & w1 & Hx & Hrest)].
    + apply Hstep in Hx; [|left|exact HI].
      destruct Hx as (total' & [=] & _).
    + apply Hstep in Hx; [|left|exact HI].
      destruct Hx as (total' & [= <-] & HI1).
      eapply IH; [|exact HI1|exact Hrest].
      intros x' t' wx r' wx' Hin. apply Hstep. right. exact Hin.
Qed.

(** A reducer that settles on every element makes a reduction that
    settles. *)
Lemma Promise_reduce_settles {A B} (l : list A) (reducer : B -> A -> Promise B) :
  (forall x total w, x ∈ l -> exists res w', reducer total x w = Some (res, w')) ->
  forall total w, exists res w', Promise_reduce l reducer total w = Some (res, w').
Proof.
  induction l as [|x l IH]; intros Hstep total w; simpl.
  - unfold resolve. eauto.
  - unfold then_.
    destruct (Hstep x total w) as ([total1|e] & w1 & ->); [left| |eauto].
    apply IH. intros x' t' wx Hin. apply Hstep. right. exact Hin.
Qed.

Lemma gatherDependencies_S fuel rules :
  gatherDependencies (S fuel) rules api
  = then_ (Promise_reduce (requirements_of rules)
             (gather_step (fun rules' => gatherDependencies fuel rules' api)
                          api state)
             [])
          (fun input => of_result (removeDuplicates input)).
Proof. reflexivity. Qed.

Lemma findModByRef_Throw reference e :
  findModByRef reference state = Throw e ->
  st_mods state !! activeGameId state = None.
Proof.
  unfold findModByRef. destruct (st_mods state !! activeGameId state); [|reflexivity].
  discriminate.
Qed.

Lemma head_value_candidate d v :
  head (dep_lookupResults d) ≫= lr_value = Some v -> has_candidate d.
Proof.
  unfold has_candidate. destruct (dep_lookupResults d) as [|d0 rest]; simpl.
  - discriminate.
  - intros Hv. eauto.
Qed.

(** *** Lookups are only made for references no installed mod matches *)

Lemma lookups_missed_refl w : lookups_missed state w w.
Proof. intros reference Hin. left. exact Hin. Qed.

Lemma lookups_missed_trans w1 w2 w3 :
  lookups_missed state w1 w2 -> lookups_missed state w2 w3 ->
  lookups_missed state w1 w3.
Proof.
  intros H12 H23 reference Hin. destruct (H23 _ Hin) as [Hin2|Hmiss].
  - apply H12, Hin2.
  - right. exact Hmiss.
Qed.

Lemma lookups_missed_events w w' :
  events w' = events w -> lookups_missed state w w'.
Proof. intros Heq reference Hin. left. rewrite <- Heq. exact Hin. Qed.

Lemma lookups_missed_log w level text detail :
  lookups_missed state w (add_event w (EvLog level text detail)).
Proof.
  intros reference Hin. left. simpl in Hin.
  apply elem_of_app in Hin. destruct Hin as [Hin|Hin]; [exact Hin|].
  apply list_elem_of_singleton in Hin. discriminate Hin.
Qed.

Lemma lookups_missed_lookup w reference :
  findModByRef reference state = Ok None ->
  lookups_missed state w (add_event w (EvLookup reference)).
Proof.
  intros Hmiss reference' Hin. simpl in Hin.
  apply elem_of_app in Hin. destruct Hin as [Hin|Hin]; [left; exact Hin|].
  apply list_elem_of_singleton in Hin. injection Hin as ->. right. exact Hmiss.
Qed.

(** *** What a settled run has done *)

Lemma reachable_through rules parent details v rule :
  reachable api rules parent ->
  lookupModReference_reply api (rule_reference parent) = Fulfilled details ->
  head details ≫= lr_value = Some v ->
  reachable api (val_rules v) rule ->
  reachable api rules rule.
Proof.
  intros Hparent Hreply Hv Hrule.
  induction Hrule as [rule Hin | p ds v' rule _ IH Hr Hv' Hin].
  - eapply reachable_nested; eassumption.
  - eapply reachable_nested; [exact IH|exact Hr|exact Hv'|exact Hin].
Qed.

Hypothesis mods_present : is_Some (st_mods state !! activeGameId state).

Lemma gatherDependencies_gathered fuel :
  forall rules w res w',
    gatherDependencies fuel rules api w = Some (res, w') ->
    gathered api rules w res w'.
Proof.
  induction fuel as [|fuel IH]; intros rules w res w' Hrun; [discriminate Hrun|].
  rewrite gatherDependencies_S in Hrun. apply then_Some in Hrun.
  set (origin := fun d => exists rule,
                   reachable api rules rule /\ created_for api rule d) in *.
  set (I := fun (total : list IDependency) (w1 : World) =>
              Forall has_candidate total /\ Forall origin total
              /\ lookups_missed state w w1).
  assert (Hreduce : forall res1 w1,
    Promise_reduce (requirements_of rules)
      (gather_step (fun rules' => gatherDependencies fuel rules' api) api state)
      [] w = Some (res1, w1) ->
    exists total, res1 = Fulfilled total /\ I total w1).
  { intros res1 w1. apply (Promise_reduce_post I).
    2:{ repeat split; [constructor|constructor|apply lookups_missed_refl]. }
    clear res1 w1. intros rule total w1 res1 w2 Hin (Hcand & Horigin & Hmiss) Hstep.
    apply gather_step_outcome in Hstep.
    destruct Hstep as [e Hfind | m Hfind | e Hfind Hreply
                      | details Hfind Hreply Hnone
                      | details v e w3 Hfind Hreply Hsome Hrec
                      | details v deps w3 Hfind Hreply Hsome Hrec].
    - apply findModByRef_Throw in Hfind. rewrite Hfind in mods_present.
      destruct mods_present as [? [=]].
    - exists total. repeat split; assumption.
    - exists total. repeat split; try assumption.
      eapply lookups_missed_trans; [exact Hmiss|].
      eapply lookups_missed_trans;
        [apply lookups_missed_lookup, Hfind|apply lookups_missed_log].
    - exists total. repeat split; try assumption.
      eapply lookups_missed_trans; [exact Hmiss|].
      eapply lookups_missed_trans;
        [apply lookups_missed_lookup, Hfind|apply lookups_missed_log].
    - apply IH in Hrec. destruct Hrec as (out & [=] & _).
    - apply IH in Hrec. destruct Hrec as (out & [= <-] & Hc & Ho & Hm).
      eexists. split; [reflexivity|]. repeat split.
      + rewrite !Forall_app. repeat split; [exact Hcand|exact Hc|].
        constructor; [|constructor].
        eapply head_value_candidate. simpl. exact Hsome.
      + rewrite !Forall_app. repeat split; [exact Horigin| |].
        * rewrite list.Forall_forall in Ho |- *. intros d Hd.
          destruct (Ho d Hd) as (r & Hr & Hcr). exists r. split; [|exact Hcr].
          eapply reachable_through;
            [apply reachable_top, Hin|exact Hreply|exact Hsome|exact Hr].
        * constructor; [|constructor]. exists rule.
          split; [apply reachable_top, Hin|].
          split; [reflexivity|]. split; [reflexivity|].
          split; [exact Hreply|exact Hfind].
      + eapply lookups_missed_trans; [exact Hmiss|].
        eapply lookups_missed_trans; [apply lookups_missed_lookup, Hfind|].
        eapply lookups_missed_trans; [exact Hm|].
        apply lookups_missed_events. reflexivity. }
  destruct Hrun as [(e & Hred & ->) | (input & w1 & Hred & Hdedup)].
  - apply Hreduce in Hred. destruct Hred as (total & [=] & _).
  - apply Hreduce in Hred. destruct Hred as (total & [= <-] & Hc & Ho & Hm).
    apply of_result_Some in Hdedup. destruct Hdedup as [-> ->].
    destruct (removeDuplicates_total input Hc) as [output Hout].
    rewrite Hout. exists output. split; [reflexivity|].
    pose proof (removeDuplicates_submseteq _ _ Hout) as Hsub.
    repeat split; [| |exact Hm].
    + rewrite list.Forall_forall in Hc |- *. intros d Hd.
      apply Hc. eapply elem_of_submseteq; eassumption.
    + rewrite list.Forall_forall in Ho |- *. intros d Hd.
      apply Ho. eapply elem_of_submseteq; eassumption.
Qed.

(** The list stays empty when the mods of the active game are missing:
    the first requirement makes [findModByRef] throw. *)
Lemma gatherDependencies_no_mods fuel rules w output w' :
  st_mods state !! activeGameId state = None ->
  gatherDependencies fuel rules api w = Some (Fulfilled output, w') ->
  output = [].
Proof.
  intros Hnone Hrun. destruct fuel as [|fuel]; [discriminate Hrun|].
  rewrite gatherDependencies_S in Hrun.
  destruct (requirements_of rules) as [|rule rest].
  - injection Hrun as <- <-. reflexivity.
  - simpl in Hrun. unfold gather_step at 1, findModByRef in Hrun.
    rewrite Hnone in Hrun. discriminate Hrun.
Qed.

End Gatherer.

Section Termination.

Context `{Imports}.

Variable api : IExtensionApi.
Let state : IState := store_getState api.

Lemma step_outcome_mono
    (recurse1 recurse2 : option (list IRule) -> Promise (list IDependency))
    total rule w res w' :
  (forall rules w1 r, recurse1 rules w1 = Some r -> recurse2 rules w1 = Some r) ->
  step_outcome recurse1 api state total rule w res w' ->
  step_outcome recurse2 api state total rule w res w'.
Proof.
  intros Hmono Hstep.
  destruct Hstep as [e Hfind | m Hfind | e Hfind Hreply
                    | details Hfind Hreply Hnone
                    | details v e w2 Hfind Hreply Hsome Hrec
                    | details v deps w2 Hfind Hreply Hsome Hrec].
  - apply step_throws, Hfind.
  - eapply step_installed, Hfind.
  - apply step_lookup_rejected; assumption.
  - eapply step_not_found; eassumption.
  - eapply step_nested_rejected; try eassumption. apply Hmono, Hrec.
  - eapply step_resolved; try eassumption. apply Hmono, Hrec.
Qed.

Lemma Promise_reduce_mono {A B} (l : list A) (r1 r2 : B -> A -> Promise B) :
  (forall total x w r, r1 total x w = Some r -> r2 total x w = Some r) ->
  forall total w r,
    Promise_reduce l r1 total w = Some r -> Promise_reduce l r2 total w = Some r.
Proof.
  intros Hmono. induction l as [|x l IH]; intros total w r; simpl; [tauto|].
  unfold then_. destruct (r1 total x w) as [[[a|e] w1]|] eqn:H1; [| |discriminate].
  - rewrite (Hmono _ _ _ _ H1). apply IH.
  - rewrite (Hmono _ _ _ _ H1). tauto.
Qed.

(** More fuel does not change the outcome of a call that settled. *)
Lemma gatherDependencies_fuel_S fuel :
  forall rules w r,
    gatherDependencies fuel rules api w = Some r ->
    gatherDependencies (S fuel) rules api w = Some r.
Proof.
  induction fuel as [|fuel IH]; intros rules w r Hrun; [discriminate Hrun|].
  rewrite gatherDependencies_S in Hrun.
  rewrite (gatherDependencies_S _ (S fuel)).
  assert (Hmono : forall r1,
    Promise_reduce (requirements_of rules)
      (gather_step (fun rules' => gatherDependencies fuel rules' api) api state)
      [] w = Some r1 ->
    Promise_reduce (requirements_of rules)
      (gather_step (fun rules' => gatherDependencies (S fuel) rules' api) api state)
      [] w = Some r1).
  { intros r1. apply Promise_reduce_mono.
    intros total x w0 [res w'] Hstep.
    apply gather_step_outcome. apply gather_step_outcome in Hstep.
    eapply step_outcome_mono; [|exact Hstep]. exact IH. }
  unfold then_ in *.
  destruct (Promise_reduce _ (gather_step (fun rules' => gatherDependencies fuel rules' api) _ _) _ w)
    as [r1|] eqn:Hred; [|discriminate Hrun].
  pose proof (Hmono r1 eq_refl) as Hmore. unfold state in Hmore.
  rewrite Hmore. exact Hrun.
Qed.

Lemma gatherDependencies_fuel_le fuel fuel' rules w r :
  (fuel <= fuel')%nat ->
  gatherDependencies fuel rules api w = Some r ->
  gatherDependencies fuel' rules api w = Some r.
Proof.
  induction 1 as [|fuel' _ IH]; [tauto|].
  intros Hrun. apply gatherDependencies_fuel_S, IH, Hrun.
Qed.

(** A rule graph of bounded depth is gathered with that much fuel. *)
Lemma gatherDependencies_settles n rules :
  depth_bounded api n rules ->
  forall w, exists res w', gatherDependencies n rules api w = Some (res, w').
Proof.
  induction 1 as [n rules _ IH]. intros w.
  rewrite gatherDependencies_S. unfold then_.
  destruct (Promise_reduce_settles (requirements_of rules)
              (gather_step (fun rules' => gatherDependencies n rules' api)
                           api (store_getState api)) ) with (total := @nil IDependency) (w := w)
    as ([input|e] & w1 & ->).
  - intros rule total w0 Hin.
    destruct (findModByRef (rule_reference rule) state) as [[m|]|e] eqn:Hfind.
    + do 2 eexists. apply gather_step_outcome. eapply step_installed, Hfind.
    + destruct (lookupModReference_reply api (rule_reference rule))
        as [details|e] eqn:Hreply.
      * destruct (head details ≫= lr_value) as [v|] eqn:Hvalue.
        { destruct (IH rule details v Hin Hfind Hreply Hvalue
                      (add_event w0 (EvLookup (rule_reference rule))))
            as ([deps|e] & w2 & Hrec).
          - do 2 eexists. apply gather_step_outcome.
            eapply step_resolved; eassumption.
          - do 2 eexists. apply gather_step_outcome.
            eapply step_nested_rejected; eassumption. }
        { do 2 eexists. apply gather_step_outcome.
          eapply step_not_found; eassumption. }
      * do 2 eexists. apply gather_step_outcome.
        eapply step_lookup_rejected; eassumption.
    + do 2 eexists. apply gather_step_outcome. apply step_throws, Hfind.
  - destruct (removeDuplicates input); simpl; unfold resolve, reject; eauto.
  - eauto.
Qed.

(** A reduction that settled without a step that can reject has run the
    step of every element. *)
Lemma Promise_reduce_all {A B} (l : list A) (reducer : B -> A -> Promise B) :
  (forall y total w e w', reducer total y w <> Some (Rejected e, w')) ->
  forall total w r,
    Promise_reduce l reducer total w = Some r ->
    forall x, x ∈ l -> exists total1 w1 r1, reducer total1 x w1 = Some r1.
Proof.
  intros Hreject. induction l as [|a l IH]; intros total w r Hrun x Hx;
    [apply elem_of_nil in Hx; destruct Hx|].
  simpl in Hrun. unfold then_ in Hrun.
  destruct (reducer total a w) as [[[total'|e] w1]|] eqn:Hstep;
    [| |discriminate Hrun].
  - apply elem_of_cons in Hx. destruct Hx as [->|Hx]; [eauto|].
    eapply IH; eassumption.
  - exfalso. eapply Hreject, Hstep.
Qed.

(** A call that settled with [fuel] has met a nesting of at most that
    depth. *)
Lemma gatherDependencies_bounded fuel :
  is_Some (st_mods state !! activeGameId state) ->
  forall rules w r,
    gatherDependencies fuel rules api w = Some r ->
    depth_bounded api fuel rules.
Proof.
  intros Hmods. induction fuel as [|fuel IH]; intros rules w r Hrun;
    [discriminate Hrun|].
  constructor. intros rule details v Hin Hfind Hreply Hvalue.
  rewrite gatherDependencies_S in Hrun. unfold then_ in Hrun.
  destruct (Promise_reduce _ _ _ w) as [r1|] eqn:Hred in Hrun; [|discriminate Hrun].
  assert (Hreject : forall y total w0 e w',
    gather_step (fun rules' => gatherDependencies fuel rules' api) api
      (store_getState api) total y w0 <> Some (Rejected e, w')).
  { intros y total w0 e w' Hstep. apply gather_step_outcome in Hstep.
    inversion Hstep as [e0 Hthrow | | | | |]; subst.
    apply findModByRef_Throw in Hthrow. unfold state in Hmods.
    rewrite Hthrow in Hmods. destruct Hmods as [? [=]]. }
  destruct (Promise_reduce_all _ _ Hreject _ _ _ Hred rule Hin)
    as (total1 & w1 & [res w2] & Hstep).
  apply gather_step_outcome in Hstep.
  destruct Hstep as [e Hf | m Hf | e Hf Hrep
                    | details' Hf Hrep Hnone
                    | details' v' e w3 Hf Hrep Hsome Hrec
                    | details' v' deps w3 Hf Hrep Hsome Hrec].
  - unfold state in Hfind. rewrite Hfind in Hf. discriminate Hf.
  - unfold state in Hfind. rewrite Hfind in Hf. discriminate Hf.
  - rewrite Hreply in Hrep. discriminate Hrep.
  - rewrite Hreply in Hrep. injection Hrep as <-.
    rewrite Hvalue in Hnone. discriminate Hnone.
  - rewrite Hreply in Hrep. injection Hrep as <-.
    rewrite Hvalue in Hsome. injection Hsome as <-. eapply IH, Hrec.
  - rewrite Hreply in Hrep. injection Hrep as <-.
    rewrite Hvalue in Hsome. injection Hsome as <-. eapply IH, Hrec.
Qed.

End Termination.

(** C3, as the code has it.  When [state.persistent.mods] has an entry
    for the active game: a call of [gatherDependencies] that settles is
    fulfilled, never rejected; a requirement whose lookup is rejected,
    answers with no candidate or with a first candidate without value is
    logged, leaves the running list as it was, and the reduction goes on
    with the remaining requirements; and the call settles, with a list,
    exactly when the nesting of the requirements is bounded, where a
    requirement that no installed mod matches leads to the rules of the
    first candidate of its lookup: with a bound it settles, a call that
    settled has met a nesting within its bound, and without any bound
    the call never settles. *)
Theorem gatherDependencies_soft_failure `{Imports} (api : IExtensionApi) :
  let state := store_getState api in
  is_Some (st_mods state !! activeGameId state) ->
  (forall fuel rules w res w',
      gatherDependencies fuel rules api w = Some (res, w') ->
      exists output, res = Fulfilled output)
  /\ (forall recurse total rule rest w err,
        findModByRef (rule_reference rule) state = Ok None ->
        lookup_failure api (rule_reference rule) = Some err ->
        let logged :=
          add_event (add_event w (EvLookup (rule_reference rule)))
                    (EvLog "error" "failed to look up" (message err)) in
        gather_step recurse api state total rule w = Some (Fulfilled total, logged)
        /\ Promise_reduce (rule :: rest) (gather_step recurse api state) total w
           = Promise_reduce rest (gather_step recurse api state) total logged)
  /\ (forall n fuel rules w,
        depth_bounded api n rules -> (n <= fuel)%nat ->
        exists output w',
          gatherDependencies fuel rules api w = Some (Fulfilled output, w'))
  /\ (forall fuel rules w res w',
        gatherDependencies fuel rules api w = Some (res, w') ->
        depth_bounded api fuel rules)
  /\ (forall rules w,
        (forall n, ~ depth_bounded api n rules) ->
        forall fuel, gatherDependencies fuel rules api w = None).
Proof.
  intros state Hmods.
  assert (Hfulfilled : forall fuel rules w res w',
      gatherDependencies fuel rules api w = Some (res, w') ->
      exists output, res = Fulfilled output).
  { intros fuel rules w res w' Hrun.
    destruct (gatherDependencies_gathered api Hmods fuel rules w res w' Hrun)
      as (output & -> & _).
    eauto. }
  split; [exact Hfulfilled|]. split.
  - intros recurse total rule rest w err Hfind Hfail logged.
    assert (Hstep : gather_step recurse api state total rule w
                    = Some (Fulfilled total, logged)).
    { apply gather_step_outcome. unfold lookup_failure in Hfail.
      destruct (lookupModReference_reply api (rule_reference rule))
        as [details|e] eqn:Hreply.
      - destruct (head details ≫= lr_value) eqn:Hvalue; [discriminate Hfail|].
        injection Hfail as <-. eapply step_not_found; eassumption.
      - injection Hfail as <-. apply step_lookup_rejected; assumption. }
    split; [exact Hstep|].
    simpl. unfold then_ at 1. rewrite Hstep. reflexivity.
  - split; [|split].
    + intros n fuel rules w Hdepth Hle.
      destruct (gatherDependencies_settles api n rules Hdepth w)
        as (res & w' & Hrun).
      destruct (Hfulfilled _ _ _ _ _ Hrun) as (output & ->).
      exists output, w'. eapply gatherDependencies_fuel_le; eassumption.
    + intros fuel rules w res w' Hrun.
      eapply (gatherDependencies_bounded api fuel Hmods), Hrun.
    + intros rules w Hunbounded fuel.
      destruct (gatherDependencies fuel rules api w) as [r|] eqn:Hrun;
        [|reflexivity].
      exfalso. apply (Hunbounded fuel).
      eapply (gatherDependencies_bounded api fuel Hmods), Hrun.
Qed.

Lemma gatherDependencies_soft_failure_witness :
  (exists output w',
      @gatherDependencies Sample.imports 1
        (Some [MkRule requires Scenario.ref_core]) NoLookup.api (MkWorld 0 [])
      = Some (Fulfilled output, w'))
  /\ @depth_bounded Sample.imports NoLookup.api 1
       (Some [MkRule requires Scenario.ref_core])
  /\ @gatherDependencies Sample.imports 3 (Some [Cycle.rule]) Cycle.api
       (MkWorld 0 []) = None.
Proof.
  assert (Hmods : forall api : @IExtensionApi Sample.imports,
    @store_getState Sample.imports api
    = @MkState Sample.imports "skyrim" {[ "skyrim" := [] ]} [] ->
    is_Some (@st_mods Sample.imports (@store_getState Sample.imports api)
               !! @activeGameId Sample.imports
                    (@store_getState Sample.imports api))).
  { intros api ->. vm_compute. eauto. }
  destruct (@gatherDependencies_soft_failure Sample.imports NoLookup.api
              (Hmods NoLookup.api eq_refl)) as (_ & _ & Hsettles & Hbounded & _).
  destruct (@gatherDependencies_soft_failure Sample.imports Cycle.api
              (Hmods Cycle.api eq_refl)) as (_ & _ & _ & _ & Hnever).
  assert (Hrun : exists output w',
    @gatherDependencies Sample.imports 1
      (Some [MkRule requires Scenario.ref_core]) NoLookup.api (MkWorld 0 [])
    = Some (Fulfilled output, w')).
  { apply (Hsettles 1%nat); [|lia].
    constructor. intros rule details v _ _ Hreply. discriminate Hreply. }
  split; [exact Hrun|]. split.
  - destruct Hrun as (output & w' & Hrun). eapply Hbounded, Hrun.
  - apply Hnever. intros n. induction n as [|n IH]; intros Hdepth.
    + inversion Hdepth.
    + inversion Hdepth as [n' rules Hnested]; subst. apply IH.
      apply (Hnested Cycle.rule [MkLookupResult "core" (Some Cycle.value)]
               Cycle.value).
      * left.
      * vm_compute. reflexivity.
      * reflexivity.
      * reflexivity.
Defined.

(** C3, as stated, fails: when the candidate found for a requirement
    requires that same reference again, [gatherDependencies] calls itself
    without end and its promise never settles, with a list or otherwise. *)
Lemma gatherDependencies_cycle_never_settles :
  ~ exists fuel res w',
      @gatherDependencies Sample.imports fuel (Some [Cycle.rule]) Cycle.api
        (MkWorld 0 [])
      = Some (res, w').
Proof.
  assert (Hnever : forall fuel w,
    @gatherDependencies Sample.imports fuel (Some [Cycle.rule]) Cycle.api w = None).
  { induction fuel as [|fuel IH]; intros w; [reflexivity|].
    rewrite gatherDependencies_S.
    change (requirements_of (Some [Cycle.rule])) with [Cycle.rule].
    simpl Promise_reduce. unfold then_ at 1 2.
    destruct (gather_step _ _ _ _ _ w) as [[res w1]|] eqn:Hstep; [|reflexivity].
    exfalso. apply gather_step_outcome in Hstep.
    destruct Hstep as [e Hfind | m Hfind | e Hfind Hreply
                      | details Hfind Hreply Hnone
                      | details v e w2 Hfind Hreply Hsome Hrec
                      | details v deps w2 Hfind Hreply Hsome Hrec].
    - vm_compute in Hfind. discriminate Hfind.
    - vm_compute in Hfind. discriminate Hfind.
    - discriminate Hreply.
    - injection Hreply as <-. discriminate Hnone.
    - injection Hreply as <-. injection Hsome as <-.
      change (val_rules Cycle.value) with (Some [Cycle.rule]) in Hrec.
      rewrite IH in Hrec. discriminate Hrec.
    - injection Hreply as <-. injection Hsome as <-.
      change (val_rules Cycle.value) with (Some [Cycle.rule]) in Hrec.
      rewrite IH in Hrec. discriminate Hrec. }
  intros (fuel & res & w' & Hrun). rewrite Hnever in Hrun. discriminate Hrun.
Qed.

(** Without an entry for the active game in [state.persistent.mods] the
    first requirement makes [Object.values] throw, and the promise is
    rejected. *)
Lemma gatherDependencies_no_mods_rejected (w : World) :
  @gatherDependencies Sample.imports 1 (Some [MkRule requires Scenario.ref_core])
    NoMods.api w
  = Some (Rejected TypeError_convert, w).
Proof. reflexivity. Qed.

(** §8, end to end: the lookup rejects; [resolve] is fulfilled with the
    empty list and the failure is logged. *)
Example gatherDependencies_lookup_rejected :
  @gatherDependencies Sample.imports 1 (Some [MkRule requires Scenario.ref_core])
    NoLookup.api (MkWorld 0 [])
  = Some (Fulfilled [],
          MkWorld 0 [EvLookup Scenario.ref_core;
                     EvLog "error" "failed to look up" "connect ECONNREFUSED"]).
Proof. reflexivity. Qed.

(** C5. A requirement whose reference matches an installed mod leaves the
    running list and the world as they are: nothing is looked up and
    nothing is logged for it.  A rule list with only such a rule resolves
    to the empty list in an unchanged world, and in no run is a reference
    that an installed mod matches ever passed to [lookupModReference]. *)
Theorem gatherDependencies_installed `{Imports} (api : IExtensionApi) :
  let state := store_getState api in
  (forall recurse total rule w m,
      findModByRef (rule_reference rule) state = Ok (Some m) ->
      gather_step recurse api state total rule w = Some (Fulfilled total, w))
  /\ (forall fuel rule w m,
        rule_type rule = requires ->
        findModByRef (rule_reference rule) state = Ok (Some m) ->
        gatherDependencies (S fuel) (Some [rule]) api w = Some (Fulfilled [], w))
  /\ (forall fuel rules w res w' reference m,
        gatherDependencies fuel rules api w = Some (res, w') ->
        findModByRef reference state = Ok (Some m) ->
        EvLookup reference ∈ events w' ->
        EvLookup reference ∈ events w).
Proof.
  intros state.
  assert (Hstep : forall recurse total rule w m,
      findModByRef (rule_reference rule) state = Ok (Some m) ->
      gather_step recurse api state total rule w = Some (Fulfilled total, w)).
  { intros recurse total rule w m Hfind.
    apply gather_step_outcome. eapply step_installed, Hfind. }
  split; [exact Hstep|]. split.
  - intros fuel rule w m Htype Hfind.
    rewrite gatherDependencies_S. unfold requirements_of. simpl List.filter.
    rewrite (bool_decide_eq_true_2 _ Htype). simpl Promise_reduce.
    unfold then_ at 1 2. fold state. rewrite (Hstep _ _ _ _ m Hfind).
    reflexivity.
  - intros fuel rules w res w' reference m Hrun Hfind Hin.
    assert (Hmods : is_Some (st_mods state !! activeGameId state)).
    { unfold findModByRef in Hfind. fold state in Hfind.
      destruct (st_mods state !! activeGameId state); [eauto|discriminate Hfind]. }
    destruct (gatherDependencies_gathered api Hmods fuel rules w res w' Hrun)
      as (output & _ & _ & _ & Hmissed).
    destruct (Hmissed reference Hin) as [Hbefore|Hmiss]; [exact Hbefore|].
    fold state in Hmiss. rewrite Hfind in Hmiss. discriminate Hmiss.
Qed.

Lemma gatherDependencies_installed_witness :
  @gatherDependencies Sample.imports 1 (Some [Installed.rule]) Installed.api
    (MkWorld 0 [])
  = Some (Fulfilled [], MkWorld 0 []).
Proof.
  apply (@gatherDependencies_installed Sample.imports Installed.api)
    with (m := Installed.core).
  - reflexivity.
  - vm_compute. reflexivity.
Defined.

(** On values: every dependency that [gatherDependencies] returns was
    made for a requirement reachable from the rules and has that rule's
    reference, while its [download] is the one that [findDownloadByRef]
    finds with the relaxed copy, its [lookupResults] are the reply to the
    reference itself, and the search of the installed mods that missed
    was made with the relaxed copy. *)
Lemma gatherDependencies_reference_value `{Imports} (api : IExtensionApi)
    (fuel : nat) (rules : option (list IRule)) (w w' : World)
    (output : list IDependency) :
  gatherDependencies fuel rules api w = Some (Fulfilled output, w') ->
  forall d, d ∈ output ->
    exists rule,
      reachable api rules rule
      /\ dep_reference d = rule_reference rule
      /\ dep_download d
         = fst <$> head
             (Array_sort (fun lhs rhs => newerSort (snd lhs) (snd rhs))
                (List.filter (download_matches (relax (rule_reference rule)))
                   (st_downloads (store_getState api))))
      /\ lookupModReference_reply api (rule_reference rule)
         = Fulfilled (dep_lookupResults d)
      /\ exists mods,
           st_mods (store_getState api) !! activeGameId (store_getState api)
           = Some mods
           /\ List.find
                (fun m => testModReference (OfMod m) (relax (rule_reference rule)))
                (map snd mods) = None.
Proof.
  intros Hrun d Hd.
  destruct (st_mods (store_getState api) !! activeGameId (store_getState api))
    as [mods|] eqn:Hmods.
  - destruct (gatherDependencies_gathered api (mk_is_Some _ _ Hmods)
                fuel rules w _ w' Hrun) as (out & [= <-] & _ & Horigin & _).
    rewrite list.Forall_forall in Horigin.
    destruct (Horigin d Hd) as (rule & Hreach & Href & Hdl & Hreply & Hfind).
    exists rule. split; [exact Hreach|]. split; [exact Href|].
    split; [|split; [exact Hreply|]].
    + rewrite Hdl. unfold findDownloadByRef, findDownloadByRef_existing.
      rewrite findDownloadByRef_reference_relax. reflexivity.
    + exists mods. split; [reflexivity|].
      unfold findModByRef in Hfind. rewrite Hmods in Hfind.
      rewrite findModByRef_reference_download, findDownloadByRef_reference_relax
        in Hfind.
      injection Hfind as Hfind. exact Hfind.
  - rewrite (gatherDependencies_no_mods api fuel rules w output w' Hmods Hrun) in Hd.
    apply elem_of_nil in Hd. destruct Hd.
Qed.

Lemma gatherDependencies_reference_value_witness :
  @gatherDependencies Sample.imports 2 (Some [Relaxed.rule]) Relaxed.api
    (MkWorld 0 [])
  = Some (Fulfilled [Relaxed.created], MkWorld 1 [EvLookup Relaxed.reference])
  /\ @relax Sample.imports Relaxed.reference = omit_fileMD5 Relaxed.reference
  /\ dep_download Relaxed.created = Some "dl1"
  /\ exists rule,
       @reachable Sample.imports Relaxed.api (Some [Relaxed.rule]) rule
       /\ dep_reference Relaxed.created = rule_reference rule.
Proof.
  assert (Hrun :
    @gatherDependencies Sample.imports 2 (Some [Relaxed.rule]) Relaxed.api
      (MkWorld 0 [])
    = Some (Fulfilled [Relaxed.created], MkWorld 1 [EvLookup Relaxed.reference]))
    by (vm_compute; reflexivity).
  split; [exact Hrun|]. split; [vm_compute; reflexivity|].
  split; [reflexivity|].
  destruct (@gatherDependencies_reference_value Sample.imports Relaxed.api
              2 (Some [Relaxed.rule]) _ _ _ Hrun Relaxed.created)
    as (rule & Hreach & Href & _).
  - apply list_elem_of_singleton. reflexivity.
  - exists rule. split; [exact Hreach | exact Href].
Defined.

(** ** References as objects *)

Section ObjectFacts.

Context `{Imports}.

Lemma othen_Some {A B} (p : OPromise A) (k : A -> OPromise B) m res m' :
  othen p k m = Some (res, m') ->
  (exists e, p m = Some (Rejected e, m') /\ res = Rejected e)
  \/ (exists a m1, p m = Some (Fulfilled a, m1) /\ k a m1 = Some (res, m')).
Proof.
  unfold othen. destruct (p m) as [[[a|e] m1]|]; intros Hk.
  - right. exists a, m1. split; [reflexivity|exact Hk].
  - injection Hk as <- <-. left. exists e. split; reflexivity.
  - discriminate Hk.
Qed.

Lemma ocatch_Some {A} (p : OPromise A) (h : Error -> OPromise A) m res m' :
  ocatch p h m = Some (res, m') ->
  (exists a, p m = Some (Fulfilled a, m') /\ res = Fulfilled a)
  \/ (exists e m1, p m = Some (Rejected e, m1) /\ h e m1 = Some (res, m')).
Proof.
  unfold ocatch. destruct (p m) as [[[a|e] m1]|]; intros Hk.
  - injection Hk as <- <-. left. exists a. split; reflexivity.
  - right. exists e, m1. split; [reflexivity|exact Hk].
  - discriminate Hk.
Qed.

Lemma of_world_Some {A} (p : Promise A) m res m' :
  of_world p m = Some (res, m') -> m_store m' = m_store m.
Proof.
  unfold of_world. destruct (p (m_world m)) as [[r w']|]; intros Hp;
    [|discriminate Hp].
  injection Hp as <- <-. reflexivity.
Qed.

Lemma of_obj_Some {A} (o : Obj A) m res m' :
  of_obj o m = Some (res, m') ->
  exists r, o (m_store m) = (r, m_store m')
            /\ res = match r with Ok a => Fulfilled a | Throw e => Rejected e end.
Proof.
  unfold of_obj. destruct (o (m_store m)) as [[a|e] st'] eqn:Ho; intros Hp;
    injection Hp as <- <-; eexists; (split; [reflexivity|reflexivity]).
Qed.

(** *** What synchronous code does to the store *)

Lemma extends_ret {A} (a : A) : extends (obj_ret a).
Proof. intros st r st' [= <- <-]. reflexivity. Qed.

Lemma extends_throw {A} e : extends (@obj_throw A e).
Proof. intros st r st' [= <- <-]. reflexivity. Qed.

Lemma extends_read reference : extends (read reference).
Proof.
  intros st r st'. unfold read.
  destruct (st !! reference); intros [= <- <-]; reflexivity.
Qed.

Lemma extends_allocate origin r : extends (allocate origin r).
Proof. intros st a st' [= <- <-]. apply prefix_app_r. reflexivity. Qed.

Lemma extends_bind {A B} (o : Obj A) (k : A -> Obj B) :
  extends o -> (forall a, extends (k a)) -> extends (obj_bind o k).
Proof.
  intros Ho Hk st r st'. unfold obj_bind.
  destruct (o st) as [[a|e] st1] eqn:Hrun; intros Hr.
  - etransitivity; [exact (Ho _ _ _ Hrun)|exact (Hk _ _ _ _ Hr)].
  - injection Hr as <- <-. exact (Ho _ _ _ Hrun).
Qed.

Lemma extends_omit reference : extends (omit_fileMD5_obj reference).
Proof.
  apply extends_bind; [apply extends_read|intros r; apply extends_allocate].
Qed.

Lemma extends_findModByRef reference state :
  extends (findModByRef_obj reference state).
Proof.
  unfold findModByRef_obj.
  apply extends_bind; [apply extends_read|intros r].
  apply extends_bind.
  - destruct (_ && _); [apply extends_omit|apply extends_ret].
  - intros reference'. destruct (st_mods state !! activeGameId state).
    + apply extends_bind; [apply extends_read|intros r'; apply extends_ret].
    + apply extends_throw.
Qed.

Lemma extends_findDownloadByRef reference state :
  extends (findDownloadByRef_obj reference state).
Proof.
  unfold findDownloadByRef_obj.
  apply extends_bind; [apply extends_read|intros r].
  apply extends_bind.
  - destruct (_ && _); [apply extends_omit|apply extends_ret].
  - intros reference'.
    apply extends_bind; [apply extends_read|intros r'; apply extends_ret].
Qed.

Lemma extends_materialize_list rules : extends (materialize_list rules).
Proof.
  induction rules as [|rule rest IH]; simpl.
  - apply extends_ret.
  - apply extends_bind; [apply extends_allocate|intros reference].
    apply extends_bind; [exact IH|intros rest'; apply extends_ret].
Qed.

Lemma extends_materialize rules : extends (materialize rules).
Proof.
  destruct rules as [rules|]; simpl; [|apply extends_ret].
  apply extends_bind; [apply extends_materialize_list|].
  intros objs. apply extends_ret.
Qed.

(** *** The finders on the content of the object *)

Lemma read_Some st reference c :
  st !! reference = Some c -> read reference st = (Ok (cell_value c), st).
Proof. intros Hc. unfold read. rewrite Hc. reflexivity. Qed.

Lemma read_new st c : read (length st) (st ++ [c]) = (Ok (cell_value c), st ++ [c]).
Proof.
  apply read_Some. apply list_lookup_middle. reflexivity.
Qed.

Lemma relaxes_condition r :
  isFuzzyVersion (ref_versionMatch r)
  && defined (ref_fileMD5 r)
  && (defined (ref_logicalFileName r) || defined (ref_fileExpression r))
  = bool_decide (relaxes r).
Proof.
  destruct (decide (relaxes r)) as [Hr|Hr].
  - rewrite (bool_decide_eq_true_2 _ Hr). destruct Hr as (-> & Hmd5 & Hname).
    destruct (ref_fileMD5 r) as [md5|]; [|destruct Hmd5; reflexivity].
    destruct (ref_logicalFileName r) as [lfn|]; [reflexivity|].
    destruct (ref_fileExpression r) as [fe|]; [reflexivity|].
    destruct Hname as [Hn|Hn]; destruct Hn; reflexivity.
  - rewrite (bool_decide_eq_false_2 _ Hr). apply not_true_is_false.
    intros Hc. apply Hr.
    apply andb_prop in Hc as [Hc Hname]. apply andb_prop in Hc as [Hf Hmd5].
    split; [exact Hf|]. split.
    + destruct (ref_fileMD5 r); [discriminate|discriminate Hmd5].
    + destruct (ref_logicalFileName r); [left; discriminate|].
      destruct (ref_fileExpression r); [right; discriminate|discriminate Hname].
Qed.

Lemma relaxes_condition_mod r :
  defined (ref_versionMatch r)
  && isFuzzyVersion (ref_versionMatch r)
  && defined (ref_fileMD5 r)
  && (defined (ref_logicalFileName r) || defined (ref_fileExpression r))
  = bool_decide (relaxes r).
Proof.
  rewrite <- relaxes_condition.
  destruct (ref_versionMatch r) as [vm|]; reflexivity.
Qed.

Lemma findDownloadByRef_obj_content reference state st c :
  st !! reference = Some c ->
  findDownloadByRef_obj reference state st
  = (Ok (findDownloadByRef (cell_value c) state),
     st ++ relaxed_copy (cell_value c)).
Proof.
  intros Hc. unfold findDownloadByRef_obj, obj_bind at 1.
  rewrite (read_Some _ _ _ Hc).
  unfold findDownloadByRef, findDownloadByRef_existing,
    findDownloadByRef_reference, relaxed_copy.
  rewrite relaxes_condition. destruct (decide (relaxes (cell_value c))) as [Hr|Hr].
  - rewrite (bool_decide_eq_true_2 _ Hr).
    unfold obj_bind, omit_fileMD5_obj, obj_bind, allocate.
    rewrite (read_Some _ _ _ Hc), read_new. reflexivity.
  - rewrite (bool_decide_eq_false_2 _ Hr).
    unfold obj_bind, obj_ret. rewrite (read_Some _ _ _ Hc), app_nil_r.
    reflexivity.
Qed.

Lemma findModByRef_obj_content reference state st c :
  st !! reference = Some c ->
  findModByRef_obj reference state st
  = (findModByRef (cell_value c) state, st ++ relaxed_copy (cell_value c)).
Proof.
  intros Hc. unfold findModByRef_obj, obj_bind at 1.
  rewrite (read_Some _ _ _ Hc).
  unfold findModByRef, findModByRef_reference, relaxed_copy.
  rewrite relaxes_condition_mod.
  destruct (decide (relaxes (cell_value c))) as [Hr|Hr].
  - rewrite (bool_decide_eq_true_2 _ Hr).
    unfold obj_bind, omit_fileMD5_obj, obj_bind, allocate.
    rewrite (read_Some _ _ _ Hc).
    destruct (st_mods state !! activeGameId state); [|reflexivity].
    rewrite read_new. reflexivity.
  - rewrite (bool_decide_eq_false_2 _ Hr).
    unfold obj_bind, obj_ret. rewrite app_nil_r.
    destruct (st_mods state !! activeGameId state); [|reflexivity].
    rewrite (read_Some _ _ _ Hc). reflexivity.
Qed.

End ObjectFacts.

(** *** What a promise does to the store *)

Section ObjectFrame.

Context `{Imports}.

Lemma oextends_resolve {A} (a : A) : oextends (oresolve a).
Proof. intros m res m' [= <- <-]. reflexivity. Qed.

Lemma oextends_reject {A} e : oextends (@oreject A e).
Proof. intros m res m' [= <- <-]. reflexivity. Qed.

Lemma oextends_never {A} : oextends (@onever A).
Proof. intros m res m' Hn. discriminate Hn. Qed.

Lemma oextends_then {A B} (p : OPromise A) (k : A -> OPromise B) :
  oextends p -> (forall a, oextends (k a)) -> oextends (othen p k).
Proof.
  intros Hp Hk m res m' Hrun.
  destruct (othen_Some _ _ _ _ _ Hrun) as [(e & Hpm & _)|(a & m1 & Hpm & Hkm)].
  - exact (Hp _ _ _ Hpm).
  - etransitivity; [exact (Hp _ _ _ Hpm)|exact (Hk _ _ _ _ Hkm)].
Qed.

Lemma oextends_catch {A} (p : OPromise A) (h : Error -> OPromise A) :
  oextends p -> (forall e, oextends (h e)) -> oextends (ocatch p h).
Proof.
  intros Hp Hh m res m' Hrun.
  destruct (ocatch_Some _ _ _ _ _ Hrun) as [(a & Hpm & _)|(e & m1 & Hpm & Hhm)].
  - exact (Hp _ _ _ Hpm).
  - etransitivity; [exact (Hp _ _ _ Hpm)|exact (Hh _ _ _ _ Hhm)].
Qed.

Lemma oextends_of_world {A} (p : Promise A) : oextends (of_world p).
Proof.
  intros m res m' Hrun. rewrite (of_world_Some _ _ _ _ Hrun). reflexivity.
Qed.

Lemma oextends_of_obj {A} (o : Obj A) : extends o -> oextends (of_obj o).
Proof.
  intros Ho m res m' Hrun.
  destruct (of_obj_Some _ _ _ _ Hrun) as (r & Hr & _). exact (Ho _ _ _ Hr).
Qed.

Lemma oextends_reduce {A B} (l : list A) (reducer : B -> A -> OPromise B) :
  (forall total x, oextends (reducer total x)) ->
  forall total, oextends (OPromise_reduce l reducer total).
Proof.
  intros Hstep. induction l as [|x l IH]; simpl; intros total.
  - apply oextends_resolve.
  - apply oextends_then; [apply Hstep|exact IH].
Qed.

Lemma oextends_lookupModReference api reference :
  oextends (lookupModReference_obj api reference).
Proof.
  apply oextends_then.
  - apply oextends_of_obj, extends_read.
  - intros r. apply oextends_of_world.
Qed.

Lemma oextends_gather_step recurse api state total rule :
  (forall rules, oextends (recurse rules)) ->
  oextends (gather_step_obj recurse api state total rule).
Proof.
  intros Hrec. unfold gather_step_obj.
  apply oextends_then; [apply oextends_of_obj, extends_findModByRef|].
  intros found. destruct (defined found); [apply oextends_resolve|].
  apply oextends_catch.
  - apply oextends_then.
    + apply oextends_then; [apply oextends_lookupModReference|].
      intros [|d0 details]; [apply oextends_reject|].
      destruct (lr_value d0) as [v|]; [|apply oextends_reject].
      apply oextends_then; [apply oextends_of_obj, extends_materialize|].
      intros rules'. apply oextends_then; [apply Hrec|].
      intros dependencies. apply oextends_resolve.
    + intros [lookupDetails dependencies].
      apply oextends_then; [apply oextends_of_obj, extends_findDownloadByRef|].
      intros download. apply oextends_then; [apply oextends_of_world|].
      intros addr. apply oextends_resolve.
  - intros err. apply oextends_then; [apply oextends_of_world|].
    intros _. apply oextends_resolve.
Qed.

Lemma oextends_gatherDependencies fuel api :
  forall rules, oextends (gatherDependencies_obj fuel rules api).
Proof.
  induction fuel as [|fuel IH]; intros rules; simpl.
  - apply oextends_never.
  - apply oextends_then.
    + apply oextends_reduce. intros total rule.
      apply oextends_gather_step. exact IH.
    + intros input. apply oextends_of_obj.
      intros st r st' [= _ <-]. reflexivity.
Qed.

End ObjectFrame.

(** *** The references of the returned dependencies *)

Section ObjectRun.

Context `{Imports} (api : IExtensionApi).

Lemma OPromise_reduce_post {A B} (I : B -> Machine -> Prop)
    (l : list A) (reducer : B -> A -> OPromise B) :
  (forall x total m total' m',
      x ∈ l -> I total m -> reducer total x m = Some (Fulfilled total', m') ->
      I total' m') ->
  forall total m output m',
    I total m -> OPromise_reduce l reducer total m = Some (Fulfilled output, m') ->
    I output m'.
Proof.
  induction l as [|x l IH]; intros Hstep total m output m' HI Hrun.
  - injection Hrun as <- <-. exact HI.
  - simpl in Hrun.
    destruct (othen_Some _ _ _ _ _ Hrun)
      as [(e & _ & [=])|(total1 & m1 & Hx & Hrest)].
    eapply IH; [|eapply Hstep; [left|exact HI|exact Hx]|exact Hrest].
    intros x' t' mx t'' mx' Hin. apply Hstep. right. exact Hin.
Qed.

Lemma carries_reference_mono rules st st1 st2 d :
  st1 `prefix_of` st2 ->
  carries_reference api rules st st1 d -> carries_reference api rules st st2 d.
Proof.
  intros Hpre (c & Hc & Horigin & Hrest). exists c.
  split; [exact (prefix_lookup_Some _ _ _ _ Hc Hpre)|].
  split; [exact Horigin|exact Hrest].
Qed.

(** The objects made for the rules of a lookup result are new and
    [Supplied]. *)
Lemma materialize_list_supplied rules st r st' :
  materialize_list rules st = (r, st') ->
  exists objs,
    r = Ok objs
    /\ forall o, o ∈ objs ->
         (length st <= robj_reference o)%nat
         /\ exists c, st' !! robj_reference o = Some c /\ cell_origin c = Supplied.
Proof.
  revert st r st'. induction rules as [|rule rest IH]; simpl; intros st r st' Hrun.
  - injection Hrun as <- <-. exists []. split; [reflexivity|].
    intros o Ho. apply elem_of_nil in Ho. destruct Ho.
  - unfold obj_bind at 1, allocate in Hrun. unfold obj_bind at 1 in Hrun.
    destruct (materialize_list rest (st ++ [MkCell Supplied (rule_reference rule)]))
      as [r1 st1] eqn:Hrest.
    pose proof (extends_materialize_list _ _ _ _ Hrest) as Hpre.
    destruct (IH _ _ _ Hrest) as (objs & -> & Hobjs).
    injection Hrun as <- <-. eexists. split; [reflexivity|].
    intros o Ho. apply elem_of_cons in Ho as [->|Ho]; simpl.
    + split; [reflexivity|].
      exists (MkCell Supplied (rule_reference rule)). split; [|reflexivity].
      eapply prefix_lookup_Some; [|exact Hpre].
      apply list_lookup_middle. reflexivity.
    + destruct (Hobjs o Ho) as (Hle & Hc). split; [|exact Hc].
      rewrite length_app in Hle. simpl in Hle. lia.
Qed.

Lemma materialize_supplied rules st r st' :
  materialize rules st = (r, st') ->
  exists objs,
    r = Ok objs
    /\ forall o, o ∈ requirements_obj objs ->
         (length st <= robj_reference o)%nat
         /\ exists c, st' !! robj_reference o = Some c /\ cell_origin c = Supplied.
Proof.
  destruct rules as [rules|]; simpl; intros Hrun.
  - unfold obj_bind in Hrun.
    destruct (materialize_list rules st) as [r1 st1] eqn:Hlist.
    destruct (materialize_list_supplied _ _ _ _ Hlist) as (objs & -> & Hobjs).
    injection Hrun as <- <-. exists (Some objs). split; [reflexivity|].
    intros o Ho. apply Hobjs. simpl in Ho.
    apply list_elem_of_In, filter_In in Ho. destruct Ho as [Ho _].
    apply list_elem_of_In. exact Ho.
  - injection Hrun as <- <-. exists None. split; [reflexivity|].
    intros o Ho. apply elem_of_nil in Ho. destruct Ho.
Qed.

(** A dependency of a nested call points to an object that came with a
    lookup result. *)
Lemma carries_reference_nested rules rules' st0 st1 st2 d :
  (forall o, o ∈ requirements_obj rules' ->
     (length st0 <= robj_reference o)%nat
     /\ exists c, st1 !! robj_reference o = Some c /\ cell_origin c = Supplied) ->
  (length st0 <= length st1)%nat ->
  carries_reference api rules' st1 st2 d ->
  carries_reference api rules st0 st2 d.
Proof.
  intros Hnew Hlen (c & Hc & Horigin & Hrest). exists c.
  split; [exact Hc|]. split; [|exact Hrest]. right.
  destruct Horigin as [(rule & Hin & <- & Hc1)|(Hle & Hs)].
  - destruct (Hnew rule Hin) as (Hle & c' & Hc' & Hs).
    pose proof (eq_trans (eq_sym Hc1) Hc') as Hsame. injection Hsame as ->.
    split; [exact Hle|exact Hs].
  - split; [lia|exact Hs].
Qed.

Lemma lookupModReference_obj_reply reference m details m' :
  lookupModReference_obj api reference m = Some (Fulfilled details, m') ->
  exists c,
    m_store m !! reference = Some c
    /\ lookupModReference_reply api (cell_value c) = Fulfilled details.
Proof.
  unfold lookupModReference_obj. intros Hrun.
  destruct (othen_Some _ _ _ _ _ Hrun) as [(e & _ & [=])|(r & m1 & Hread & Hreply)].
  unfold of_obj, read in Hread.
  destruct (m_store m !! reference) as [c|]; [|discriminate Hread].
  injection Hread as <- <-. exists c. split; [reflexivity|].
  unfold of_world, lookupModReference, then_, emit in Hreply. simpl in Hreply.
  injection Hreply as Hreply _. exact Hreply.
Qed.

Lemma gather_step_obj_carries recurse rules st0 total rule m total' m' :
  (forall rules', oextends (recurse rules')) ->
  (forall rules' m1 output m2,
      recurse rules' m1 = Some (Fulfilled output, m2) ->
      allocated (m_store m1) rules' ->
      Forall (carries_reference api rules' (m_store m1) (m_store m2)) output) ->
  rule ∈ requirements_obj rules ->
  allocated st0 rules ->
  st0 `prefix_of` m_store m ->
  Forall (carries_reference api rules st0 (m_store m)) total ->
  gather_step_obj recurse api (store_getState api) total rule m
  = Some (Fulfilled total', m') ->
  Forall (carries_reference api rules st0 (m_store m')) total'.
Proof.
  intros Hframe Hrec Hrule Halloc Hpre Htotal Hrun.
  pose proof (oextends_gather_step recurse api (store_getState api) total rule
                Hframe _ _ _ Hrun) as Hstep.
  assert (Hkept : Forall (carries_reference api rules st0 (m_store m')) total).
  { eapply list.Forall_impl; [exact Htotal|].
    intros d. apply carries_reference_mono. exact Hstep. }
  unfold gather_step_obj in Hrun.
  destruct (othen_Some _ _ _ _ _ Hrun)
    as [(e & _ & [=])|(found & ma & Hfind & Hnext)].
  pose proof (oextends_of_obj _ (extends_findModByRef _ _) _ _ _ Hfind) as Hma.
  destruct (defined found).
  { injection Hnext as <- _. exact Hkept. }
  destruct (ocatch_Some _ _ _ _ _ Hnext)
    as [(out & Hinner & [= <-])|(e & mx & _ & Hlog)].
  2:{ destruct (othen_Some _ _ _ _ _ Hlog)
        as [(e' & _ & [=])|([] & my & _ & Hres)].
      injection Hres as <- _. exact Hkept. }
  destruct (othen_Some _ _ _ _ _ Hinner)
    as [(e & _ & [=])|([lookupDetails dependencies] & mb & Hgather & Hmake)].
  destruct (othen_Some _ _ _ _ _ Hgather)
    as [(e & _ & [=])|(details & mc & Hlookup & Hdetails)].
  pose proof (oextends_lookupModReference _ _ _ _ _ Hlookup) as Hmc.
  destruct (lookupModReference_obj_reply _ _ _ _ Hlookup) as (c & Hc & Hreply).
  destruct details as [|d0 details]; [discriminate Hdetails|].
  destruct (lr_value d0) as [v|]; [|discriminate Hdetails].
  destruct (othen_Some _ _ _ _ _ Hdetails)
    as [(e & _ & [=])|(rules' & md & Hmat & Hnested)].
  destruct (of_obj_Some _ _ _ _ Hmat) as (r & Hmat' & Hr).
  pose proof (extends_materialize _ _ _ _ Hmat') as Hmd.
  destruct (materialize_supplied _ _ _ _ Hmat') as (objs & -> & Hobjs).
  injection Hr as ->.
  destruct (othen_Some _ _ _ _ _ Hnested)
    as [(e & _ & [=])|(deps & me & Hcall & Hpair)].
  injection Hpair as <- <- <-.
  pose proof (Hframe _ _ _ _ Hcall) as Hme.
  assert (Hdeps : Forall (carries_reference api objs (m_store md) (m_store me)) deps).
  { apply (Hrec _ _ _ _ Hcall). intros o Ho.
    destruct (Hobjs o Ho) as (_ & c' & Hc' & _). eauto. }
  destruct (othen_Some _ _ _ _ _ Hmake)
    as [(e & _ & [=])|(download & mf & Hdl & Hnew)].
  destruct (of_obj_Some _ _ _ _ Hdl) as (r & Hdl' & Hr).
  assert (Hpath : m_store ma `prefix_of` m_store me).
  { etransitivity; [exact Hmc|]. etransitivity; [exact Hmd|exact Hme]. }
  rewrite (findDownloadByRef_obj_content _ _ _ c
             (prefix_lookup_Some _ _ _ _ Hc Hpath)) in Hdl'.
  injection Hdl' as <- Hmf. injection Hr as ->.
  destruct (othen_Some _ _ _ _ _ Hnew)
    as [(e & _ & [=])|(addr & mg & Haddr & Hres)].
  pose proof (of_world_Some _ _ _ _ Haddr) as Hmg.
  injection Hres as <- <-.
  assert (Hend : m_store me `prefix_of` m_store mg).
  { rewrite Hmg, <- Hmf. apply prefix_app_r. reflexivity. }
  apply Forall_app. split; [exact Hkept|]. apply Forall_app. split.
  - eapply list.Forall_impl; [exact Hdeps|]. intros d Hd.
    apply carries_reference_mono with (st1 := m_store me); [exact Hend|].
    apply (carries_reference_nested rules objs st0 (m_store md)); [| |exact Hd].
    + intros o Ho. destruct (Hobjs o Ho) as (Hle & Hcell). split; [|exact Hcell].
      apply prefix_length in Hpre, Hma, Hmc. lia.
    + apply prefix_length in Hpre, Hma, Hmc, Hmd. lia.
  - apply Forall_singleton. exists c. simpl.
    split; [|split; [|split; [reflexivity|exact Hreply]]].
    + eapply prefix_lookup_Some; [exact Hc|].
      etransitivity; [exact Hpath|exact Hend].
    + left. exists rule. split; [exact Hrule|]. split; [reflexivity|].
      destruct (Halloc rule Hrule) as [c0 Hc0].
      pose proof (prefix_lookup_Some _ _ _ _ Hc0
                    (transitivity Hpre Hma)) as Hc0'.
      pose proof (eq_trans (eq_sym Hc) Hc0') as Hsame. injection Hsame as ->.
      exact Hc0.
Qed.

Lemma strike_obj_struck temp temp' i :
  struck_from temp temp' -> struck_from temp (strike_obj temp' i).
Proof.
  intros Hs. unfold strike_obj.
  destruct (temp' !! i) as [[e|]|]; try exact Hs.
  apply struck_from_nulls, Hs.
Qed.

Lemma strikes_obj_struck temp temp' (rounds : list nat) :
  struck_from temp temp' -> struck_from temp (foldl strike_obj temp' rounds).
Proof.
  revert temp'. induction rounds as [|i rounds IH]; simpl; intros temp' Hs.
  - exact Hs.
  - apply IH, strike_obj_struck, Hs.
Qed.

Lemma removeDuplicates_obj_submseteq st input output :
  removeDuplicates_obj st input = Ok output -> output ⊆+ input.
Proof.
  unfold removeDuplicates_obj. intros Hr.
  destruct (map_result _ input) as [temp|e] eqn:Hm; simpl in Hr;
    [|discriminate Hr].
  injection Hr as <-.
  assert (Hentry : forall d e,
             (let? c := collateral_of_obj st input d in
              Ok {| edep := d; ecollateral := c |}) = Ok e -> edep e = d).
  { intros d e. destruct (collateral_of_obj st input d); simpl; intros He;
      [|discriminate He].
    injection He as <-. reflexivity. }
  assert (Hperm : map edep (Array_sort by_collateral_obj temp) ≡ₚ input).
  { rewrite Array_sort_perm.
    rewrite (map_result_section _ edep _ _ Hentry Hm). reflexivity. }
  rewrite <- Hperm.
  apply sublist_submseteq, (fmap_sublist edep).
  pose proof (struck_from_sublist (map Some (Array_sort by_collateral_obj temp))
                (foldl strike_obj (map Some (Array_sort by_collateral_obj temp))
                   (seq 0 (length (Array_sort by_collateral_obj temp))))
                (strikes_obj_struck _ _ _ (struck_from_refl _))) as Hsub.
  rewrite omap_id_Some in Hsub. exact Hsub.
Qed.

Lemma gatherDependencies_obj_carries fuel :
  forall rules m output m',
    gatherDependencies_obj fuel rules api m = Some (Fulfilled output, m') ->
    allocated (m_store m) rules ->
    Forall (carries_reference api rules (m_store m) (m_store m')) output.
Proof.
  induction fuel as [|fuel IH]; intros rules m output m' Hrun Halloc;
    [discriminate Hrun|].
  simpl in Hrun.
  destruct (othen_Some _ _ _ _ _ Hrun)
    as [(e & _ & [=])|(input & m1 & Hreduce & Hdedupe)].
  unfold of_obj in Hdedupe.
  destruct (removeDuplicates_obj (m_store m1) input) as [out|e] eqn:Hout;
    [|discriminate Hdedupe].
  injection Hdedupe as <- <-. simpl.
  assert (HI : m_store m `prefix_of` m_store m1
               /\ Forall (carries_reference api rules (m_store m) (m_store m1))
                    input).
  { refine (OPromise_reduce_post
             (fun total mx =>
                m_store m `prefix_of` m_store mx
                /\ Forall (carries_reference api rules (m_store m) (m_store mx))
                     total)
             _ _ _ [] m input m1 _ Hreduce).
    - intros rule total mx total' mx' Hrule [Hpre Htotal] Hstep. split.
      + etransitivity; [exact Hpre|].
        exact (oextends_gather_step _ _ _ _ _
                 (oextends_gatherDependencies fuel api) _ _ _ Hstep).
      + eapply gather_step_obj_carries; try eassumption.
        * apply oextends_gatherDependencies.
        * exact IH.
    - split; [reflexivity|constructor]. }
  destruct HI as [_ Hinput].
  rewrite list.Forall_forall in Hinput. apply list.Forall_forall.
  intros d Hd. apply Hinput.
  exact (elem_of_submseteq _ _ _ Hd (removeDuplicates_obj_submseteq _ _ _ Hout)).
Qed.

End ObjectRun.

(** *** The run on objects and the run on values *)

Section ResultFacts.

Context {A B A' B' : Type}.

Lemma filter_result_fmap (p : A' -> result bool) (q : A -> result bool)
    (g : A -> A') l :
  (forall x, x ∈ l -> p (g x) = q x) ->
  filter_result p (map g l)
  = match filter_result q l with
    | Ok kept => Ok (map g kept)
    | Throw e => Throw e
    end.
Proof.
  induction l as [|x l IH]; intros Hpq; simpl; [reflexivity|].
  rewrite (Hpq x) by left.
  rewrite IH by (intros y Hy; apply Hpq; right; exact Hy).
  destruct (q x) as [[|]|e]; simpl; [| |reflexivity];
    destruct (filter_result q l); reflexivity.
Qed.

Lemma map_result_fmap (F : A' -> result B') (G : A -> result B)
    (g : A -> A') (h : B -> B') l :
  (forall x, x ∈ l ->
     F (g x) = match G x with Ok y => Ok (h y) | Throw e => Throw e end) ->
  map_result F (map g l)
  = match map_result G l with
    | Ok ys => Ok (map h ys)
    | Throw e => Throw e
    end.
Proof.
  induction l as [|x l IH]; intros HFG; simpl; [reflexivity|].
  rewrite (HFG x) by left.
  rewrite IH by (intros y Hy; apply HFG; right; exact Hy).
  destruct (G x) as [y|e]; simpl; [|reflexivity].
  destruct (map_result G l); reflexivity.
Qed.

Lemma sort_insert_fmap (cmp : A' -> A' -> Z) (cmp' : A -> A -> Z)
    (g : A -> A') x l :
  (forall a b, cmp (g a) (g b) = cmp' a b) ->
  sort_insert cmp (g x) (map g l) = map g (sort_insert cmp' x l).
Proof.
  intros Hcmp. induction l as [|y l IH]; simpl; [reflexivity|].
  rewrite Hcmp. destruct (cmp' x y <=? 0); simpl; [reflexivity|].
  rewrite IH. reflexivity.
Qed.

Lemma Array_sort_fmap (cmp : A' -> A' -> Z) (cmp' : A -> A -> Z)
    (g : A -> A') l :
  (forall a b, cmp (g a) (g b) = cmp' a b) ->
  Array_sort cmp (map g l) = map g (Array_sort cmp' l).
Proof.
  intros Hcmp. unfold Array_sort. induction l as [|x l IH]; simpl; [reflexivity|].
  rewrite IH. apply sort_insert_fmap, Hcmp.
Qed.

Lemma nulls_fmap (g : A -> A') (temp : list (option A)) (idxs : list nat) :
  foldl (fun t idx => <[idx := None]> t) (map (fmap g) temp) idxs
  = map (fmap g) (foldl (fun t idx => <[idx := None]> t) temp idxs).
Proof.
  revert temp. induction idxs as [|idx idxs IH]; intros temp; simpl;
    [reflexivity|].
  rewrite <- IH. f_equal.
  exact (eq_sym (list_fmap_insert (fmap g) temp idx None)).
Qed.

Lemma omap_id_fmap (g : A -> A') (temp : list (option A)) :
  omap id (map (fmap g) temp) = map g (omap id temp).
Proof.
  induction temp as [|[x|] temp IH]; [reflexivity| |exact IH].
  change (g x :: omap id (map (fmap g) temp) = g x :: map g (omap id temp)).
  rewrite IH. reflexivity.
Qed.

End ResultFacts.

Section ObjectContent.

Context `{Imports} (api : IExtensionApi).

Lemma of_world_run {A} (p : Promise A) m res m' :
  of_world p m = Some (res, m') ->
  m_store m' = m_store m /\ p (m_world m) = Some (res, m_world m').
Proof.
  unfold of_world. destruct (p (m_world m)) as [[r w']|]; intros Hp;
    [|discriminate Hp].
  injection Hp as <- <-. split; reflexivity.
Qed.

Lemma of_obj_run {A} (o : Obj A) m res m' :
  of_obj o m = Some (res, m') ->
  m_world m' = m_world m
  /\ exists r, o (m_store m) = (r, m_store m')
               /\ res = match r with Ok a => Fulfilled a | Throw e => Rejected e end.
Proof.
  unfold of_obj. destruct (o (m_store m)) as [[a|e] st'] eqn:Ho; intros Hp;
    injection Hp as <- <-; (split; [reflexivity|]); eexists;
    (split; [reflexivity|reflexivity]).
Qed.

Lemma content_Some (st : Store) reference c :
  st !! reference = Some c -> content st reference = cell_value c.
Proof. intros Hc. unfold content. rewrite Hc. reflexivity. Qed.

Lemma content_prefix (st st' : Store) reference :
  st `prefix_of` st' -> is_Some (st !! reference) ->
  content st' reference = content st reference.
Proof.
  intros Hpre [c Hc].
  rewrite (content_Some _ _ _ Hc).
  apply content_Some. exact (prefix_lookup_Some _ _ _ _ Hc Hpre).
Qed.

Lemma dependencies_of_prefix (st st' : Store) deps :
  st `prefix_of` st' -> present st deps ->
  map (dependency_of st') deps = map (dependency_of st) deps.
Proof.
  intros Hpre Hdeps. induction Hdeps as [|d deps Hd _ IH]; simpl; [reflexivity|].
  rewrite IH. unfold dependency_of. rewrite (content_prefix _ _ _ Hpre Hd).
  reflexivity.
Qed.

Lemma present_prefix (st st' : Store) deps :
  st `prefix_of` st' -> present st deps -> present st' deps.
Proof.
  intros Hpre Hdeps. eapply list.Forall_impl; [exact Hdeps|].
  intros d [c Hc]. exists c. exact (prefix_lookup_Some _ _ _ _ Hc Hpre).
Qed.

Lemma requirements_of_rules (st : Store) rules :
  requirements_of (rules_of st rules) = map (rule_of st) (requirements_obj rules).
Proof.
  destruct rules as [rules|]; simpl; [|reflexivity].
  induction rules as [|rule rules IH]; simpl; [reflexivity|].
  rewrite IH. destruct (bool_decide (robj_type rule = requires)); reflexivity.
Qed.

(** The objects made for the rules of a lookup result hold these rules'
    references. *)
Lemma materialize_list_content rules (st : Store) objs (st' : Store) :
  materialize_list rules st = (Ok objs, st') -> map (rule_of st') objs = rules.
Proof.
  revert st objs st'. induction rules as [|rule rest IH]; simpl;
    intros st objs st' Hrun.
  - injection Hrun as <- <-. reflexivity.
  - unfold obj_bind at 1, allocate in Hrun. unfold obj_bind at 1 in Hrun.
    destruct (materialize_list rest (st ++ [MkCell Supplied (rule_reference rule)]))
      as [[rest'|e] st1] eqn:Hrest; [|discriminate Hrun].
    injection Hrun as <- <-. simpl. rewrite (IH _ _ _ Hrest). f_equal.
    unfold rule_of. simpl.
    rewrite (content_Some st1 (length st) (MkCell Supplied (rule_reference rule))).
    + destruct rule; reflexivity.
    + eapply prefix_lookup_Some; [|exact (extends_materialize_list _ _ _ _ Hrest)].
      apply list_lookup_middle. reflexivity.
Qed.

Lemma materialize_content rules (st : Store) objs (st' : Store) :
  materialize rules st = (Ok objs, st') -> rules_of st' objs = rules.
Proof.
  destruct rules as [rules|]; simpl; intros Hrun.
  - unfold obj_bind in Hrun.
    destruct (materialize_list rules st) as [[l|e] st1] eqn:Hlist;
      [|discriminate Hrun].
    injection Hrun as <- <-. simpl.
    rewrite (materialize_list_content _ _ _ _ Hlist). reflexivity.
  - injection Hrun as <- <-. reflexivity.
Qed.

(** [removeDuplicates] on objects is [removeDuplicates] on their content. *)
Lemma is_collateral_obj_content (st : Store) d inner idx :
  is_Some (st !! dobj_reference inner) ->
  is_collateral (dependency_of st d) (dependency_of st inner, idx)
  = is_collateral_obj st d (inner, idx).
Proof.
  intros [c Hc]. unfold is_collateral, is_collateral_obj. simpl.
  rewrite Hc, (content_Some _ _ _ Hc). reflexivity.
Qed.

Lemma collateral_of_obj_content (st : Store) input d :
  present st input ->
  collateral_of (map (dependency_of st) input) (dependency_of st d)
  = collateral_of_obj st input d.
Proof.
  intros Hinput. unfold collateral_of, collateral_of_obj.
  replace (imap (fun idx item => (item, idx)) (map (dependency_of st) input))
    with (map (fun p => (dependency_of st (fst p), snd p))
              (imap (fun idx item => (item, idx)) input)).
  2:{ rewrite imap_fmap. rewrite fmap_imap. reflexivity. }
  rewrite (filter_result_fmap _ (is_collateral_obj st d)).
  - destruct (filter_result _ _) as [kept|e]; simpl; [|reflexivity].
    rewrite map_map. reflexivity.
  - intros [inner idx] Hin. simpl. apply is_collateral_obj_content.
    apply elem_of_lookup_imap in Hin as (i & y & [= <- <-] & Hy).
    unfold present in Hinput. rewrite list.Forall_forall in Hinput.
    apply Hinput. eapply list_elem_of_lookup_2, Hy.
Qed.

Lemma strike_obj_content (st : Store) temp i :
  strike (map (fmap (entry_of st)) temp) i
  = map (fmap (entry_of st)) (strike_obj temp i).
Proof.
  unfold strike, strike_obj.
  assert (Hl : map (fmap (entry_of st)) temp !! i
               = fmap (M := option) (fmap (M := option) (entry_of st)) (temp !! i))
    by exact (list_lookup_fmap _ temp i).
  rewrite Hl.
  destruct (temp !! i) as [[e|]|]; simpl; try reflexivity.
  apply nulls_fmap.
Qed.

Lemma strikes_obj_content (st : Store) temp (rounds : list nat) :
  foldl strike (map (fmap (entry_of st)) temp) rounds
  = map (fmap (entry_of st)) (foldl strike_obj temp rounds).
Proof.
  revert temp. induction rounds as [|i rounds IH]; intros temp; simpl;
    [reflexivity|].
  rewrite strike_obj_content. apply IH.
Qed.

Lemma removeDuplicates_obj_content (st : Store) input :
  present st input ->
  removeDuplicates (map (dependency_of st) input)
  = match removeDuplicates_obj st input with
    | Ok output => Ok (map (dependency_of st) output)
    | Throw e => Throw e
    end.
Proof.
  intros Hinput. unfold removeDuplicates, removeDuplicates_temp,
    removeDuplicates_obj.
  rewrite (map_result_fmap _
             (fun d => let? c := collateral_of_obj st input d in
                       Ok {| edep := d; ecollateral := c |})
             (dependency_of st) (entry_of st)).
  2:{ intros d _. rewrite (collateral_of_obj_content _ _ _ Hinput).
      destruct (collateral_of_obj st input d); reflexivity. }
  destruct (map_result _ input) as [temp|e]; simpl; [|reflexivity].
  rewrite (Array_sort_fmap by_collateral by_collateral_obj (entry_of st))
    by reflexivity.
  rewrite length_map, map_map.
  replace (map (fun x => Some (entry_of st x)) (Array_sort by_collateral_obj temp))
    with (map (fmap (entry_of st)) (map Some (Array_sort by_collateral_obj temp)))
    by (rewrite map_map; reflexivity).
  rewrite strikes_obj_content, omap_id_fmap, !map_map. reflexivity.
Qed.

Lemma lookupModReference_obj_run reference m c res m' :
  m_store m !! reference = Some c ->
  lookupModReference_obj api reference m = Some (res, m') ->
  m_store m' = m_store m
  /\ m_world m' = add_event (m_world m) (EvLookup (cell_value c))
  /\ res = lookupModReference_reply api (cell_value c).
Proof.
  intros Hc. unfold lookupModReference_obj, othen, of_obj, read.
  rewrite Hc. unfold of_world, lookupModReference, then_, emit. simpl.
  intros [= <- <-]. repeat split.
Qed.

Lemma gather_step_obj_content recurse_o recurse_v (st0 : Store) total rule
    m res m' :
  (forall rules', oextends (recurse_o rules')) ->
  (forall rules' m1 res1 m2,
      recurse_o rules' m1 = Some (res1, m2) ->
      allocated (m_store m1) rules' ->
      recurse_v (rules_of (m_store m1) rules') (m_world m1)
      = Some (settled_of (m_store m2) res1, m_world m2)) ->
  (forall rules' m1 output m2,
      recurse_o rules' m1 = Some (Fulfilled output, m2) ->
      allocated (m_store m1) rules' ->
      present (m_store m2) output) ->
  is_Some (st0 !! robj_reference rule) ->
  st0 `prefix_of` m_store m ->
  present (m_store m) total ->
  gather_step_obj recurse_o api (store_getState api) total rule m
  = Some (res, m') ->
  gather_step recurse_v api (store_getState api)
    (map (dependency_of (m_store m)) total) (rule_of st0 rule) (m_world m)
  = Some (settled_of (m_store m') res, m_world m')
  /\ forall total', res = Fulfilled total' -> present (m_store m') total'.
Proof.
  intros Hframe Hsim Hpresent [c Hc0] Hpre Htotal Hrun.
  pose proof (prefix_lookup_Some _ _ _ _ Hc0 Hpre) as Hc.
  assert (Hrule : rule_reference (rule_of st0 rule) = cell_value c)
    by exact (content_Some _ _ _ Hc0).
  pose proof (oextends_gather_step recurse_o api (store_getState api) total rule
                Hframe _ _ _ Hrun) as Hstep.
  pose proof (dependencies_of_prefix _ _ _ Hstep Htotal) as Hsame.
  pose proof (present_prefix _ _ _ Hstep Htotal) as Hkept.
  rewrite gather_step_outcome.
  unfold gather_step_obj in Hrun.
  destruct (othen_Some _ _ _ _ _ Hrun)
    as [(e & Hfind & ->)|(found & ma & Hfind & Hnext)];
    destruct (of_obj_run _ _ _ _ Hfind) as (Hwa & r & Hfind' & Hr);
    rewrite (findModByRef_obj_content _ _ _ _ Hc) in Hfind';
    injection Hfind' as <- Hma.
  { split; [|intros total' [=]]. simpl. rewrite Hwa.
    apply step_throws. rewrite Hrule.
    destruct (findModByRef (cell_value c) (store_getState api)) as [x|e'];
      [discriminate Hr|].
    injection Hr as ->. reflexivity. }
  destruct (findModByRef (cell_value c) (store_getState api)) as [x|e'] eqn:Hfound;
    [|discriminate Hr].
  injection Hr as ->.
  destruct x as [installed|]; simpl in Hnext.
  { injection Hnext as <- <-. split; [|intros total' [= <-]; exact Hkept].
    simpl. rewrite Hsame, Hwa. eapply step_installed.
    rewrite Hrule. exact Hfound. }
  assert (Hca : m_store ma !! robj_reference rule = Some c).
  { rewrite <- Hma. apply lookup_app_l_Some. exact Hc. }
  destruct (ocatch_Some _ _ _ _ _ Hnext)
    as [(out & Hinner & ->)|(e & mx & Hinner & Hlog)].
  - destruct (othen_Some _ _ _ _ _ Hinner)
      as [(e & _ & [=])|([lookupDetails dependencies] & mb & Hgather & Hmake)].
    destruct (othen_Some _ _ _ _ _ Hgather)
      as [(e & _ & [=])|(details & mc & Hlookup & Hdetails)].
    destruct (lookupModReference_obj_run _ _ _ _ _ Hca Hlookup)
      as (Hmc & Hwc & Hreply).
    destruct details as [|d0 details]; [discriminate Hdetails|].
    destruct (lr_value d0) as [v|] eqn:Hvalue; [|discriminate Hdetails].
    destruct (othen_Some _ _ _ _ _ Hdetails)
      as [(e & _ & [=])|(rules' & md & Hmat & Hnested)].
    destruct (of_obj_run _ _ _ _ Hmat) as (Hwd & r & Hmat' & Hr).
    pose proof (extends_materialize _ _ _ _ Hmat') as Hmd.
    destruct (materialize_supplied _ _ _ _ Hmat') as (objs & -> & Hobjs).
    injection Hr as ->.
    pose proof (materialize_content _ _ _ _ Hmat') as Hobjs_v.
    assert (Halloc : allocated (m_store md) objs).
    { intros o Ho. destruct (Hobjs o Ho) as (_ & c' & Hc' & _). eauto. }
    destruct (othen_Some _ _ _ _ _ Hnested)
      as [(e & _ & [=])|(deps & me & Hcall & Hpair)].
    injection Hpair as <- <- <-.
    pose proof (Hframe _ _ _ _ Hcall) as Hme.
    pose proof (Hsim _ _ _ _ Hcall Halloc) as Hcall_v.
    pose proof (Hpresent _ _ _ _ Hcall Halloc) as Hdeps.
    rewrite Hobjs_v, Hwd, Hwc, Hwa in Hcall_v. simpl in Hcall_v.
    destruct (othen_Some _ _ _ _ _ Hmake)
      as [(e & _ & [=])|(download & mf & Hdl & Hnew)].
    destruct (of_obj_run _ _ _ _ Hdl) as (Hwf & r & Hdl' & Hr).
    assert (Hce : m_store me !! robj_reference rule = Some c).
    { eapply prefix_lookup_Some; [exact Hca|]. rewrite <- Hmc.
      etransitivity; [exact Hmd|exact Hme]. }
    rewrite (findDownloadByRef_obj_content _ _ _ _ Hce) in Hdl'.
    injection Hdl' as <- Hmf. injection Hr as ->.
    destruct (othen_Some _ _ _ _ _ Hnew)
      as [(e & _ & [=])|(addr & mg & Haddr & Hres)].
    destruct (of_world_run _ _ _ _ Haddr) as (Hmg & Haddr').
    injection Hres as <- <-.
    unfold new_addr in Haddr'. injection Haddr' as <- Hwg.
    assert (Hend : m_store me `prefix_of` m_store mg).
    { rewrite Hmg, <- Hmf. apply prefix_app_r. reflexivity. }
    assert (Hcg : m_store mg !! robj_reference rule = Some c)
      by exact (prefix_lookup_Some _ _ _ _ Hce Hend).
    split.
    + assert (Hmade : forall addr download lookupDetails,
        dependency_of (m_store mg)
          (MkDependencyObj addr download (robj_reference rule) lookupDetails)
        = MkDependency addr download (rule_reference (rule_of st0 rule))
            lookupDetails).
      { intros addr download lookupDetails. unfold dependency_of.
        cbn [dobj_addr dobj_download dobj_reference dobj_lookupResults].
        rewrite Hrule, (content_Some _ _ _ Hcg). reflexivity. }
      unfold settled_of. rewrite !map_app, Hsame. cbn [map].
      rewrite (dependencies_of_prefix _ _ _ Hend Hdeps), Hmade.
      rewrite <- Hwg, Hwf. rewrite <- Hrule.
      eapply (step_resolved recurse_v api (store_getState api)
                (map (dependency_of (m_store m)) total) (rule_of st0 rule)
                (m_world m) (d0 :: details) v).
      * rewrite Hrule. exact Hfound.
      * rewrite Hrule. symmetry. exact Hreply.
      * exact Hvalue.
      * rewrite Hrule. exact Hcall_v.
    + intros total' [= <-]. apply Forall_app. split; [exact Hkept|].
      apply Forall_app. split; [exact (present_prefix _ _ _ Hend Hdeps)|].
      apply Forall_singleton. simpl. eauto.
  - destruct (othen_Some _ _ _ _ _ Hlog)
      as [(e' & Hlogged & _)|([] & my & Hlogged & Hres)];
      [unfold of_world, log, emit in Hlogged; discriminate Hlogged|].
    injection Hres as <- <-.
    destruct (of_world_run _ _ _ _ Hlogged) as (Hmy & Hlogged').
    unfold log, emit in Hlogged'. injection Hlogged' as Hwy.
    split; [|intros total' [= <-]; exact Hkept].
    simpl. rewrite Hsame, <- Hwy.
    destruct (othen_Some _ _ _ _ _ Hinner)
      as [(e0 & Hgather & [= <-])
         |([lookupDetails dependencies] & mb & Hgather & Hmake)].
    2:{ exfalso.
        destruct (othen_Some _ _ _ _ _ Hmake)
          as [(e0 & Hdl & _)|(download & mf & Hdl & Hnew)].
        - destruct (of_obj_run _ _ _ _ Hdl) as (_ & r & Hdl' & Hr).
          assert (Hcb : m_store mb !! robj_reference rule = Some c).
          { eapply prefix_lookup_Some; [exact Hca|].
            match type of Hgather with
            | ?p ma = _ => assert (Hp : oextends p)
            end.
            { apply oextends_then; [apply oextends_lookupModReference|].
              intros [|d0 details]; [apply oextends_reject|].
              destruct (lr_value d0) as [v|]; [|apply oextends_reject].
              apply oextends_then; [apply oextends_of_obj, extends_materialize|].
              intros rules'. apply oextends_then; [apply Hframe|].
              intros dependencies'. apply oextends_resolve. }
            exact (Hp _ _ _ Hgather). }
          rewrite (findDownloadByRef_obj_content _ _ _ _ Hcb) in Hdl'.
          injection Hdl' as <- _. discriminate Hr.
        - destruct (othen_Some _ _ _ _ _ Hnew)
            as [(e0 & Haddr & _)|(addr & mg & _ & Hres)].
          + unfold of_world, new_addr in Haddr. discriminate Haddr.
          + discriminate Hres. }
    destruct (othen_Some _ _ _ _ _ Hgather)
      as [(e0 & Hlookup & [= <-])|(details & mc & Hlookup & Hdetails)].
    { destruct (lookupModReference_obj_run _ _ _ _ _ Hca Hlookup)
        as (_ & Hwx & Hreply).
      rewrite Hwx, Hwa, <- Hrule. apply step_lookup_rejected.
      - rewrite Hrule. exact Hfound.
      - rewrite Hrule. symmetry. exact Hreply. }
    destruct (lookupModReference_obj_run _ _ _ _ _ Hca Hlookup)
      as (Hmc & Hwc & Hreply).
    destruct details as [|d0 details].
    { injection Hdetails as <- <-. rewrite Hwc, Hwa, <- Hrule.
      apply (step_not_found recurse_v api (store_getState api) _ _ _ []).
      - rewrite Hrule. exact Hfound.
      - rewrite Hrule. symmetry. exact Hreply.
      - reflexivity. }
    destruct (lr_value d0) as [v|] eqn:Hvalue.
    2:{ injection Hdetails as <- <-. rewrite Hwc, Hwa, <- Hrule.
        apply (step_not_found recurse_v api (store_getState api) _ _ _
                 (d0 :: details)).
        - rewrite Hrule. exact Hfound.
        - rewrite Hrule. symmetry. exact Hreply.
        - exact Hvalue. }
    destruct (othen_Some _ _ _ _ _ Hdetails)
      as [(e0 & Hmat & _)|(rules' & md & Hmat & Hnested)].
    { exfalso. destruct (of_obj_run _ _ _ _ Hmat) as (_ & r & Hmat' & Hr).
      destruct (materialize_supplied _ _ _ _ Hmat') as (objs & -> & _).
      discriminate Hr. }
    destruct (of_obj_run _ _ _ _ Hmat) as (Hwd & r & Hmat' & Hr).
    destruct (materialize_supplied _ _ _ _ Hmat') as (objs & -> & Hobjs).
    injection Hr as ->.
    pose proof (materialize_content _ _ _ _ Hmat') as Hobjs_v.
    assert (Halloc : allocated (m_store md) objs).
    { intros o Ho. destruct (Hobjs o Ho) as (_ & c' & Hc' & _). eauto. }
    destruct (othen_Some _ _ _ _ _ Hnested)
      as [(e0 & Hcall & [= <-])|(deps & me & _ & Hpair)];
      [|discriminate Hpair].
    pose proof (Hsim _ _ _ _ Hcall Halloc) as Hcall_v.
    rewrite Hobjs_v, Hwd, Hwc, Hwa in Hcall_v. simpl in Hcall_v.
    eapply (step_nested_rejected recurse_v api (store_getState api) _ _ _
              (d0 :: details) v).
    + rewrite Hrule. exact Hfound.
    + rewrite Hrule. symmetry. exact Hreply.
    + exact Hvalue.
    + rewrite Hrule. exact Hcall_v.
Qed.

Lemma OPromise_reduce_content recurse_o recurse_v (st0 : Store) :
  (forall rules', oextends (recurse_o rules')) ->
  (forall rules' m1 res1 m2,
      recurse_o rules' m1 = Some (res1, m2) ->
      allocated (m_store m1) rules' ->
      recurse_v (rules_of (m_store m1) rules') (m_world m1)
      = Some (settled_of (m_store m2) res1, m_world m2)) ->
  (forall rules' m1 output m2,
      recurse_o rules' m1 = Some (Fulfilled output, m2) ->
      allocated (m_store m1) rules' ->
      present (m_store m2) output) ->
  forall l total m res m',
    (forall rule, rule ∈ l -> is_Some (st0 !! robj_reference rule)) ->
    st0 `prefix_of` m_store m ->
    present (m_store m) total ->
    OPromise_reduce l (gather_step_obj recurse_o api (store_getState api)) total m
    = Some (res, m') ->
    Promise_reduce (map (rule_of st0) l)
      (gather_step recurse_v api (store_getState api))
      (map (dependency_of (m_store m)) total) (m_world m)
    = Some (settled_of (m_store m') res, m_world m')
    /\ forall output, res = Fulfilled output -> present (m_store m') output.
Proof.
  intros Hframe Hsim Hpresent.
  induction l as [|rule l IH]; intros total m res m' Hl Hpre Htotal Hrun.
  - injection Hrun as <- <-. split; [reflexivity|].
    intros output [= <-]. exact Htotal.
  - simpl in Hrun. simpl. unfold then_ at 1.
    destruct (othen_Some _ _ _ _ _ Hrun)
      as [(e & Hstep & ->)|(total1 & m1 & Hstep & Hrest)].
    + destruct (gather_step_obj_content _ recurse_v _ _ _ _ _ _ Hframe Hsim
                  Hpresent (Hl rule ltac:(left)) Hpre Htotal Hstep)
        as (Hstep_v & _).
      rewrite Hstep_v. split; [reflexivity|]. intros output [=].
    + destruct (gather_step_obj_content _ recurse_v _ _ _ _ _ _ Hframe Hsim
                  Hpresent (Hl rule ltac:(left)) Hpre Htotal Hstep)
        as (Hstep_v & Htotal1).
      rewrite Hstep_v. simpl. apply IH; [| |exact (Htotal1 _ eq_refl)|exact Hrest].
      * intros rule' Hin. apply Hl. right. exact Hin.
      * etransitivity; [exact Hpre|].
        exact (oextends_gather_step _ _ _ _ _ Hframe _ _ _ Hstep).
Qed.

Lemma carries_reference_present rules (st st' : Store) output :
  Forall (carries_reference api rules st st') output -> present st' output.
Proof.
  intros Hall. eapply list.Forall_impl; [exact Hall|].
  intros d (c & Hc & _). eauto.
Qed.

(** The run on objects is the run on values: with the content of the
    reference objects in place of their addresses, the rules, the
    outcome and the events are those of [gatherDependencies]. *)
Lemma gatherDependencies_obj_content fuel :
  forall rules m res m',
    gatherDependencies_obj fuel rules api m = Some (res, m') ->
    allocated (m_store m) rules ->
    gatherDependencies fuel (rules_of (m_store m) rules) api (m_world m)
    = Some (settled_of (m_store m') res, m_world m').
Proof.
  induction fuel as [|fuel IH]; intros rules m res m' Hrun Halloc;
    [discriminate Hrun|].
  rewrite gatherDependencies_S, requirements_of_rules. simpl in Hrun.
  assert (Hreduce : forall total res1 m1,
    OPromise_reduce (requirements_obj rules)
      (gather_step_obj (fun rules' => gatherDependencies_obj fuel rules' api)
         api (store_getState api)) total m = Some (res1, m1) ->
    present (m_store m) total ->
    Promise_reduce (map (rule_of (m_store m)) (requirements_obj rules))
      (gather_step (fun rules' => gatherDependencies fuel rules' api)
         api (store_getState api))
      (map (dependency_of (m_store m)) total) (m_world m)
    = Some (settled_of (m_store m1) res1, m_world m1)
    /\ forall output, res1 = Fulfilled output -> present (m_store m1) output).
  { intros total res1 m1 Hred Htotal.
    apply (OPromise_reduce_content
             (fun rules' => gatherDependencies_obj fuel rules' api)
             (fun rules' => gatherDependencies fuel rules' api) (m_store m));
      try assumption.
    - apply oextends_gatherDependencies.
    - intros rules' m1' out m2 Hcall Halloc'.
      eapply carries_reference_present.
      exact (gatherDependencies_obj_carries api fuel _ _ _ _ Hcall Halloc').
    - reflexivity. }
  unfold then_ at 1.
  destruct (othen_Some _ _ _ _ _ Hrun)
    as [(e & Hred & ->)|(input & m1 & Hred & Hdedupe)].
  - destruct (Hreduce _ _ _ Hred ltac:(constructor)) as (Hred_v & _).
    simpl in Hred_v. rewrite Hred_v. reflexivity.
  - destruct (Hreduce _ _ _ Hred ltac:(constructor)) as (Hred_v & Hinput).
    simpl in Hred_v. rewrite Hred_v.
    rewrite (removeDuplicates_obj_content _ _ (Hinput _ eq_refl)).
    unfold of_obj in Hdedupe.
    destruct (removeDuplicates_obj (m_store m1) input) as [output|e];
      injection Hdedupe as <- <-; reflexivity.
Qed.

End ObjectContent.

(** C9. Relaxation works on a copy and the caller's objects stay as they
    are.  With the references as objects in a store: [findModByRef] and
    [findDownloadByRef], called with the address of an object, return
    what they return on its content, leave every object of the store as
    it is and add one object, the copy of the content without [fileMD5],
    exactly when the content is relaxed (the local [reference] is rebound
    to it), and nothing otherwise.  A call of [gatherDependencies],
    whatever its outcome, leaves every object of the store as it is: the
    store at the end is the store at the start followed by new objects.
    When the rules refer to objects of the store, every dependency of a
    fulfilled call holds the address of the reference object of one of
    the [requires] rules it was given, whose content at the end is its
    content at the start, or the address of an object that came with a
    lookup result during the call, never that of a copy; its [download]
    is the one found by matching the relaxed copy of that content, and
    its [lookupResults] are the reply to that content.  Read with the
    content of each reference object in place of its address, that call
    is the call of [gatherDependencies] on values: same outcome, same
    dependencies, same events. *)
Theorem relaxation_on_copy `{Imports} (api : IExtensionApi) :
  (forall (reference : nat) (st : Store) (c : Cell),
      st !! reference = Some c ->
      findModByRef_obj reference (store_getState api) st
      = (findModByRef (cell_value c) (store_getState api),
         st ++ relaxed_copy (cell_value c))
      /\ findDownloadByRef_obj reference (store_getState api) st
         = (Ok (findDownloadByRef (cell_value c) (store_getState api)),
            st ++ relaxed_copy (cell_value c))
      /\ (st ++ relaxed_copy (cell_value c)) !! reference = Some c
      /\ (relaxes (cell_value c) ->
          relaxed_copy (cell_value c)
          = [MkCell Copied (omit_fileMD5 (cell_value c))])
      /\ (~ relaxes (cell_value c) -> relaxed_copy (cell_value c) = []))
  /\ (forall fuel rules m res m',
        gatherDependencies_obj fuel rules api m = Some (res, m') ->
        (exists added, m_store m' = m_store m ++ added)
        /\ forall (reference : nat) (c : Cell),
             m_store m !! reference = Some c ->
             m_store m' !! reference = Some c)
  /\ (forall fuel rules m output m',
        gatherDependencies_obj fuel rules api m = Some (Fulfilled output, m') ->
        allocated (m_store m) rules ->
        forall d, d ∈ output ->
          exists c,
            m_store m' !! dobj_reference d = Some c
            /\ ((exists rule,
                    rule ∈ requirements_obj rules
                    /\ robj_reference rule = dobj_reference d
                    /\ m_store m !! robj_reference rule = Some c)
                \/ ((length (m_store m) <= dobj_reference d)%nat
                    /\ cell_origin c = Supplied))
            /\ dobj_download d
               = fst <$> head
                   (Array_sort (fun lhs rhs => newerSort (snd lhs) (snd rhs))
                      (List.filter (download_matches (relax (cell_value c)))
                         (st_downloads (store_getState api))))
            /\ lookupModReference_reply api (cell_value c)
               = Fulfilled (dobj_lookupResults d))
  /\ (forall fuel rules m res m',
        gatherDependencies_obj fuel rules api m = Some (res, m') ->
        allocated (m_store m) rules ->
        gatherDependencies fuel (rules_of (m_store m) rules) api (m_world m)
        = Some (settled_of (m_store m') res, m_world m')).
Proof.
  split; [|split; [|split]].
  - intros reference st c Hc.
    split; [exact (findModByRef_obj_content _ _ _ _ Hc)|].
    split; [exact (findDownloadByRef_obj_content _ _ _ _ Hc)|].
    split; [apply lookup_app_l_Some; exact Hc|].
    unfold relaxed_copy. split; intros Hr.
    + rewrite decide_True by exact Hr. reflexivity.
    + rewrite decide_False by exact Hr. reflexivity.
  - intros fuel rules m res m' Hrun.
    pose proof (oextends_gatherDependencies fuel api rules _ _ _ Hrun) as Hpre.
    split; [exact Hpre|].
    intros reference c Hc. exact (prefix_lookup_Some _ _ _ _ Hc Hpre).
  - intros fuel rules m output m' Hrun Halloc d Hd.
    pose proof (gatherDependencies_obj_carries api fuel rules m output m'
                  Hrun Halloc) as Hall.
    rewrite list.Forall_forall in Hall.
    destruct (Hall d Hd) as (c & Hc & Horigin & Hdl & Hreply).
    exists c. split; [exact Hc|]. split; [exact Horigin|].
    split; [|exact Hreply].
    rewrite Hdl. unfold findDownloadByRef, findDownloadByRef_existing.
    rewrite findDownloadByRef_reference_relax. reflexivity.
  - intros fuel. apply gatherDependencies_obj_content.
Qed.

Lemma relaxation_on_copy_witness :
  let copy := MkCell Copied (omit_fileMD5 Relaxed.reference) in
  @gatherDependencies_obj Sample.imports 2 (Some [RelaxedObjects.rule])
    Relaxed.api RelaxedObjects.machine
  = Some (Fulfilled [RelaxedObjects.created],
          MkMachine (RelaxedObjects.store ++ [copy; copy])
                    (MkWorld 1 [EvLookup Relaxed.reference]))
  /\ @findDownloadByRef_obj Sample.imports 0 (store_getState Relaxed.api)
       RelaxedObjects.store
     = (Ok (Some "dl1"), RelaxedObjects.store ++ [copy])
  /\ @findModByRef_obj Sample.imports 0 (store_getState Relaxed.api)
       [MkCell Supplied empty_reference]
     = (Ok None, [MkCell Supplied empty_reference])
  /\ (RelaxedObjects.store ++ [copy; copy]) !! 0%nat
     = Some (MkCell Supplied Relaxed.reference)
  /\ @gatherDependencies Sample.imports 2 (Some [Relaxed.rule]) Relaxed.api
       (MkWorld 0 [])
     = Some (Fulfilled [Relaxed.created], MkWorld 1 [EvLookup Relaxed.reference])
  /\ exists c,
       (RelaxedObjects.store ++ [copy; copy])
         !! dobj_reference RelaxedObjects.created = Some c
       /\ ref_fileMD5 (cell_value c) = Some "abc"
       /\ dobj_download RelaxedObjects.created
          = fst <$> head
              (Array_sort (fun lhs rhs => @newerSort Sample.imports (snd lhs) (snd rhs))
                 (List.filter
                    (@download_matches Sample.imports
                       (omit_fileMD5 (cell_value c)))
                    (st_downloads (store_getState Relaxed.api)))).
Proof.
  intros copy.
  destruct (@relaxation_on_copy Sample.imports Relaxed.api)
    as (Hfinders & Hframe & Hdeps & Hcontent).
  assert (Hrun :
    @gatherDependencies_obj Sample.imports 2 (Some [RelaxedObjects.rule])
      Relaxed.api RelaxedObjects.machine
    = Some (Fulfilled [RelaxedObjects.created],
            MkMachine (RelaxedObjects.store ++ [copy; copy])
                      (MkWorld 1 [EvLookup Relaxed.reference])))
    by (vm_compute; reflexivity).
  assert (Hcell : RelaxedObjects.store !! 0%nat
                  = Some (MkCell Supplied Relaxed.reference)) by reflexivity.
  assert (Hrelaxes : @relaxes Sample.imports Relaxed.reference).
  { split; [vm_compute; reflexivity|]. split; [discriminate|].
    left. discriminate. }
  assert (Halloc : allocated (m_store RelaxedObjects.machine)
                     (Some [RelaxedObjects.rule])).
  { intros rule Hrule. apply list_elem_of_singleton in Hrule. subst rule.
    simpl. eauto. }
  split; [exact Hrun|]. split; [|split; [|split; [|split]]].
  - destruct (Hfinders 0%nat RelaxedObjects.store _ Hcell)
      as (_ & Hdl & _ & Hcopy & _).
    rewrite Hdl, (Hcopy Hrelaxes). reflexivity.
  - destruct (Hfinders 0%nat [MkCell Supplied empty_reference] _ eq_refl)
      as (Hfind & _ & _ & _ & Hplain).
    rewrite Hfind, Hplain; [rewrite app_nil_r; reflexivity|].
    intros (Hfuzzy & _). discriminate Hfuzzy.
  - destruct (Hframe _ _ _ _ _ Hrun) as (_ & Hkept).
    exact (Hkept 0%nat _ Hcell).
  - exact (Hcontent _ _ _ _ _ Hrun Halloc).
  - destruct (Hdeps _ _ _ _ _ Hrun Halloc) with (d := RelaxedObjects.created)
      as (c & Hc & Horigin & Hdl & _).
    + apply list_elem_of_singleton. reflexivity.
    + exists c. split; [exact Hc|].
      assert (Hvalue : c = MkCell Supplied Relaxed.reference).
      { simpl in Hc. injection Hc as <-. reflexivity. }
      split; [rewrite Hvalue; reflexivity|].
      rewrite Hdl. subst c. simpl cell_value.
      unfold relax. rewrite decide_True by exact Hrelaxes. reflexivity.
Defined.

(** ** findDownloadByRef *)

Section SortHead.

Context {A : Type} (cmp : A -> A -> Z).

Lemma sort_insert_head x l :
  head (sort_insert cmp x l)
  = Some (match head l with
          | Some h => if cmp x h <=? 0 then x else h
          | None => x
          end).
Proof. destruct l as [|h l]; simpl; [|destruct (cmp x h <=? 0)]; reflexivity. Qed.

Lemma Array_sort_nil l : Array_sort cmp l = [] <-> l = [].
Proof.
  split; [|intros ->; reflexivity]. intros Hs.
  apply length_zero_iff_nil. rewrite <- (Array_sort_length cmp), Hs. reflexivity.
Qed.

(** With a comparator that is consistent on [l], the first element of
    the sorted array precedes or equals every element of [l]. *)
Lemma Array_sort_head l h :
  (forall x y, x ∈ l -> y ∈ l -> 0 < cmp x y -> cmp y x <= 0) ->
  (forall x y z, x ∈ l -> y ∈ l -> z ∈ l ->
                 cmp x y <= 0 -> cmp y z <= 0 -> cmp x z <= 0) ->
  head (Array_sort cmp l) = Some h ->
  h ∈ l /\ forall y, y ∈ l -> cmp h y <= 0.
Proof.
  revert h. induction l as [|x l IH]; intros h Hanti Htrans Hhead;
    [discriminate Hhead|].
  assert (Hxx : cmp x x <= 0).
  { destruct (Z_lt_le_dec 0 (cmp x x)) as [Hpos|Hle]; [|exact Hle].
    apply Hanti; [left|left|exact Hpos]. }
  change (Array_sort cmp (x :: l)) with (sort_insert cmp x (Array_sort cmp l))
    in Hhead.
  rewrite sort_insert_head in Hhead. injection Hhead as <-.
  destruct (head (Array_sort cmp l)) as [h'|] eqn:Hh'.
  - destruct (IH h') as [Hin Hmax]; [| |reflexivity|].
    { intros a b Ha Hb. apply Hanti; right; assumption. }
    { intros a b c Ha Hb Hc. apply Htrans; right; assumption. }
    destruct (cmp x h' <=? 0) eqn:Hcmp.
    + apply Z.leb_le in Hcmp. split; [left|].
      intros y Hy. apply elem_of_cons in Hy. destruct Hy as [->|Hy]; [exact Hxx|].
      apply (Htrans x h' y); [left|right; exact Hin|right; exact Hy|exact Hcmp|].
      apply Hmax, Hy.
    + apply Z.leb_gt in Hcmp. split; [right; exact Hin|].
      intros y Hy. apply elem_of_cons in Hy. destruct Hy as [->|Hy].
      * apply Hanti; [left|right; exact Hin|exact Hcmp].
      * apply Hmax, Hy.
  - destruct (Array_sort cmp l) as [|? ?] eqn:Hs; [|discriminate Hh'].
    apply (proj1 (Array_sort_nil l)) in Hs. rewrite Hs. split; [left|].
    intros y Hy. apply list_elem_of_singleton in Hy. subst y. exact Hxx.
Qed.

End SortHead.

Section Downloads.

Context `{Imports}.

Lemma newer_newerSort x y : newer y x = true <-> 0 < newerSort x y.
Proof.
  unfold newer, newerSort.
  destruct (coerce (getSafe_modInfo_version x)) as [vx|],
           (coerce (getSafe_modInfo_version y)) as [vy|];
    rewrite Z.ltb_lt; lia.
Qed.

Lemma newerSort_anti x y :
  semver_ordered -> 0 < newerSort x y -> newerSort y x <= 0.
Proof.
  intros [Hanti _]. unfold newerSort.
  destruct (coerce (getSafe_modInfo_version x)) as [vx|],
           (coerce (getSafe_modInfo_version y)) as [vy|]; try lia.
  rewrite (Hanti vy vx). lia.
Qed.

Lemma newerSort_trans (l : list (string * IDownload)) x y z :
  semver_ordered -> uniform l -> x ∈ l -> y ∈ l -> z ∈ l ->
  newerSort (snd x) (snd y) <= 0 -> newerSort (snd y) (snd z) <= 0 ->
  newerSort (snd x) (snd z) <= 0.
Proof.
  intros [_ Htrans] [Hall|Hnone] Hx Hy Hz; unfold newerSort; cbv zeta.
  - destruct (Hall x Hx) as [vx Ex], (Hall y Hy) as [vy Ey],
             (Hall z Hz) as [vz Ez].
    rewrite Ex, Ey, Ez. intros Hxy Hyz. exact (Htrans vz vy vx Hyz Hxy).
  - rewrite (Hnone x Hx), (Hnone y Hy). lia.
Qed.

Lemma findDownloadByRef_existing_sorted reference state :
  findDownloadByRef_existing reference state
  = Array_sort (fun lhs rhs => newerSort (snd lhs) (snd rhs))
      (matching_downloads reference state).
Proof.
  unfold findDownloadByRef_existing, matching_downloads.
  rewrite findDownloadByRef_reference_relax. reflexivity.
Qed.

Lemma findDownloadByRef_matching reference state dlId :
  findDownloadByRef reference state = Some dlId ->
  exists download, (dlId, download) ∈ matching_downloads reference state.
Proof.
  unfold findDownloadByRef. rewrite findDownloadByRef_existing_sorted.
  destruct (Array_sort _ _) as [|[dlId' download] rest] eqn:Hs; [discriminate|].
  intros [= <-]. exists download.
  rewrite <- (Array_sort_perm (fun lhs rhs => newerSort (snd lhs) (snd rhs))), Hs.
  left.
Qed.

Lemma findDownloadByRef_none reference state :
  findDownloadByRef reference state = None
  <-> matching_downloads reference state = [].
Proof.
  unfold findDownloadByRef. rewrite findDownloadByRef_existing_sorted.
  rewrite <- (Array_sort_nil (fun lhs rhs => newerSort (snd lhs) (snd rhs))).
  destruct (Array_sort _ _); simpl; split; intros Hn;
    first [reflexivity | discriminate Hn].
Qed.

Lemma findDownloadByRef_newest reference state :
  semver_ordered -> uniform (matching_downloads reference state) ->
  newest_returned reference state.
Proof.
  intros Hord Huni. unfold newest_returned.
  destruct (findDownloadByRef reference state) as [dlId|] eqn:Hfind;
    [|apply findDownloadByRef_none, Hfind].
  unfold findDownloadByRef in Hfind.
  rewrite findDownloadByRef_existing_sorted in Hfind.
  destruct (head (Array_sort _ _)) as [[dlId' download]|] eqn:Hhead;
    [|discriminate Hfind].
  injection Hfind as ->.
  apply Array_sort_head in Hhead.
  - destruct Hhead as [Hin Hmax]. exists download. split; [exact Hin|].
    intros entry Hentry. apply not_true_is_false. intros Hnewer.
    apply newer_newerSort in Hnewer. specialize (Hmax entry Hentry).
    simpl in Hmax. lia.
  - intros x y _ _. apply newerSort_anti, Hord.
  - intros x y z. apply newerSort_trans; assumption.
Qed.

End Downloads.

Lemma compare_version_le (a b : Sample.Version) :
  Sample.compare_version a b <= 0
  <-> (let '(a1, a2, a3) := a in
       let '(b1, b2, b3) := b in
       a1 < b1 \/ (a1 = b1 /\ (a2 < b2 \/ (a2 = b2 /\ a3 <= b3))))%N.
Proof.
  destruct a as [[a1 a2] a3], b as [[b1 b2] b3]. unfold Sample.compare_version.
  destruct (N.compare_spec a1 b1), (N.compare_spec a2 b2), (N.compare_spec a3 b3);
    split; intros Hle; try lia.
Qed.

Lemma sample_semver_ordered : @semver_ordered Sample.imports.
Proof.
  split.
  - intros [[a1 a2] a3] [[b1 b2] b3]. simpl. unfold Sample.compare_version.
    rewrite (N.compare_antisym a1 b1), (N.compare_antisym a2 b2),
      (N.compare_antisym a3 b3).
    destruct (a1 ?= b1)%N, (a2 ?= b2)%N, (a3 ?= b3)%N; reflexivity.
  - intros a b c. simpl. rewrite !compare_version_le.
    destruct a as [[a1 a2] a3], b as [[b1 b2] b3], c as [[c1 c2] c3]. lia.
Qed.

(** C6, as the code has it.  [semver.compare] being an ordering:
    [findDownloadByRef] returns none exactly when no download matches the
    relaxed reference, and otherwise the id of a matching download; of
    two matching downloads it returns the second when that one wins (the
    higher version when both versions can be coerced, the later
    [fileTime] otherwise) and the first when not; and when all matching
    downloads have a coercible version, or none has, no matching download
    wins over the one returned. *)
Theorem findDownloadByRef_newest_ordered `{Imports}
    (reference : IReference) (state : IState) :
  semver_ordered ->
  (findDownloadByRef reference state = None
   <-> matching_downloads reference state = [])
  /\ (forall dlId,
        findDownloadByRef reference state = Some dlId ->
        exists download, (dlId, download) ∈ matching_downloads reference state)
  /\ (forall x y,
        matching_downloads reference state = [x; y] ->
        findDownloadByRef reference state
        = Some (if newer (snd y) (snd x) then fst y else fst x))
  /\ (uniform (matching_downloads reference state) ->
      newest_returned reference state).
Proof.
  intros Hord. split; [apply findDownloadByRef_none|].
  split; [apply findDownloadByRef_matching|]. split.
  - intros x y Hxy. unfold findDownloadByRef.
    rewrite findDownloadByRef_existing_sorted, Hxy. simpl.
    destruct (newer (snd y) (snd x)) eqn:Hnewer.
    + apply newer_newerSort in Hnewer.
      rewrite (proj2 (Z.leb_gt _ _)) by lia. reflexivity.
    + rewrite (proj2 (Z.leb_le _ _)); [reflexivity|].
      destruct (Z_lt_le_dec 0 (newerSort (snd x) (snd y))) as [Hpos|Hle];
        [|exact Hle].
      apply newer_newerSort in Hpos. congruence.
  - intros Huni. apply findDownloadByRef_newest; assumption.
Qed.

Lemma findDownloadByRef_newest_ordered_witness :
  @findDownloadByRef Sample.imports Mixed.reference Mixed.state_two = Some "new"
  /\ @newest_returned Sample.imports Mixed.reference Mixed.state_two.
Proof.
  destruct (@findDownloadByRef_newest_ordered Sample.imports Mixed.reference
              Mixed.state_two sample_semver_ordered) as (_ & _ & Htwo & Hnewest).
  split.
  - rewrite (Htwo ("old", Mixed.versioned "1.0.0" 20)
                  ("new", Mixed.versioned "2.0.0" 10)); reflexivity.
  - apply Hnewest. left. intros entry Hentry.
    change (entry ∈ Mixed.two) in Hentry. unfold Mixed.two in Hentry.
    rewrite !elem_of_cons in Hentry.
    destruct Hentry as [-> | [-> | Hnil]];
      [eexists; reflexivity | eexists; reflexivity | ].
    apply elem_of_nil in Hnil. destruct Hnil.
Defined.

(** C6, as stated, fails when versioned and unversioned downloads match
    together.  Of ["a"] (1.0.0, completed at 10), ["b"] (no version, at 5)
    and ["c"] (2.0.0, at 1), ["c"] wins over ["a"] by version, ["a"] over
    ["b"] and ["b"] over ["c"] by time: whatever is returned, a matching
    download wins over it.  The code returns ["a"]. *)
Lemma findDownloadByRef_mixed_not_newest :
  @findDownloadByRef Sample.imports Mixed.reference Mixed.state = Some "a"
  /\ (forall entry, entry ∈ Mixed.downloads ->
        exists entry', entry' ∈ Mixed.downloads
                       /\ @newer Sample.imports (snd entry') (snd entry) = true)
  /\ ~ @newest_returned Sample.imports Mixed.reference Mixed.state.
Proof.
  assert (Hcycle : forall entry, entry ∈ Mixed.downloads ->
            exists entry', entry' ∈ Mixed.downloads
                           /\ @newer Sample.imports (snd entry') (snd entry) = true).
  { intros entry Hentry. unfold Mixed.downloads in Hentry.
    rewrite !elem_of_cons in Hentry.
    destruct Hentry as [-> | [-> | [-> | Hnil]]].
    - exists ("c", Mixed.versioned "2.0.0" 1). split; [set_solver|reflexivity].
    - exists ("a", Mixed.versioned "1.0.0" 10). split; [set_solver|reflexivity].
    - exists ("b", Mixed.unversioned 5). split; [set_solver|reflexivity].
    - apply elem_of_nil in Hnil. destruct Hnil. }
  split; [reflexivity|]. split; [exact Hcycle|].
  unfold newest_returned.
  change (@findDownloadByRef Sample.imports Mixed.reference Mixed.state)
    with (Some "a").
  change (@matching_downloads Sample.imports Mixed.reference Mixed.state)
    with Mixed.downloads.
  intros (download & Hin & Hmax).
  destruct (Hcycle _ Hin) as (entry' & Hin' & Hnewer).
  cbn [snd] in Hnewer. rewrite (Hmax entry' Hin') in Hnewer. discriminate Hnewer.
Qed.

(** ** The scenarios of §8 *)

(** Without a value, the first field that is present throws. *)
Lemma lookupFulfills_no_value `{Imports} key reference :
  lookupFulfills (Some (MkLookupResult key None)) reference
  = if decide (reference = empty_reference) then Ok true
    else Throw TypeError_undefined.
Proof.
  destruct reference as [[md5|] [sz|] [gid|] [vm|] [lfn|] [fe|]];
    reflexivity.
Qed.

Example fulfills_same_hash `{Imports} v :
  val_fileMD5 v = "abc" ->
  lookupFulfills (Some (MkLookupResult "k" (Some v)))
    (MkReference (Some "abc") None None None None None) = Ok true
  /\ lookupFulfills (Some (MkLookupResult "k" (Some v)))
       (MkReference (Some "def") None None None None None) = Ok false.
Proof.
  intros Hmd5. rewrite !lookupFulfills_value. simpl. rewrite Hmd5.
  split; reflexivity.
Qed.

Example gatherDependencies_end_to_end :
  @gatherDependencies Sample.imports 2
    (Some [MkRule requires EndToEnd.reference]) EndToEnd.api (MkWorld 0 [])
  = Some (Fulfilled [MkDependency 0 None EndToEnd.reference [EndToEnd.candidate]],
          MkWorld 1 [EvLookup EndToEnd.reference]).
Proof. vm_compute. reflexivity. Qed.

(** Rules of other types, and an undefined rule list, give the empty
    list without a lookup. *)
Example gatherDependencies_other_rules `{Imports} api reference w :
  gatherDependencies 1 (Some [MkRule conflicts reference; MkRule provides reference])
    api w = Some (Fulfilled [], w)
  /\ gatherDependencies 1 None api w = Some (Fulfilled [], w).
Proof. split; reflexivity. Qed.

(* ================================================================= *)
(** * Further properties of the code *)

(** ** lookupFulfills without a lookup or a value *)

(** X1. [lookupFulfills] throws when the lookup result is [undefined]
    (the destructuring at line 86), whatever the reference.  On a lookup
    result without [value] it returns [true] for the reference without
    fields and throws for every other reference: it never answers [false]
    there. *)
Theorem lookupFulfills_undefined `{Imports} (reference : IReference) :
  lookupFulfills None reference = Throw TypeError_undefined
  /\ (forall key,
        lookupFulfills (Some (MkLookupResult key None)) reference
        = if decide (reference = empty_reference) then Ok true
          else Throw TypeError_undefined)
  /\ (forall key, lookupFulfills (Some (MkLookupResult key None)) reference
                  <> Ok false).
Proof.
  split; [reflexivity|].
  assert (Hvalue : forall key,
    lookupFulfills (Some (MkLookupResult key None)) reference
    = if decide (reference = empty_reference) then Ok true
      else Throw TypeError_undefined).
  { intros key. destruct reference as [[md5|] [sz|] [gid|] [vm|] [lfn|] [fe|]];
      reflexivity. }
  split; [exact Hvalue|].
  intros key. rewrite Hvalue. case_decide; discriminate.
Qed.

(** ** Relaxing twice, and relaxing before a finder *)

Section Relaxing.

Context `{Imports}.

Lemma relax_omit reference :
  relax (omit_fileMD5 reference) = omit_fileMD5 reference.
Proof.
  unfold relax. case_decide as Hr; [reflexivity|reflexivity].
Qed.

Lemma relax_idempotent reference : relax (relax reference) = relax reference.
Proof.
  destruct (decide (relaxes reference)) as [Hr|Hr].
  - assert (Hrelax : relax reference = omit_fileMD5 reference)
      by (unfold relax; rewrite decide_True by exact Hr; reflexivity).
    rewrite Hrelax. apply relax_omit.
  - assert (Hrelax : relax reference = reference)
      by (unfold relax; rewrite decide_False by exact Hr; reflexivity).
    rewrite !Hrelax. reflexivity.
Qed.

End Relaxing.

(** X2. Relaxing is idempotent and touches [fileMD5] only, so a reference
    that was relaxed by the caller gives the same answers: [findModByRef]
    and [findDownloadByRef] return for [relax reference] what they return
    for [reference]. *)
Theorem finders_relax_once `{Imports} (reference : IReference) (state : IState) :
  relax (relax reference) = relax reference
  /\ ref_versionMatch (relax reference) = ref_versionMatch reference
  /\ ref_logicalFileName (relax reference) = ref_logicalFileName reference
  /\ ref_fileExpression (relax reference) = ref_fileExpression reference
  /\ ref_fileSize (relax reference) = ref_fileSize reference
  /\ ref_gameId (relax reference) = ref_gameId reference
  /\ findModByRef (relax reference) state = findModByRef reference state
  /\ findDownloadByRef (relax reference) state = findDownloadByRef reference state.
Proof.
  split; [apply relax_idempotent|].
  assert (Hfields :
    ref_versionMatch (relax reference) = ref_versionMatch reference
    /\ ref_logicalFileName (relax reference) = ref_logicalFileName reference
    /\ ref_fileExpression (relax reference) = ref_fileExpression reference
    /\ ref_fileSize (relax reference) = ref_fileSize reference
    /\ ref_gameId (relax reference) = ref_gameId reference).
  { unfold relax. case_decide; repeat split. }
  destruct Hfields as (Hvm & Hlfn & Hfe & Hsz & Hgid).
  repeat (split; [assumption|]). split.
  - unfold findModByRef.
    rewrite !findModByRef_reference_download, !findDownloadByRef_reference_relax.
    rewrite relax_idempotent. reflexivity.
  - unfold findDownloadByRef, findDownloadByRef_existing.
    rewrite !findDownloadByRef_reference_relax, relax_idempotent. reflexivity.
Qed.

(** ** findModByRef: the first match *)

Section FirstMatch.

Context {A : Type} (p : A -> bool).

Lemma find_first l x :
  List.find p l = Some x
  <-> exists before after,
        l = before ++ x :: after /\ p x = true
        /\ forall y, y ∈ before -> p y = false.
Proof.
  induction l as [|a l IH]; simpl.
  - split; [discriminate|]. intros (before & after & Heq & _).
    destruct before; discriminate Heq.
  - destruct (p a) eqn:Hpa.
    + split.
      * intros [= <-]. exists [], l. split; [reflexivity|].
        split; [exact Hpa|]. intros y Hy. apply elem_of_nil in Hy. destruct Hy.
      * intros (before & after & Heq & Hpx & Hbefore).
        destruct before as [|b before]; simpl in Heq.
        { injection Heq as -> _. reflexivity. }
        injection Heq as -> _. rewrite (Hbefore b) in Hpa by left.
        discriminate Hpa.
    + rewrite IH. split.
      * intros (before & after & -> & Hpx & Hbefore).
        exists (a :: before), after. split; [reflexivity|]. split; [exact Hpx|].
        intros y Hy. apply elem_of_cons in Hy. destruct Hy as [->|Hy];
          [exact Hpa|apply Hbefore, Hy].
      * intros (before & after & Heq & Hpx & Hbefore).
        destruct before as [|b before]; simpl in Heq.
        { injection Heq as <- _. rewrite Hpx in Hpa. discriminate Hpa. }
        injection Heq as _ ->. exists before, after.
        split; [reflexivity|]. split; [exact Hpx|].
        intros y Hy. apply Hbefore. right. exact Hy.
Qed.

Lemma find_nothing l :
  List.find p l = None <-> forall y, y ∈ l -> p y = false.
Proof.
  induction l as [|a l IH]; simpl.
  - split; [|reflexivity]. intros _ y Hy. apply elem_of_nil in Hy. destruct Hy.
  - destruct (p a) eqn:Hpa.
    + split; [discriminate|]. intros Hall. rewrite (Hall a) in Hpa by left.
      discriminate Hpa.
    + rewrite IH. split.
      * intros Hall y Hy. apply elem_of_cons in Hy.
        destruct Hy as [->|Hy]; [exact Hpa|apply Hall, Hy].
      * intros Hall y Hy. apply Hall. right. exact Hy.
Qed.

End FirstMatch.

(** X3. [findModByRef] throws exactly when [state.persistent.mods] has no
    entry for the active game; it returns none exactly when no mod of the
    game matches the relaxed reference; and the mod it returns is the
    first one, in enumeration order, that matches the relaxed reference. *)
Theorem findModByRef_first_match `{Imports} (reference : IReference)
    (state : IState) :
  (forall e,
      findModByRef reference state = Throw e
      <-> st_mods state !! activeGameId state = None /\ e = TypeError_convert)
  /\ (findModByRef reference state = Ok None
      <-> exists mods,
            st_mods state !! activeGameId state = Some mods
            /\ forall m, m ∈ map snd mods ->
                         testModReference (OfMod m) (relax reference) = false)
  /\ (forall m,
        findModByRef reference state = Ok (Some m)
        <-> exists mods before after,
              st_mods state !! activeGameId state = Some mods
              /\ map snd mods = before ++ m :: after
              /\ testModReference (OfMod m) (relax reference) = true
              /\ forall m', m' ∈ before ->
                            testModReference (OfMod m') (relax reference) = false).
Proof.
  unfold findModByRef.
  rewrite findModByRef_reference_download, findDownloadByRef_reference_relax.
  destruct (st_mods state !! activeGameId state) as [mods|].
  - split; [|split].
    + intros e. split; [discriminate|]. intros [[=] _].
    + split.
      * intros [= Hfind]. exists mods. split; [reflexivity|].
        apply find_nothing, Hfind.
      * intros (mods' & [= <-] & Hall). f_equal. apply find_nothing, Hall.
    + intros m. split.
      * intros [= Hfind]. apply find_first in Hfind.
        destruct Hfind as (before & after & Heq & Hm & Hbefore).
        exists mods, before, after. auto.
      * intros (mods' & before & after & [= <-] & Heq & Hm & Hbefore).
        f_equal. apply find_first. exists before, after. auto.
  - split; [|split].
    + intros e. split; [intros [= <-]; split; reflexivity|].
      intros [_ ->]. reflexivity.
    + split; [discriminate|]. intros (mods & [=] & _).
    + intros m. split; [discriminate|]. intros (mods & ? & ? & [=] & _).
Qed.

(** ** findDownloadByRef: a download that wins over all others *)

Section Dominant.

Context {A : Type} (cmp : A -> A -> Z).

Lemma Array_sort_head_in l h :
  head (Array_sort cmp l) = Some h -> h ∈ l.
Proof.
  intros Hh. rewrite <- (Array_sort_perm cmp l).
  destruct (Array_sort cmp l); [discriminate Hh|].
  injection Hh as ->. left.
Qed.

(** An element that precedes every other element strictly, whichever
    way they are compared, comes first. *)
Lemma Array_sort_head_dominant l m :
  (forall x, x ∈ l -> x = m \/ (cmp m x < 0 /\ 0 < cmp x m)) ->
  forall h, head (Array_sort cmp l) = Some h -> m ∈ l -> h = m.
Proof.
  induction l as [|x l IH]; intros Hdom h Hhead Hm; [discriminate Hhead|].
  change (Array_sort cmp (x :: l)) with (sort_insert cmp x (Array_sort cmp l))
    in Hhead.
  rewrite sort_insert_head in Hhead. injection Hhead as <-.
  assert (Hdom' : forall y, y ∈ l -> y = m \/ (cmp m y < 0 /\ 0 < cmp y m)).
  { intros y Hy. apply Hdom. right. exact Hy. }
  destruct (head (Array_sort cmp l)) as [h'|] eqn:Hh'.
  - pose proof (Array_sort_head_in l h' Hh') as Hin'.
    destruct (cmp x h' <=? 0) eqn:Hcmp.
    + apply Z.leb_le in Hcmp.
      destruct (Hdom x) as [Hx | [_ Hx]]; [left|exact Hx|].
      apply elem_of_cons in Hm. destruct Hm as [Hm|Hm]; [symmetry; exact Hm|].
      rewrite (IH Hdom' h' eq_refl Hm) in Hcmp. lia.
    + apply Z.leb_gt in Hcmp.
      apply elem_of_cons in Hm. destruct Hm as [Hm|Hm];
        [|exact (IH Hdom' h' eq_refl Hm)].
      destruct (Hdom' h' Hin') as [Hh | [Hh _]]; [exact Hh|].
      rewrite <- Hm in Hcmp. lia.
  - destruct (Array_sort cmp l) as [|? ?] eqn:Hs; [|discriminate Hh'].
    apply (proj1 (Array_sort_nil cmp l)) in Hs. rewrite Hs in Hm.
    apply list_elem_of_singleton in Hm. symmetry. exact Hm.
Qed.

End Dominant.

Lemma newerSort_opp `{Imports} (x y : IDownload) :
  (forall a b, compare b a = - compare a b) ->
  newerSort y x = - newerSort x y.
Proof.
  intros Hanti. unfold newerSort.
  destruct (coerce (getSafe_modInfo_version x)) as [vx|],
           (coerce (getSafe_modInfo_version y)) as [vy|]; try lia.
  apply Hanti.
Qed.

(** X4. [semver.compare] being antisymmetric, a matching download that
    wins over every other matching download (by version when both
    versions can be coerced, by [fileTime] otherwise) is the one that
    [findDownloadByRef] returns, wherever it stands among the downloads
    and whether or not the other downloads can be compared consistently
    with each other. *)
Theorem findDownloadByRef_dominant `{Imports} (reference : IReference)
    (state : IState) (dlId : string) (download : IDownload) :
  (forall a b, compare b a = - compare a b) ->
  (dlId, download) ∈ matching_downloads reference state ->
  (forall entry, entry ∈ matching_downloads reference state ->
                 entry = (dlId, download) \/ newer download (snd entry) = true) ->
  findDownloadByRef reference state = Some dlId.
Proof.
  intros Hanti Hin Hwins. unfold findDownloadByRef.
  rewrite findDownloadByRef_existing_sorted.
  destruct (head (Array_sort _ _)) as [h|] eqn:Hhead.
  - assert (Hh : h = (dlId, download)); [|rewrite Hh; reflexivity].
    apply (Array_sort_head_dominant
             (fun lhs rhs : string * IDownload => newerSort (snd lhs) (snd rhs))
             (matching_downloads reference state));
      [|exact Hhead|exact Hin].
    intros entry Hentry. destruct (Hwins entry Hentry) as [->|Hnewer];
      [left; reflexivity|right].
    apply newer_newerSort in Hnewer. cbn [snd].
    rewrite (newerSort_opp (snd entry) download Hanti). lia.
  - destruct (Array_sort _ _) as [|? ?] eqn:Hs; [|discriminate Hhead].
    apply Array_sort_nil in Hs. rewrite Hs in Hin.
    apply elem_of_nil in Hin. destruct Hin.
Qed.

Lemma findDownloadByRef_dominant_witness :
  @findDownloadByRef Sample.imports Mixed.reference Mixed.state_dominant
  = Some "c".
Proof.
  apply (@findDownloadByRef_dominant Sample.imports Mixed.reference
           Mixed.state_dominant "c" (Mixed.versioned "2.0.0" 7)).
  - apply sample_semver_ordered.
  - vm_compute. set_solver.
  - intros entry Hentry.
    change (entry ∈ Mixed.dominant) in Hentry. unfold Mixed.dominant in Hentry.
    rewrite !elem_of_cons in Hentry.
    destruct Hentry as [-> | [-> | [-> | Hnil]]].
    + right. reflexivity.
    + right. reflexivity.
    + left. reflexivity.
    + apply elem_of_nil in Hnil. destruct Hnil.
Defined.

(** ** removeDuplicates: when it is right, and when it throws *)

Section Filtering.

Context {X : Type} (p : X -> result bool).

Lemma filter_result_elem l kept :
  filter_result p l = Ok kept ->
  forall x, x ∈ kept <-> x ∈ l /\ p x = Ok true.
Proof.
  revert kept. induction l as [|a l IH]; simpl; intros kept Hk x.
  - injection Hk as <-. rewrite !elem_of_nil. tauto.
  - destruct (p a) as [b|e] eqn:Hpa; simpl in Hk; [|discriminate Hk].
    destruct (filter_result p l) as [r|e]; simpl in Hk; [|discriminate Hk].
    injection Hk as <-. specialize (IH r eq_refl x).
    destruct b; rewrite ?elem_of_cons, IH; split.
    + intros [->|[Hx Hp]]; [split; [left; reflexivity|exact Hpa]|].
      split; [right; exact Hx|exact Hp].
    + intros [[->|Hx] Hp]; [left; reflexivity|right; split; assumption].
    + intros [Hx Hp]. split; [right; exact Hx|exact Hp].
    + intros [[->|Hx] Hp]; [rewrite Hpa in Hp; discriminate Hp|].
      split; assumption.
Qed.

Lemma filter_result_none l :
  (forall x, x ∈ l -> p x = Ok false) -> filter_result p l = Ok [].
Proof.
  induction l as [|a l IH]; simpl; intros Hall; [reflexivity|].
  rewrite (Hall a) by left. simpl. rewrite IH; [reflexivity|].
  intros x Hx. apply Hall. right. exact Hx.
Qed.

(** A throw on some element makes the whole filter throw (this one, or
    that of an element before it). *)
Lemma filter_result_throws l x :
  x ∈ l -> (exists e, p x = Throw e) -> exists e, filter_result p l = Throw e.
Proof.
  induction l as [|a l IH]; intros Hx Hthrow; [apply elem_of_nil in Hx; destruct Hx|].
  simpl. destruct (p a) as [b|e] eqn:Hpa; simpl; [|eauto].
  apply elem_of_cons in Hx. destruct Hx as [->|Hx].
  - destruct Hthrow as [e He]. rewrite He in Hpa. discriminate Hpa.
  - destruct (IH Hx Hthrow) as [e ->]. simpl. eauto.
Qed.

Lemma filter_result_error l (err : Error) e :
  (forall x e', p x = Throw e' -> e' = err) ->
  filter_result p l = Throw e -> e = err.
Proof.
  intros Hp. induction l as [|a l IH]; simpl; [discriminate|].
  destruct (p a) as [b|e'] eqn:Hpa; simpl.
  - destruct (filter_result p l) as [r|e']; simpl; [discriminate|].
    intros [= <-]. apply IH. reflexivity.
  - intros [= <-]. eapply Hp, Hpa.
Qed.

End Filtering.

Section Mapping.

Context {X Y : Type} (f : X -> result Y).

Lemma map_result_throws l x :
  x ∈ l -> (exists e, f x = Throw e) -> exists e, map_result f l = Throw e.
Proof.
  induction l as [|a l IH]; intros Hx Hthrow; [apply elem_of_nil in Hx; destruct Hx|].
  simpl. destruct (f a) as [b|e] eqn:Hfa; simpl; [|eauto].
  apply elem_of_cons in Hx. destruct Hx as [->|Hx].
  - destruct Hthrow as [e He]. rewrite He in Hfa. discriminate Hfa.
  - destruct (IH Hx Hthrow) as [e ->]. simpl. eauto.
Qed.

Lemma map_result_error l (err : Error) e :
  (forall x e', f x = Throw e' -> e' = err) ->
  map_result f l = Throw e -> e = err.
Proof.
  intros Hf. induction l as [|a l IH]; simpl; [discriminate|].
  destruct (f a) as [b|e'] eqn:Hfa; simpl.
  - destruct (map_result f l) as [r|e']; simpl; [discriminate|].
    intros [= <-]. apply IH. reflexivity.
  - intros [= <-]. eapply Hf, Hfa.
Qed.

Lemma map_result_map l (g : X -> Y) :
  (forall x, x ∈ l -> f x = Ok (g x)) -> map_result f l = Ok (map g l).
Proof.
  induction l as [|a l IH]; simpl; intros Hall; [reflexivity|].
  rewrite (Hall a) by left. simpl. rewrite IH; [reflexivity|].
  intros x Hx. apply Hall. right. exact Hx.
Qed.

End Mapping.

Section SortedAlready.

Context {A : Type} (cmp : A -> A -> Z).

(** An array whose elements are in order already is left as it is. *)
Lemma Array_sort_sorted l :
  (forall i j x y, (i < j)%nat -> l !! i = Some x -> l !! j = Some y ->
                   cmp x y <= 0) ->
  Array_sort cmp l = l.
Proof.
  induction l as [|x l IH]; intros Hsorted; [reflexivity|].
  change (Array_sort cmp (x :: l)) with (sort_insert cmp x (Array_sort cmp l)).
  rewrite IH.
  - destruct l as [|y l]; [reflexivity|]. simpl.
    rewrite (proj2 (Z.leb_le _ _)); [reflexivity|].
    apply (Hsorted 0%nat 1%nat); [lia|reflexivity|reflexivity].
  - intros i j a b Hij Ha Hb. apply (Hsorted (S i) (S j)); [lia|exact Ha|exact Hb].
Qed.

End SortedAlready.

Section Striking.

Context {A : Type}.
Implicit Types temp : list (option A).

Lemma nulls_length temp (idxs : list nat) :
  length (foldl (fun t idx => <[idx := None]> t) temp idxs) = length temp.
Proof.
  revert temp. induction idxs as [|idx idxs IH]; intros temp; simpl; [reflexivity|].
  rewrite IH. apply length_insert.
Qed.

Lemma null_stays temp (idxs : list nat) j :
  temp !! j = Some None ->
  foldl (fun t idx => <[idx := None]> t) temp idxs !! j = Some None.
Proof.
  revert temp. induction idxs as [|idx idxs IH]; intros temp Hj; simpl; [exact Hj|].
  apply IH. destruct (decide (idx = j)) as [->|Hne].
  - apply list_lookup_insert_eq. eapply lookup_lt_Some, Hj.
  - rewrite list_lookup_insert_ne by exact Hne. exact Hj.
Qed.

Lemma nulls_struck temp (idxs : list nat) j :
  j ∈ idxs -> (j < length temp)%nat ->
  foldl (fun t idx => <[idx := None]> t) temp idxs !! j = Some None.
Proof.
  revert temp. induction idxs as [|idx idxs IH]; intros temp Hj Hlt;
    [apply elem_of_nil in Hj; destruct Hj|].
  simpl. apply elem_of_cons in Hj. destruct Hj as [->|Hj].
  - apply null_stays, list_lookup_insert_eq, Hlt.
  - apply IH; [exact Hj|]. rewrite length_insert. exact Hlt.
Qed.

Lemma struck_from_Some temp temp' i (a : A) :
  struck_from temp temp' -> temp' !! i = Some (Some a) -> temp !! i = Some (Some a).
Proof.
  intros Hs Hi. unfold struck_from in Hs.
  destruct (Forall2_lookup_r _ _ _ _ _ Hs Hi) as (x & Hx & [Hnone| ->]);
    [discriminate Hnone|exact Hx].
Qed.

Lemma struck_from_None temp temp' j :
  struck_from temp temp' -> temp !! j = Some None -> temp' !! j = Some None.
Proof.
  intros Hs Hj. unfold struck_from in Hs.
  destruct (Forall2_lookup_l _ _ _ _ _ Hs Hj) as (y & Hy & [->| ->]); exact Hy.
Qed.

End Striking.

Section DeduplicationRounds.

Context `{Imports}.

Lemma strike_length temp i : length (strike temp i) = length temp.
Proof.
  unfold strike. destruct (temp !! i) as [[e|]|]; try reflexivity.
  apply nulls_length.
Qed.

(** An entry that is there at the end has struck all its collaterals. *)
Lemma strikes_collateral (rounds : list nat) temp i e j :
  i ∈ rounds ->
  foldl strike temp rounds !! i = Some (Some e) ->
  j ∈ collateral e -> (j < length temp)%nat ->
  foldl strike temp rounds !! j = Some None.
Proof.
  revert temp. induction rounds as [|r rounds IH]; intros temp Hi Hfinal Hj Hlt;
    [apply elem_of_nil in Hi; destruct Hi|].
  simpl in *. apply elem_of_cons in Hi.
  pose proof (strikes_struck (strike temp r) (strike temp r) rounds
                (struck_from_refl _)) as Hafter.
  destruct Hi as [->|Hi].
  - pose proof (struck_from_Some _ _ _ _ Hafter Hfinal) as Hmid.
    pose proof (struck_from_Some _ _ _ _
                  (strike_struck temp temp r (struck_from_refl _)) Hmid) as Hbefore.
    apply (struck_from_None _ _ _ Hafter).
    unfold strike. rewrite Hbefore. apply nulls_struck; assumption.
  - apply IH; [exact Hi|exact Hfinal|exact Hj|].
    rewrite strike_length. exact Hlt.
Qed.

(** Rounds over entries without collaterals change nothing. *)
Lemma strikes_nothing (rounds : list nat) temp :
  (forall e, Some e ∈ temp -> collateral e = []) ->
  foldl strike temp rounds = temp.
Proof.
  intros Hnone. induction rounds as [|r rounds IH]; simpl; [reflexivity|].
  assert (Hr : strike temp r = temp); [|rewrite Hr; exact IH].
  unfold strike. destruct (temp !! r) as [[e|]|] eqn:Hlook; try reflexivity.
  rewrite (Hnone e); [reflexivity|].
  apply list_elem_of_lookup. eauto.
Qed.

Lemma collateral_of_elem input d c :
  collateral_of input d = Ok c ->
  forall j, j ∈ c
    <-> exists item,
          input !! j = Some item /\ dep_addr item <> dep_addr d
          /\ lookupFulfills (head (dep_lookupResults d)) (dep_reference item)
             = Ok true.
Proof.
  unfold collateral_of. intros Hc j.
  destruct (filter_result _ _) as [kept|e] eqn:Hk; simpl in Hc; [|discriminate Hc].
  injection Hc as <-. rewrite list_elem_of_fmap.
  pose proof (filter_result_elem _ _ _ Hk) as Hkept. split.
  - intros ([item idx] & -> & Hin). apply Hkept in Hin.
    destruct Hin as [Himap Hp]. apply elem_of_lookup_imap in Himap.
    destruct Himap as (i & y & [= -> ->] & Hlook).
    exists y. split; [exact Hlook|]. unfold is_collateral in Hp. simpl in Hp.
    case_bool_decide; [split; assumption|discriminate Hp].
  - intros (item & Hlook & Hne & Hful). exists (item, j). split; [reflexivity|].
    apply Hkept. split.
    + apply elem_of_lookup_imap. exists j, item. split; [reflexivity|exact Hlook].
    + unfold is_collateral. simpl. rewrite bool_decide_eq_true_2 by exact Hne.
      exact Hful.
Qed.

(** What [temp] is before it is sorted: entry [i] is made of [input[i]]
    and its collaterals. *)
Lemma removeDuplicates_temp_entries input temp :
  removeDuplicates_temp input = Ok temp ->
  exists temp0,
    temp = Array_sort by_collateral temp0
    /\ length temp0 = length input
    /\ forall i e, temp0 !! i = Some e ->
         input !! i = Some (dep e)
         /\ collateral_of input (dep e) = Ok (collateral e).
Proof.
  unfold removeDuplicates_temp. intros Ht.
  destruct (map_result _ input) as [temp0|e] eqn:Hm; simpl in Ht;
    [|discriminate Ht].
  injection Ht as <-. exists temp0. split; [reflexivity|].
  apply map_result_Ok in Hm. split.
  - symmetry. eapply Forall2_length, Hm.
  - intros i e Hi.
    destruct (Forall2_lookup_r _ _ _ _ _ Hm Hi) as (d & Hd & Hde).
    destruct (collateral_of input d) as [c|err] eqn:Hc; simpl in Hde;
      [|discriminate Hde].
    injection Hde as <-. simpl. split; [exact Hd|exact Hc].
Qed.

End DeduplicationRounds.

Section DeduplicationCases.

Context `{Imports}.

Lemma lookupFulfills_throw lookup reference e :
  lookupFulfills lookup reference = Throw e -> e = TypeError_undefined.
Proof.
  destruct lookup as [[key [v|]]|].
  - rewrite lookupFulfills_value. discriminate.
  - rewrite lookupFulfills_no_value. case_decide; [discriminate|].
    intros [= <-]. reflexivity.
  - intros [= <-]. reflexivity.
Qed.

Lemma is_collateral_throw d inner e :
  is_collateral d inner = Throw e -> e = TypeError_undefined.
Proof.
  unfold is_collateral. case_bool_decide; [apply lookupFulfills_throw|discriminate].
Qed.

Lemma removeDuplicates_throw input e :
  removeDuplicates input = Throw e -> e = TypeError_undefined.
Proof.
  unfold removeDuplicates, removeDuplicates_temp.
  destruct (map_result _ input) as [temp|e'] eqn:Hm; simpl; [discriminate|].
  intros [= <-]. eapply map_result_error; [|exact Hm].
  intros d e1. unfold collateral_of.
  destruct (filter_result _ _) as [kept|e2] eqn:Hk; simpl; [discriminate|].
  intros [= <-]. eapply filter_result_error; [|exact Hk].
  intros inner e3. apply is_collateral_throw.
Qed.

Lemma removeDuplicates_no_candidate input d e :
  d ∈ input -> e ∈ input -> dep_lookupResults d = [] ->
  dep_addr e <> dep_addr d ->
  removeDuplicates input = Throw TypeError_undefined.
Proof.
  intros Hd He Hnone Hne.
  assert (Hthrows : exists err, removeDuplicates input = Throw err).
  { unfold removeDuplicates, removeDuplicates_temp.
    destruct (map_result_throws
                (fun d => let? c := collateral_of input d in
                          Ok {| dep := d; collateral := c |}) input d Hd)
      as [err ->]; [|simpl; eauto].
    unfold collateral_of. apply list_elem_of_lookup in He. destruct He as [j Hj].
    destruct (filter_result_throws (is_collateral d)
                (imap (fun idx item => (item, idx)) input) (e, j))
      as [err ->]; [| |simpl; eauto].
    - apply elem_of_lookup_imap. exists j, e. split; [reflexivity|exact Hj].
    - unfold is_collateral. simpl. rewrite bool_decide_eq_true_2 by exact Hne.
      rewrite Hnone. simpl. eauto. }
  destruct Hthrows as [err Herr]. rewrite Herr.
  rewrite (removeDuplicates_throw _ _ Herr). reflexivity.
Qed.

Lemma removeDuplicates_one d : removeDuplicates [d] = Ok [d].
Proof.
  unfold removeDuplicates, removeDuplicates_temp, collateral_of, is_collateral.
  simpl. rewrite (bool_decide_eq_false_2 (dep_addr d <> dep_addr d)) by tauto.
  reflexivity.
Qed.

Lemma collateral_of_unrelated input d :
  (forall e, e ∈ input -> dep_addr e <> dep_addr d ->
             lookupFulfills (head (dep_lookupResults d)) (dep_reference e)
             = Ok false) ->
  collateral_of input d = Ok [].
Proof.
  intros Hun. unfold collateral_of. rewrite filter_result_none; [reflexivity|].
  intros [item idx] Hin. apply elem_of_lookup_imap in Hin.
  destruct Hin as (i & y & [= -> ->] & Hlook).
  unfold is_collateral. simpl. case_bool_decide as Hne; [|reflexivity].
  apply Hun; [|exact Hne]. apply list_elem_of_lookup. eauto.
Qed.

End DeduplicationCases.

(** X5. When the entries of [input] stand in the order of the sort
    already (no entry has more collaterals than an entry before it), the
    positions in [input] are the positions in the sorted array, and the
    output of [removeDuplicates] has no two distinct entries of which one's
    primary candidate fulfils the other's reference. *)
Theorem removeDuplicates_ordered `{Imports} (input output : list IDependency) :
  (forall i j d e,
      (i < j)%nat -> input !! i = Some d -> input !! j = Some e ->
      (collateral_count input e <= collateral_count input d)%nat) ->
  removeDuplicates input = Ok output ->
  ~ redundant output.
Proof.
  intros Hordered Hrun (d & e & Hd & He & Hne & Hful).
  unfold removeDuplicates in Hrun.
  destruct (removeDuplicates_temp input) as [temp|err] eqn:Ht; simpl in Hrun;
    [|discriminate Hrun].
  injection Hrun as <-.
  destruct (removeDuplicates_temp_entries _ _ Ht) as (temp0 & -> & Hlen & Hentries).
  rewrite Array_sort_sorted in Hd, He.
  2,3: intros i j x y Hij Hx Hy; unfold by_collateral;
       destruct (Hentries i x Hx) as [Hix Hcx], (Hentries j y Hy) as [Hjy Hcy];
       pose proof (Hordered i j _ _ Hij Hix Hjy) as Hle;
       unfold collateral_count in Hle; rewrite Hcx, Hcy in Hle; lia.
  set (final := foldl strike (map Some temp0) (seq 0 (length temp0))) in *.
  assert (Hstruck : struck_from (map Some temp0) final)
    by apply strikes_struck, struck_from_refl.
  assert (Hfinal_len : length final = length temp0).
  { apply Forall2_length in Hstruck. rewrite length_map in Hstruck. lia. }
  apply list_elem_of_fmap in Hd. destruct Hd as (ed & -> & Hd).
  apply list_elem_of_fmap in He. destruct He as (ee & -> & He).
  apply list_elem_of_omap in Hd. destruct Hd as (od & Hd & Hod).
  apply list_elem_of_omap in He. destruct He as (oe & He & Hoe).
  simpl in Hod, Hoe. subst od oe.
  apply list_elem_of_lookup in Hd. destruct Hd as [i Hi].
  apply list_elem_of_lookup in He. destruct He as [j Hj].
  pose proof (struck_from_Some _ _ _ _ Hstruck Hi) as Hi0.
  pose proof (struck_from_Some _ _ _ _ Hstruck Hj) as Hj0.
  rewrite list_lookup_fmap in Hi0, Hj0.
  destruct (temp0 !! i) as [ed'|] eqn:Hti; [|discriminate Hi0].
  destruct (temp0 !! j) as [ee'|] eqn:Htj; [|discriminate Hj0].
  simpl in Hi0, Hj0. injection Hi0 as ->. injection Hj0 as ->.
  destruct (Hentries i ed Hti) as [_ Hcd].
  destruct (Hentries j ee Htj) as [Hje _].
  assert (Hcoll : j ∈ collateral ed).
  { apply (collateral_of_elem _ _ _ Hcd). exists (dep ee).
    split; [exact Hje|]. split; [congruence|exact Hful]. }
  assert (Hnull : final !! j = Some None).
  { apply (strikes_collateral _ _ i ed); [|exact Hi|exact Hcoll|].
    - apply elem_of_seq. apply lookup_lt_Some in Hti. lia.
    - rewrite length_map. eapply lookup_lt_Some, Htj. }
  rewrite Hj in Hnull. discriminate Hnull.
Qed.

Lemma removeDuplicates_ordered_witness :
  ~ @redundant Sample.imports [Cover.dep_a].
Proof.
  apply (@removeDuplicates_ordered Sample.imports
           [Cover.dep_a; Cover.dep_b; Cover.dep_c]).
  - intros i j d e Hij Hi Hj.
    destruct i as [|[|[|i]]], j as [|[|[|j]]]; simpl in Hi, Hj;
      try lia; try discriminate;
      injection Hi as <-; injection Hj as <-; vm_compute; lia.
  - vm_compute. reflexivity.
Defined.

(** X6. When no entry's primary candidate fulfils the reference of
    another entry, [removeDuplicates] returns its input as it is: nothing
    is dropped and the order is kept. *)
Theorem removeDuplicates_unrelated `{Imports} (input : list IDependency) :
  (forall d e,
      d ∈ input -> e ∈ input -> dep_addr e <> dep_addr d ->
      lookupFulfills (head (dep_lookupResults d)) (dep_reference e) = Ok false) ->
  removeDuplicates input = Ok input.
Proof.
  intros Hun. unfold removeDuplicates, removeDuplicates_temp.
  rewrite (map_result_map _ input (fun d => {| dep := d; collateral := [] |})).
  2:{ intros d Hd. rewrite collateral_of_unrelated; [reflexivity|].
      intros e He. apply Hun; assumption. }
  simpl. rewrite Array_sort_sorted.
  2:{ intros i j x y _ Hx Hy. rewrite list_lookup_fmap in Hx, Hy.
      destruct (input !! i); [|discriminate Hx].
      destruct (input !! j); [|discriminate Hy].
      injection Hx as <-. injection Hy as <-. reflexivity. }
  rewrite strikes_nothing.
  2:{ intros e He. apply list_elem_of_fmap in He. destruct He as (e' & [= ->] & He).
      apply list_elem_of_fmap in He. destruct He as (d & -> & _). reflexivity. }
  rewrite omap_id_Some. f_equal. rewrite <- list_fmap_compose.
  apply list_fmap_id.
Qed.

Lemma removeDuplicates_unrelated_witness :
  @removeDuplicates Sample.imports [Scenario.dep_other; Scenario.dep_core]
  = Ok [Scenario.dep_other; Scenario.dep_core].
Proof.
  apply (@removeDuplicates_unrelated Sample.imports).
  intros d e Hd He Hne. rewrite !elem_of_cons in Hd, He.
  destruct Hd as [->|[->|Hd]], He as [->|[->|He]];
    try (apply elem_of_nil in Hd; destruct Hd);
    try (apply elem_of_nil in He; destruct He);
    try (exfalso; apply Hne; reflexivity);
    vm_compute; reflexivity.
Defined.

(** X7. A one-element input is returned as it is, whatever the entry
    ([lookupFulfills] is not called).  With an entry that has no lookup
    result and another, distinct entry, [removeDuplicates] throws the
    [TypeError] of reading a property of [undefined]; and that is the only
    error it ever throws. *)
Theorem removeDuplicates_errors `{Imports} :
  (forall d, removeDuplicates [d] = Ok [d])
  /\ (forall input d e,
        d ∈ input -> e ∈ input -> dep_lookupResults d = [] ->
        dep_addr e <> dep_addr d ->
        removeDuplicates input = Throw TypeError_undefined)
  /\ (forall input err,
        removeDuplicates input = Throw err -> err = TypeError_undefined).
Proof.
  split; [exact removeDuplicates_one|].
  split; [exact removeDuplicates_no_candidate|exact removeDuplicates_throw].
Qed.

Lemma removeDuplicates_errors_witness :
  @removeDuplicates Sample.imports
    [Scenario.dep_core; MkDependency 7 None Scenario.ref_other []]
  = Throw TypeError_undefined.
Proof.
  apply (@removeDuplicates_errors Sample.imports)
    with (d := MkDependency 7 None Scenario.ref_other []) (e := Scenario.dep_core).
  - set_solver.
  - set_solver.
  - reflexivity.
  - discriminate.
Defined.

(** ** gatherDependencies: what the returned entries are *)

Section GathererFacts.

Context `{Imports}.

Variable api : IExtensionApi.
Let state : IState := store_getState api.

(** Without mods of the active game a fulfilled call has done nothing. *)
Lemma gatherDependencies_no_mods_world fuel rules w output w' :
  st_mods state !! activeGameId state = None ->
  gatherDependencies fuel rules api w = Some (Fulfilled output, w') ->
  output = [] /\ w' = w.
Proof.
  intros Hnone Hrun. destruct fuel as [|fuel]; [discriminate Hrun|].
  rewrite gatherDependencies_S in Hrun. unfold state in Hnone.
  destruct (requirements_of rules) as [|rule rest].
  - injection Hrun as <- <-. split; reflexivity.
  - simpl in Hrun. unfold gather_step at 1, findModByRef in Hrun.
    rewrite Hnone in Hrun. discriminate Hrun.
Qed.

Lemma findModByRef_Ok_mods reference r :
  findModByRef reference state = Ok r ->
  is_Some (st_mods state !! activeGameId state).
Proof.
  unfold findModByRef. destruct (st_mods state !! activeGameId state);
    [eauto|discriminate].
Qed.

(** A reduction with an element whose step never settles, and no step
    that rejects, never settles. *)
Lemma Promise_reduce_never {A B} (l : list A) (reducer : B -> A -> Promise B) x :
  x ∈ l ->
  (forall total w, reducer total x w = None) ->
  (forall y total w e w', reducer total y w <> Some (Rejected e, w')) ->
  forall total w, Promise_reduce l reducer total w = None.
Proof.
  intros Hx Hnever Hreject.
  induction l as [|a l IH]; intros total w; [apply elem_of_nil in Hx; destruct Hx|].
  simpl. unfold then_.
  destruct (reducer total a w) as [[[total'|e] w1]|] eqn:Hstep; [| |reflexivity].
  - apply elem_of_cons in Hx. destruct Hx as [->|Hx].
    + rewrite Hnever in Hstep. discriminate Hstep.
    + apply IH, Hx.
  - exfalso. eapply Hreject, Hstep.
Qed.

(** Elements whose step gives the running list back can be left out. *)
Lemma Promise_reduce_filter {A B} (keep : A -> bool) (l : list A)
    (reducer : B -> A -> Promise B) :
  (forall x total w,
      x ∈ l -> keep x = false -> reducer total x w = Some (Fulfilled total, w)) ->
  forall total w,
    Promise_reduce (List.filter keep l) reducer total w
    = Promise_reduce l reducer total w.
Proof.
  induction l as [|a l IH]; intros Hskip total w; [reflexivity|].
  assert (Hskip' : forall x total w,
    x ∈ l -> keep x = false -> reducer total x w = Some (Fulfilled total, w)).
  { intros x t w0 Hx. apply Hskip. right. exact Hx. }
  simpl. destruct (keep a) eqn:Hkeep; simpl.
  - unfold then_. destruct (reducer total a w) as [[[total'|e] w1]|];
      [apply IH, Hskip'|reflexivity|reflexivity].
  - unfold then_. rewrite (Hskip a total w) by (left || exact Hkeep).
    apply IH, Hskip'.
Qed.

Lemma filter_filter_comm {A} (p q : A -> bool) (l : list A) :
  List.filter p (List.filter q l) = List.filter q (List.filter p l).
Proof.
  induction l as [|a l IH]; [reflexivity|]. simpl.
  destruct (p a) eqn:Hp, (q a) eqn:Hq; simpl; rewrite ?Hp, ?Hq, IH; reflexivity.
Qed.

Lemma lookups_app evs evs' : lookups (evs ++ evs') = (lookups evs + lookups evs')%nat.
Proof. unfold lookups. rewrite List.filter_app, length_app. reflexivity. Qed.

Lemma logs_app evs evs' : logs (evs ++ evs') = (logs evs + logs evs')%nat.
Proof. unfold logs. rewrite List.filter_app, length_app. reflexivity. Qed.

End GathererFacts.

Section GathererAccounts.

Context `{Imports}.

Variable api : IExtensionApi.
Let state : IState := store_getState api.

Lemma fresh_entries_submseteq w w' (input output : list IDependency) :
  output ⊆+ input -> fresh_entries w input w' -> fresh_entries w output w'.
Proof.
  intros Hsub (Hle & Hnodup & Hrange). split; [exact Hle|]. split.
  - assert (Hmap : map dep_addr output ⊆+ map dep_addr input)
      by (apply fmap_submseteq; exact Hsub).
    apply submseteq_sublist_l in Hmap. destruct Hmap as (k & Hk & Hperm).
    eapply sublist_NoDup; [|exact Hk]. rewrite Hperm. exact Hnodup.
  - intros d Hd. apply Hrange. eapply elem_of_submseteq; eassumption.
Qed.

Lemma events_account_submseteq w w' (input output : list IDependency) :
  output ⊆+ input -> events_account w input w' -> events_account w output w'.
Proof.
  intros Hsub (new & Hev & Hcount). exists new. split; [exact Hev|].
  apply submseteq_length in Hsub. lia.
Qed.

Hypothesis mods_present : is_Some (st_mods state !! activeGameId state).

Lemma gatherDependencies_accounted fuel :
  forall rules w res w',
    gatherDependencies fuel rules api w = Some (res, w') ->
    exists output,
      res = Fulfilled output
      /\ fresh_entries w output w' /\ events_account w output w'.
Proof.
  induction fuel as [|fuel IH]; intros rules w res w' Hrun; [discriminate Hrun|].
  rewrite gatherDependencies_S in Hrun. apply then_Some in Hrun.
  set (I := fun (total : list IDependency) (w1 : World) =>
              fresh_entries w total w1 /\ events_account w total w1).
  assert (Hreduce : forall res1 w1,
    Promise_reduce (requirements_of rules)
      (gather_step (fun rules' => gatherDependencies fuel rules' api) api state)
      [] w = Some (res1, w1) ->
    exists total, res1 = Fulfilled total /\ I total w1).
  { intros res1 w1. apply (Promise_reduce_post I).
    2:{ split.
        - split; [lia|]. split; [constructor|].
          intros d Hd. apply elem_of_nil in Hd. destruct Hd.
        - exists []. rewrite app_nil_r. split; [reflexivity|unfold logs, lookups; simpl; lia]. }
    clear res1 w1.
    intros rule total w1 res1 w2 Hin
      [(Hle & Hnodup & Hrange) (new & Hev & Hcount)] Hstep.
    apply gather_step_outcome in Hstep.
    destruct Hstep as [e Hfind | m Hfind | e Hfind Hreply
                      | details Hfind Hreply Hnone
                      | details v e w3 Hfind Hreply Hsome Hrec
                      | details v deps w3 Hfind Hreply Hsome Hrec].
    - apply findModByRef_Throw in Hfind. pose proof mods_present as Hmods.
      unfold state in Hmods. rewrite Hfind in Hmods. destruct Hmods as [? [=]].
    - exists total. split; [reflexivity|]. split.
      + split; [exact Hle|]. split; assumption.
      + exists new. split; assumption.
    - exists total. split; [reflexivity|]. split.
      + split; [exact Hle|]. split; assumption.
      + exists (new ++ [EvLookup (rule_reference rule); failed_to_look_up e]).
        split.
        * simpl. rewrite Hev, <- !app_assoc. reflexivity.
        * rewrite logs_app, lookups_app. unfold logs, lookups in *. simpl. lia.
    - exists total. split; [reflexivity|]. split.
      + split; [exact Hle|]. split; assumption.
      + exists (new ++ [EvLookup (rule_reference rule);
                        failed_to_look_up reference_not_found]).
        split.
        * simpl. rewrite Hev, <- !app_assoc. reflexivity.
        * rewrite logs_app, lookups_app. unfold logs, lookups in *. simpl. lia.
    - apply IH in Hrec. destruct Hrec as (out & [=] & _).
    - apply IH in Hrec.
      destruct Hrec as (out & [= <-] & (Hle2 & Hnodup2 & Hrange2)
                            & (new2 & Hev2 & Hcount2)).
      simpl in Hle2, Hrange2, Hev2.
      eexists. split; [reflexivity|]. split.
      + split; [simpl; lia|]. split.
        * rewrite !fmap_app. simpl. apply list.NoDup_app. split; [exact Hnodup|].
          split.
          { intros a Ha Ha'. apply list_elem_of_fmap in Ha.
            destruct Ha as (d & -> & Hd). apply Hrange in Hd.
            apply elem_of_app in Ha'. destruct Ha' as [Ha'|Ha'].
            - apply list_elem_of_fmap in Ha'. destruct Ha' as (d' & Heq & Hd').
              apply Hrange2 in Hd'. lia.
            - apply list_elem_of_singleton in Ha'. lia. }
          apply list.NoDup_app. split; [exact Hnodup2|]. split; [|apply list.NoDup_singleton].
          intros a Ha Ha'. apply list_elem_of_fmap in Ha.
          destruct Ha as (d & -> & Hd). apply Hrange2 in Hd.
          apply list_elem_of_singleton in Ha'. lia.
        * intros d Hd. simpl. apply elem_of_app in Hd. destruct Hd as [Hd|Hd].
          { apply Hrange in Hd. lia. }
          apply elem_of_app in Hd. destruct Hd as [Hd|Hd].
          { apply Hrange2 in Hd. lia. }
          apply list_elem_of_singleton in Hd. subst d. simpl. lia.
      + exists (new ++ [EvLookup (rule_reference rule)] ++ new2). split.
        * simpl. rewrite Hev2, Hev, <- !app_assoc. reflexivity.
        * rewrite logs_app, lookups_app, logs_app, lookups_app, !length_app.
          unfold logs, lookups in *. simpl. lia. }
  destruct Hrun as [(e & Hred & ->) | (input & w1 & Hred & Hdedup)].
  - apply Hreduce in Hred. destruct Hred as (total & [=] & _).
  - destruct (Hreduce _ _ Hred) as (total & [= <-] & Hfresh & Hacc).
    apply of_result_Some in Hdedup. destruct Hdedup as [-> ->].
    destruct (removeDuplicates input) as [output|e] eqn:Hout.
    + exists output. split; [reflexivity|].
      pose proof (removeDuplicates_submseteq _ _ Hout) as Hsub.
      split; [eapply fresh_entries_submseteq|eapply events_account_submseteq];
        eassumption.
    + exfalso. assert (Hfull : gatherDependencies (S fuel) rules api w
                                = Some (Rejected e, w1)).
      { rewrite gatherDependencies_S. unfold then_. rewrite Hred.
        simpl. rewrite Hout. reflexivity. }
      destruct (gatherDependencies_gathered api mods_present _ _ _ _ _ Hfull)
        as (out & [=] & _).
Qed.

End GathererAccounts.

(** X8. Every dependency that [gatherDependencies] returns has a first
    lookup result, and that one has a value: [lookupResults[0].value] can
    be read from each returned entry. *)
Theorem gatherDependencies_candidates `{Imports} (api : IExtensionApi)
    (fuel : nat) (rules : option (list IRule)) (w w' : World)
    (output : list IDependency) :
  gatherDependencies fuel rules api w = Some (Fulfilled output, w') ->
  forall d, d ∈ output ->
    exists d0 rest v, dep_lookupResults d = d0 :: rest /\ lr_value d0 = Some v.
Proof.
  intros Hrun d Hd.
  destruct (st_mods (store_getState api) !! activeGameId (store_getState api))
    as [mods|] eqn:Hmods.
  - destruct (gatherDependencies_gathered api (mk_is_Some _ _ Hmods)
                fuel rules w _ w' Hrun) as (out & [= <-] & Hcand & _).
    rewrite list.Forall_forall in Hcand. exact (Hcand d Hd).
  - rewrite (gatherDependencies_no_mods api fuel rules w output w' Hmods Hrun) in Hd.
    apply elem_of_nil in Hd. destruct Hd.
Qed.

Lemma gatherDependencies_candidates_witness :
  exists d0 rest v,
    dep_lookupResults Scenario.dep_core = d0 :: rest /\ lr_value d0 = Some v.
Proof.
  apply (@gatherDependencies_candidates Sample.imports Gathering.api 2
           (Some Gathering.rules) Gathering.world
           (MkWorld 3 [EvLookup Scenario.ref_other; EvLookup Scenario.ref_core_hash;
                       EvLookup Scenario.ref_core])
           [Scenario.dep_core; Scenario.dep_core_hash]).
  - vm_compute. reflexivity.
  - left.
Defined.

(** X9. The dependencies that [gatherDependencies] returns are pairwise
    distinct objects, all of them created during the call: no entry is
    returned twice and none is an object that existed before. *)
Theorem gatherDependencies_fresh `{Imports} (api : IExtensionApi)
    (fuel : nat) (rules : option (list IRule)) (w w' : World)
    (output : list IDependency) :
  gatherDependencies fuel rules api w = Some (Fulfilled output, w') ->
  NoDup (map dep_addr output)
  /\ forall d, d ∈ output -> (next_addr w <= dep_addr d < next_addr w')%nat.
Proof.
  intros Hrun.
  destruct (st_mods (store_getState api) !! activeGameId (store_getState api))
    as [mods|] eqn:Hmods.
  - destruct (gatherDependencies_accounted api (mk_is_Some _ _ Hmods)
                fuel rules w _ w' Hrun) as (out & [= <-] & (_ & Hnodup & Hrange) & _).
    split; assumption.
  - destruct (gatherDependencies_no_mods_world api fuel rules w output w' Hmods Hrun)
      as [-> ->].
    split; [constructor|]. intros d Hd. apply elem_of_nil in Hd. destruct Hd.
Qed.

Lemma gatherDependencies_fresh_witness :
  NoDup (map dep_addr [Scenario.dep_core; Scenario.dep_core_hash]).
Proof.
  apply (@gatherDependencies_fresh Sample.imports Gathering.api 2
           (Some Gathering.rules) Gathering.world
           (MkWorld 3 [EvLookup Scenario.ref_other; EvLookup Scenario.ref_core_hash;
                       EvLookup Scenario.ref_core])).
  vm_compute. reflexivity.
Defined.

(** X10. A call of [gatherDependencies] only adds events to the trace,
    and among the events it adds there is a lookup of its own for every
    dependency it returns and for every failure it logs: returned entries
    plus logged failures never outnumber the lookups made. *)
Theorem gatherDependencies_accounting `{Imports} (api : IExtensionApi)
    (fuel : nat) (rules : option (list IRule)) (w w' : World)
    (output : list IDependency) :
  gatherDependencies fuel rules api w = Some (Fulfilled output, w') ->
  exists new,
    events w' = events w ++ new
    /\ (length output + logs new <= lookups new)%nat.
Proof.
  intros Hrun.
  destruct (st_mods (store_getState api) !! activeGameId (store_getState api))
    as [mods|] eqn:Hmods.
  - destruct (gatherDependencies_accounted api (mk_is_Some _ _ Hmods)
                fuel rules w _ w' Hrun) as (out & [= <-] & _ & Hacc).
    exact Hacc.
  - destruct (gatherDependencies_no_mods_world api fuel rules w output w' Hmods Hrun)
      as [-> ->].
    exists []. rewrite app_nil_r. split; [reflexivity|].
    unfold logs, lookups. simpl. lia.
Qed.

Lemma gatherDependencies_accounting_witness :
  exists new,
    [EvLookup Scenario.ref_other; EvLookup Scenario.ref_core_hash;
     EvLookup Scenario.ref_core] = [] ++ new
    /\ (2 + logs new <= lookups new)%nat.
Proof.
  apply (@gatherDependencies_accounting Sample.imports Gathering.api 2
           (Some Gathering.rules) Gathering.world
           (MkWorld 3 [EvLookup Scenario.ref_other; EvLookup Scenario.ref_core_hash;
                       EvLookup Scenario.ref_core])
           [Scenario.dep_core; Scenario.dep_core_hash]).
  vm_compute. reflexivity.
Defined.

(** X11. When the candidate found for a requirement that no installed mod
    matches has, among its own rules, a requirement with the same
    reference, [gatherDependencies] never settles: nothing bounds the
    recursion. *)
Theorem gatherDependencies_self_requiring `{Imports} (api : IExtensionApi)
    (rules : option (list IRule)) (rule rule' : IRule)
    (details : list ILookupResult) (v : IModInfo) :
  rule ∈ requirements_of rules ->
  findModByRef (rule_reference rule) (store_getState api) = Ok None ->
  lookupModReference_reply api (rule_reference rule) = Fulfilled details ->
  head details ≫= lr_value = Some v ->
  rule' ∈ requirements_of (val_rules v) ->
  rule_reference rule' = rule_reference rule ->
  forall fuel w, gatherDependencies fuel rules api w = None.
Proof.
  intros Hin Hfind Hreply Hvalue Hin' Href.
  assert (Hmods : is_Some (st_mods (store_getState api)
                            !! activeGameId (store_getState api)))
    by (eapply findModByRef_Ok_mods; exact Hfind).
  assert (Hreject : forall recurse y total w e w',
    gather_step recurse api (store_getState api) total y w <> Some (Rejected e, w')).
  { intros recurse y total w e w' Hstep. apply gather_step_outcome in Hstep.
    inversion Hstep as [e0 Hthrow | | | | |]; subst.
    apply findModByRef_Throw in Hthrow.
    rewrite Hthrow in Hmods. destruct Hmods as [? [=]]. }
  assert (Hstuck : forall recurse r,
    rule_reference r = rule_reference rule ->
    (forall w, recurse (val_rules v) w = None) ->
    forall total w, gather_step recurse api (store_getState api) total r w = None).
  { intros recurse r Hr Hrec total w.
    destruct (gather_step recurse api (store_getState api) total r w)
      as [[res w']|] eqn:Hstep; [|reflexivity].
    exfalso. apply gather_step_outcome in Hstep.
    destruct Hstep as [e Hf | m Hf | e Hf Hrep
                      | details' Hf Hrep Hnone
                      | details' v' e w2 Hf Hrep Hsome Hr2
                      | details' v' deps w2 Hf Hrep Hsome Hr2];
      rewrite Hr in Hf; try rewrite Hr in Hrep.
    - rewrite Hfind in Hf. discriminate Hf.
    - rewrite Hfind in Hf. discriminate Hf.
    - rewrite Hreply in Hrep. discriminate Hrep.
    - rewrite Hreply in Hrep. injection Hrep as <-.
      rewrite Hvalue in Hnone. discriminate Hnone.
    - rewrite Hreply in Hrep. injection Hrep as <-.
      rewrite Hvalue in Hsome. injection Hsome as <-.
      rewrite Hrec in Hr2. discriminate Hr2.
    - rewrite Hreply in Hrep. injection Hrep as <-.
      rewrite Hvalue in Hsome. injection Hsome as <-.
      rewrite Hrec in Hr2. discriminate Hr2. }
  assert (Hnested : forall fuel w, gatherDependencies fuel (val_rules v) api w = None).
  { induction fuel as [|fuel IH]; intros w; [reflexivity|].
    rewrite gatherDependencies_S. unfold then_.
    rewrite (Promise_reduce_never _ _ rule' Hin'); [reflexivity| |].
    - apply Hstuck; [exact Href|exact IH].
    - intros y total w0 e w'. apply Hreject. }
  intros fuel w. destruct fuel as [|fuel]; [reflexivity|].
  rewrite gatherDependencies_S. unfold then_.
  rewrite (Promise_reduce_never _ _ rule Hin); [reflexivity| |].
  - apply Hstuck; [reflexivity|]. intros w0. apply Hnested.
  - intros y total w0 e w'. apply Hreject.
Qed.

Lemma gatherDependencies_self_requiring_witness :
  @gatherDependencies Sample.imports 100 (Some [Cycle.rule]) Cycle.api
    (MkWorld 0 []) = None.
Proof.
  apply (@gatherDependencies_self_requiring Sample.imports Cycle.api
           (Some [Cycle.rule]) Cycle.rule Cycle.rule
           [MkLookupResult "core" (Some Cycle.value)] Cycle.value).
  - left.
  - vm_compute. reflexivity.
  - reflexivity.
  - reflexivity.
  - left.
  - reflexivity.
Defined.

(** X12. Rules that are not requirements and requirements that an
    installed mod matches can be taken out of the rule list: the call
    gives the same result and leaves the same trace. *)
Theorem gatherDependencies_passes_over `{Imports} (api : IExtensionApi)
    (fuel : nat) (rules : list IRule) (w : World) :
  gatherDependencies fuel
    (Some (List.filter (fun rule => negb (passed_over (store_getState api) rule))
             rules)) api w
  = gatherDependencies fuel (Some rules) api w.
Proof.
  destruct fuel as [|fuel]; [reflexivity|].
  rewrite !gatherDependencies_S. unfold requirements_of.
  rewrite filter_filter_comm. unfold then_.
  rewrite Promise_reduce_filter; [reflexivity|].
  intros rule total w0 Hin Hpassed.
  apply list_elem_of_In, filter_In in Hin. destruct Hin as [_ Htype].
  apply negb_false_iff in Hpassed. unfold passed_over in Hpassed.
  rewrite Htype in Hpassed. simpl in Hpassed.
  destruct (findModByRef (rule_reference rule) (store_getState api))
    as [[m|]|e] eqn:Hfind; try discriminate Hpassed.
  apply gather_step_outcome. eapply step_installed, Hfind.
Qed.

(** ** removeDuplicates: the order of the output *)

Section SortedOutput.

Context {A : Type} (cmp : A -> A -> Z).

Hypothesis cmp_total : forall x y, 0 < cmp x y -> cmp y x <= 0.
Hypothesis cmp_trans : forall x y z, cmp x y <= 0 -> cmp y z <= 0 -> cmp x z <= 0.

Lemma sort_insert_sorted x l :
  StronglySorted (fun a b => cmp a b <= 0) l ->
  StronglySorted (fun a b => cmp a b <= 0) (sort_insert cmp x l).
Proof.
  induction 1 as [|y l Hsorted IH Hy]; simpl.
  - constructor; constructor.
  - destruct (cmp x y <=? 0) eqn:Hcmp.
    + apply Z.leb_le in Hcmp. constructor; [constructor; assumption|].
      constructor; [exact Hcmp|].
      rewrite list.Forall_forall in Hy |- *. intros z Hz.
      eapply cmp_trans; [exact Hcmp|apply Hy, Hz].
    + apply Z.leb_gt in Hcmp. constructor; [exact IH|].
      rewrite (sort_insert_perm cmp x l). constructor; [|exact Hy].
      apply cmp_total. lia.
Qed.

Lemma Array_sort_sorts l :
  StronglySorted (fun a b => cmp a b <= 0) (Array_sort cmp l).
Proof.
  induction l as [|x l IH]; [constructor|].
  apply sort_insert_sorted, IH.
Qed.

End SortedOutput.

Lemma StronglySorted_sublist {A} (R : A -> A -> Prop) (l1 l2 : list A) :
  sublist l1 l2 -> StronglySorted R l2 -> StronglySorted R l1.
Proof.
  induction 1 as [|x l1 l2 Hsub IH|x l1 l2 Hsub IH]; intros Hs.
  - constructor.
  - apply StronglySorted_inv in Hs. destruct Hs as [Hs Hx].
    constructor; [apply IH, Hs|].
    rewrite list.Forall_forall in Hx |- *. intros y Hy.
    apply Hx. eapply elem_of_sublist; eassumption.
  - apply StronglySorted_inv in Hs. destruct Hs as [Hs _]. apply IH, Hs.
Qed.

Lemma StronglySorted_map {A B} (R : A -> A -> Prop) (R' : B -> B -> Prop)
    (f : A -> B) (l : list A) :
  (forall x y, x ∈ l -> y ∈ l -> R x y -> R' (f x) (f y)) ->
  StronglySorted R l -> StronglySorted R' (map f l).
Proof.
  induction l as [|x l IH]; intros Hf Hs; simpl; [constructor|].
  apply StronglySorted_inv in Hs. destruct Hs as [Hs Hx].
  constructor.
  - apply IH; [|exact Hs]. intros a b Ha Hb. apply Hf; right; assumption.
  - rewrite list.Forall_forall in Hx. apply list.Forall_forall. intros y Hy.
    apply list_elem_of_fmap in Hy. destruct Hy as (z & -> & Hz).
    apply Hf; [left|right; exact Hz|apply Hx, Hz].
Qed.

(** X13. The output of [removeDuplicates] is in the order of the sort:
    no entry has more collaterals, counted over [input], than an entry
    that stands before it in the output. *)
Theorem removeDuplicates_descending `{Imports} (input output : list IDependency) :
  removeDuplicates input = Ok output ->
  StronglySorted
    (fun d e => (collateral_count input e <= collateral_count input d)%nat)
    output.
Proof.
  unfold removeDuplicates. intros Hrun.
  destruct (removeDuplicates_temp input) as [temp|err] eqn:Ht; simpl in Hrun;
    [|discriminate Hrun].
  injection Hrun as <-.
  destruct (removeDuplicates_temp_entries _ _ Ht) as (temp0 & -> & _ & Hentries).
  set (temp := Array_sort by_collateral temp0) in *.
  assert (Hsorted : StronglySorted (fun a b => by_collateral a b <= 0) temp).
  { apply Array_sort_sorts; unfold by_collateral; intros; lia. }
  assert (Hsub : sublist (omap id (foldl strike (map Some temp) (seq 0 (length temp))))
                         temp).
  { pose proof (struck_from_sublist (map Some temp)
                  (foldl strike (map Some temp) (seq 0 (length temp)))
                  (strikes_struck _ _ _ (struck_from_refl _))) as Hs.
    rewrite omap_id_Some in Hs. exact Hs. }
  apply (StronglySorted_map (fun a b => by_collateral a b <= 0)).
  - intros x y Hx Hy Hxy.
    assert (Hcount : forall e, e ∈ temp ->
              collateral_count input (dep e) = length (collateral e)).
    { intros e He. unfold temp in He. rewrite Array_sort_perm in He.
      apply list_elem_of_lookup in He. destruct He as [i Hi].
      destruct (Hentries i e Hi) as [_ Hc]. unfold collateral_count.
      rewrite Hc. reflexivity. }
    rewrite !Hcount by (eapply elem_of_sublist; eassumption).
    unfold by_collateral in Hxy. lia.
  - eapply StronglySorted_sublist; eassumption.
Qed.

Lemma removeDuplicates_descending_witness :
  StronglySorted
    (fun d e =>
       (@collateral_count Sample.imports
          [Scenario.dep_other; Scenario.dep_core_hash; Scenario.dep_core] e
        <= @collateral_count Sample.imports
             [Scenario.dep_other; Scenario.dep_core_hash; Scenario.dep_core] d)%nat)
    [Scenario.dep_core; Scenario.dep_core_hash].
Proof.
  apply (@removeDuplicates_descending Sample.imports).
  vm_compute. reflexivity.
Defined.

(** ** gatherDependencies: what is logged *)

Section GathererLog.

Context `{Imports}.

Variable api : IExtensionApi.

Lemma gatherDependencies_no_mods_unchanged fuel rules w res w' :
  st_mods (store_getState api) !! activeGameId (store_getState api) = None ->
  gatherDependencies fuel rules api w = Some (res, w') ->
  w' = w.
Proof.
  intros Hnone Hrun. destruct fuel as [|fuel]; [discriminate Hrun|].
  rewrite gatherDependencies_S in Hrun.
  destruct (requirements_of rules) as [|rule rest].
  - injection Hrun as _ <-. reflexivity.
  - simpl in Hrun. unfold gather_step at 1, findModByRef in Hrun.
    rewrite Hnone in Hrun. injection Hrun as _ <-. reflexivity.
Qed.

Hypothesis mods_present :
  is_Some (st_mods (store_getState api) !! activeGameId (store_getState api)).

Lemma gatherDependencies_explained fuel :
  forall rules w res w',
    gatherDependencies fuel rules api w = Some (res, w') ->
    exists new, events w' = events w ++ new /\ Forall (explained api) new.
Proof.
  induction fuel as [|fuel IH]; intros rules w res w' Hrun; [discriminate Hrun|].
  rewrite gatherDependencies_S in Hrun. apply then_Some in Hrun.
  set (I := fun (total : list IDependency) (w1 : World) =>
              exists new, events w1 = events w ++ new /\ Forall (explained api) new).
  assert (Hreduce : forall res1 w1,
    Promise_reduce (requirements_of rules)
      (gather_step (fun rules' => gatherDependencies fuel rules' api) api
                   (store_getState api))
      [] w = Some (res1, w1) ->
    exists total, res1 = Fulfilled total /\ I total w1).
  { intros res1 w1. apply (Promise_reduce_post I).
    2:{ exists []. rewrite app_nil_r. split; [reflexivity|constructor]. }
    clear res1 w1. intros rule total w1 res1 w2 Hin (new & Hev & Hnew) Hstep.
    apply gather_step_outcome in Hstep.
    destruct Hstep as [e Hfind | m Hfind | e Hfind Hreply
                      | details Hfind Hreply Hnone
                      | details v e w3 Hfind Hreply Hsome Hrec
                      | details v deps w3 Hfind Hreply Hsome Hrec].
    - apply findModByRef_Throw in Hfind. rewrite Hfind in mods_present.
      destruct mods_present as [? [=]].
    - exists total. split; [reflexivity|]. exists new. split; assumption.
    - exists total. split; [reflexivity|].
      exists (new ++ [EvLookup (rule_reference rule); failed_to_look_up e]).
      split; [simpl; rewrite Hev, <- !app_assoc; reflexivity|].
      apply Forall_app. split; [exact Hnew|].
      constructor; [exact Hfind|]. constructor; [|constructor].
      split; [reflexivity|]. split; [reflexivity|].
      exists (rule_reference rule), e. split; [exact Hfind|].
      split; [|reflexivity]. unfold lookup_failure. rewrite Hreply. reflexivity.
    - exists total. split; [reflexivity|].
      exists (new ++ [EvLookup (rule_reference rule);
                      failed_to_look_up reference_not_found]).
      split; [simpl; rewrite Hev, <- !app_assoc; reflexivity|].
      apply Forall_app. split; [exact Hnew|].
      constructor; [exact Hfind|]. constructor; [|constructor].
      split; [reflexivity|]. split; [reflexivity|].
      exists (rule_reference rule), reference_not_found. split; [exact Hfind|].
      split; [|reflexivity]. unfold lookup_failure. rewrite Hreply, Hnone.
      reflexivity.
    - destruct (gatherDependencies_gathered api mods_present _ _ _ _ _ Hrec)
        as (out & [=] & _).
    - apply IH in Hrec. destruct Hrec as (new2 & Hev2 & Hnew2).
      simpl in Hev2. eexists. split; [reflexivity|].
      exists (new ++ [EvLookup (rule_reference rule)] ++ new2).
      split; [simpl; rewrite Hev2, Hev, <- !app_assoc; reflexivity|].
      apply Forall_app. split; [exact Hnew|].
      constructor; [exact Hfind|exact Hnew2]. }
  destruct Hrun as [(e & Hred & ->) | (input & w1 & Hred & Hdedup)].
  - apply Hreduce in Hred. destruct Hred as (total & [=] & _).
  - apply Hreduce in Hred. destruct Hred as (total & _ & Hnew).
    apply of_result_Some in Hdedup. destruct Hdedup as [-> _]. exact Hnew.
Qed.

End GathererLog.

(** X14. Whatever [gatherDependencies] adds to the trace is a lookup for
    a reference that no installed mod matches, or a log entry of level
    ["error"] with the text ["failed to look up"] and the message of the
    failure of such a lookup (the message of its rejection, or
    ["reference not found: [object Object]"]).  Nothing else is logged. *)
Theorem gatherDependencies_log `{Imports} (api : IExtensionApi)
    (fuel : nat) (rules : option (list IRule)) (w w' : World)
    (res : settled (list IDependency)) :
  gatherDependencies fuel rules api w = Some (res, w') ->
  exists new, events w' = events w ++ new /\ Forall (explained api) new.
Proof.
  intros Hrun.
  destruct (st_mods (store_getState api) !! activeGameId (store_getState api))
    as [mods|] eqn:Hmods.
  - eapply (gatherDependencies_explained api); [|exact Hrun].
    rewrite Hmods. eauto.
  - rewrite (gatherDependencies_no_mods_unchanged api fuel rules w res w' Hmods Hrun).
    exists []. rewrite app_nil_r. split; [reflexivity|constructor].
Qed.

Lemma gatherDependencies_log_witness :
  exists new,
    [EvLookup Scenario.ref_core;
     EvLog "error" "failed to look up" "connect ECONNREFUSED"] = [] ++ new
    /\ Forall (@explained Sample.imports NoLookup.api) new.
Proof.
  apply (@gatherDependencies_log Sample.imports NoLookup.api 1
           (Some [MkRule requires Scenario.ref_core]) (MkWorld 0 [])
           (MkWorld 0 [EvLookup Scenario.ref_core;
                       EvLog "error" "failed to look up" "connect ECONNREFUSED"])
           (Fulfilled [])).
  reflexivity.
Defined.

(** ** When the finders use the hash *)

(** X15. For a reference with a [fileMD5], a [logicalFileName] or
    [fileExpression], and a non-empty [versionMatch]: when [versionMatch]
    begins with a character that is not a hexadecimal digit, as a range
    with an operator such as [>=1.0.0] does, both finders match without
    the hash, whatever [semver.validRange] makes of the string; when it
    begins with a hexadecimal digit, they match with the hash exactly when
    [semver.validRange] returns the string unchanged. *)
Theorem finders_hash_use `{Imports} (reference : IReference)
    (c : Ascii.ascii) (s : string) :
  ref_versionMatch reference = Some (String c s) ->
  ref_fileMD5 reference <> None ->
  ref_logicalFileName reference <> None \/ ref_fileExpression reference <> None ->
  (is_hex_digit c = false ->
   findModByRef_reference reference = omit_fileMD5 reference
   /\ findDownloadByRef_reference reference = omit_fileMD5 reference)
  /\ (is_hex_digit c = true ->
      (validRange (String c s) = Some (String c s)
       <-> findModByRef_reference reference = reference
           /\ findDownloadByRef_reference reference = reference)).
Proof.
  intros Hvm Hmd5 Hname.
  rewrite findModByRef_reference_download, findDownloadByRef_reference_relax.
  assert (Hrelaxes : relaxes reference
                     <-> is_hex_digit c = false
                         \/ validRange (String c s) <> Some (String c s)).
  { unfold relaxes. rewrite Hvm, isFuzzyVersion_nonempty. tauto. }
  assert (Hchanged : omit_fileMD5 reference <> reference).
  { intros Heq. apply Hmd5. rewrite <- Heq. reflexivity. }
  split.
  - intros Hhex. unfold relax. rewrite decide_True by (apply Hrelaxes; tauto).
    split; reflexivity.
  - intros Hhex. unfold relax. destruct (decide (relaxes reference)) as [Hr|Hr].
    + split.
      * intros Hcanon. apply Hrelaxes in Hr. destruct Hr as [Hr|Hr]; congruence.
      * intros [Heq _]. contradiction.
    + split; [intros _; split; reflexivity|].
      intros _. destruct (decide (validRange (String c s) = Some (String c s)))
        as [Hcanon|Hcanon]; [exact Hcanon|].
      exfalso. apply Hr, Hrelaxes. right. exact Hcanon.
Qed.

Lemma finders_hash_use_witness :
  let reference :=
    MkReference (Some "abc") None None (Some ">=1.0.0") (Some "Core Lib") None in
  @validRange Sample.imports ">=1.0.0" = Some ">=1.0.0"
  /\ @findModByRef_reference Sample.imports reference = omit_fileMD5 reference
  /\ @findDownloadByRef_reference Sample.imports reference = omit_fileMD5 reference.
Proof.
  intros reference. split; [reflexivity|].
  apply (@finders_hash_use Sample.imports reference ">"%char "=1.0.0").
  - reflexivity.
  - discriminate.
  - left. discriminate.
  - reflexivity.
Defined.
